(** * GraphExecutor: a shallow embedding of [src/executor/graph_executor.ts]

    The executor runs a parsed inference graph.  This development embeds
    - [compile]: the static ordering of control-flow-free graphs,
    - [executeWithControlFlow]: the stack-driven dynamic scheduler,
    - [executeAsync]: execution followed by disposal of intermediates,
    - [checkInput], [findOutputs], [execute]: the entry point and its checks,
    - [compileWebMLModel] / [executeWebMLModel]: the accelerated path,
    and proves the properties the specification states about them.

    Conventions.
    - A JavaScript object used as a dictionary is a [gmap] (or a [gset] when
      only truthiness of the entries is read); only own properties are
      modelled, node names are assumed not to collide with the names
      inherited from [Object.prototype].
    - An array used as a stack keeps its top at the head of the list:
      [stack.push(x)] is [x :: stack] and [stack.pop()] takes the head.
    - Functions imported from modules outside the file ([getNodeNameAndIndex],
      [getTensor], [getParamValue], [executeOp], the tfjs-core shape helpers,
      the neural-network context) are fields of type classes. *)

From stdpp Require Import base gmap sets list strings pretty.

Set Default Proof Using "Type".
Open Scope string_scope.
Open Scope list_scope.
Open Scope nat_scope.

(* ===================================================================== *)
(** * Part I. The model                                                   *)
(* ===================================================================== *)

(** ** JavaScript values and exceptions *)

(** The values that reach the executor through operator parameters. *)
Inductive JsVal :=
| VUndef
| VNum (z : Z)
| VStr (s : string)
| VNums (l : list Z).

Global Instance JsVal_eq_dec : EqDecision JsVal.
Proof. solve_decision. Defined.

(** A thrown value: a [TypeError] raised by the engine when a property of
    [undefined] is read (or a non-function is called), or an [Error] built
    by the code with a message. *)
Inductive Exn :=
| TypeError
| Error (msg : string).

Global Instance Exn_eq_dec : EqDecision Exn.
Proof. solve_decision. Defined.

Inductive Result (A : Type) :=
| Ok (a : A)
| Throw (e : Exn).
Arguments Ok {A} a.
Arguments Throw {A} e.

Definition rbind {A B} (r : Result A) (k : A → Result B) : Result B :=
  match r with
  | Ok a => k a
  | Throw e => Throw e
  end.

(** [`${v}`] *)
Definition jsToString (v : JsVal) : string :=
  match v with
  | VUndef => "undefined"
  | VNum z => pretty z
  | VStr s => s
  | VNums l => String.concat "," (map pretty l)
  end.

(** [v[i]] *)
Definition jsIndex (v : JsVal) (i : nat) : Result JsVal :=
  match v with
  | VUndef => Throw TypeError
  | VNum _ => Ok VUndef
  | VStr s =>
      Ok (match String.get i s with
          | Some a => VStr (String a EmptyString)
          | None => VUndef
          end)
  | VNums l =>
      Ok (match l !! i with
          | Some z => VNum z
          | None => VUndef
          end)
  end.

(** [shape[i]] for an array of numbers *)
Definition shapeIndex (l : list Z) (i : nat) : JsVal :=
  match l !! i with
  | Some z => VNum z
  | None => VUndef
  end.

(** [i in v]: on an array, whether [i] is one of its indices; the
    operator throws on a value that is not an object. *)
Definition jsIn (i : nat) (v : JsVal) : Result bool :=
  match v with
  | VNums l => Ok (bool_decide (i < length l))
  | _ => Throw TypeError
  end.

Definition upperAscii (a : Ascii.ascii) : Ascii.ascii :=
  let n := Ascii.nat_of_ascii a in
  if bool_decide (97 ≤ n ≤ 122) then Ascii.ascii_of_nat (n - 32) else a.

Fixpoint upperString (s : string) : string :=
  match s with
  | EmptyString => EmptyString
  | String a s' => String (upperAscii a) (upperString s')
  end.

(** [v.toUpperCase()]: only a string has the method. *)
Definition toUpperCase (v : JsVal) : Result string :=
  match v with
  | VStr s => Ok (upperString s)
  | _ => Throw TypeError
  end.

(** A property key: [undefined] used as a key is the string of that name. *)
Definition jsKey (k : option string) : string := default "undefined" k.

(** ** Tensors *)

(** A tensor: its identity, and what the executor reads of it.  The data
    are kept as integers; the executor only passes them on. *)
Record Tensor := mkTensor {
  id : Z;
  dtype : string;
  shape : list Z;
  values : list Z
}.

Global Instance Tensor_eq_dec : EqDecision Tensor.
Proof. solve_decision. Defined.

(** [NamedTensorsMap]: node name to the array of tensors it produced.  An
    entry of such an array may be [undefined] (the disposal loop tests for
    it), hence the [option]. *)
Abbreviation NamedTensorsMap := (gmap string (list (option Tensor))).
(** [NamedTensorMap]: the result of [findOutputs]; a requested name that
    does not resolve is stored with the value [undefined]. *)
Abbreviation NamedTensorMap := (gmap string (option Tensor)).

(** ** Nodes and graphs *)

(** The [Node] interface of [operations/index]: the executor only reads
    these properties.  [children] returns node objects, so that cyclic
    graphs (loops) are instances as well. *)
Class NodeLike (Node : Type) := {
  name : Node → string;
  op : Node → string;
  inputNames : Node → list string;
  children : Node → list Node;
  (** [node.params[k]]: [None] when the node has no such parameter,
      otherwise the [value] of the parameter *)
  params : Node → string → option JsVal
}.

Record Graph (Node : Type) := mkGraph {
  inputs : list Node;
  placeholders : list Node;
  outputs : list Node;
  withControlFlow : bool
}.
Arguments mkGraph {Node}.
Arguments inputs {Node}.
Arguments placeholders {Node}.
Arguments outputs {Node}.
Arguments withControlFlow {Node}.

(** ** Collaborators imported by the executor *)

Class Collaborators (Node : Type) := {
  ExecutionContext : Type;
  ExecutionContextInfo : Type;
  (** [new ExecutionContext(weightMap)] *)
  newExecutionContext : NamedTensorsMap → ExecutionContext;
  (** getter and setter of [context.currentContext] *)
  currentContext : ExecutionContext → list ExecutionContextInfo;
  set_currentContext :
    list ExecutionContextInfo → ExecutionContext → ExecutionContext;
  (** [getNodeNameAndIndex(name, context?)] *)
  getNodeNameAndIndex : string → option ExecutionContext → string * nat;
  (** [getTensor(name, tensorMap, context)], [None] for [undefined] *)
  getTensor : string → NamedTensorsMap → ExecutionContext → option Tensor;
  (** [getParamValue(paramName, node, tensorMap, context)] *)
  getParamValue :
    string → Node → NamedTensorsMap → ExecutionContext → JsVal;
  (** [operations.executeOp(node, tensorMap, context)]: the tensors of the
      node (or the exception it throws) and the context it leaves, since
      control-flow operators enter and exit frames. *)
  executeOp :
    Node → NamedTensorsMap → ExecutionContext →
    Result (list (option Tensor)) * ExecutionContext
}.

(** ** The accelerated backend *)

(** [OperandInfo] *)
Record OperandInfo := mkOperandInfo {
  index : nat;
  info_dtype : string;
  info_shape : list Z
}.

(** The value handed to [setOperandValue]: a typed array built from
    scalars, the buffer of a tensor, or the buffer of its transposition. *)
Inductive OperandValue :=
| Int32Array (l : list JsVal)
| Float32Array (l : list JsVal)
| BufferValues (t : Tensor)
| TransposedBufferValues (t : Tensor) (perm : list nat).

(** The calls received by [this.model], [this.compilation] and
    [this.execution], in order. *)
Inductive ModelCall :=
| AddOperand (type : Z) (dimensions : option (list Z))
| SetOperandValue (index : nat) (v : OperandValue)
| AddOperation (opType : Z) (inputs outputs : list nat)
| IdentifyInputsAndOutputs (inputs outputs : list nat)
| ModelFinish
| CreateCompilation
| SetPreference (preference : Z)
| CompilationFinish
| CreateExecution
| SetInput (index : nat) (t : Tensor)
| SetOutput (index : nat) (t : Tensor)
| StartCompute.

(** The constants of [navigator.ml.getNeuralNetworkContext()]. *)
Class NeuralNetworkContext := {
  INT32 : Z;
  FLOAT32 : Z;
  TENSOR_FLOAT32 : Z;
  TENSOR_INT32 : Z;
  PADDING_SAME : Z;
  PADDING_VALID : Z;
  FUSED_NONE : Z;
  FUSED_RELU : Z;
  FUSED_RELU1 : Z;
  FUSED_RELU6 : Z;
  CONV_2D : Z;
  DEPTHWISE_CONV_2D : Z;
  AVERAGE_POOL_2D : Z;
  RESHAPE : Z;
  SOFTMAX : Z;
  PREFER_FAST_SINGLE_ANSWER : Z
}.

(** What the executor imports from tfjs-core and receives from the
    backend at run time. *)
Class TfjsCore := {
  (** [getBackend()] *)
  getBackend : string;
  (** [util.arraysEqual(a, b)] *)
  arraysEqual : JsVal → list Z → Result bool;
  (** [computeConv2DInfo(inShape, filterShape, strides, dilations, pad,
      'floor', depthwise).outShape] *)
  computeConv2DInfo :
    list JsVal → list JsVal → list JsVal → list JsVal → JsVal → bool →
    Result (list Z);
  (** [computePool2DInfo(inShape, filterSize, strides, pad).outShape] *)
  computePool2DInfo :
    list JsVal → list JsVal → list JsVal → JsVal → Result (list Z);
  (** the tensor built by [Tensor.make(shape, {values}, 'float32')] once
      the backend has filled its buffer *)
  makeOutputTensor : list ModelCall → Tensor → list Z → Tensor;
  (** the value of [await this.execution.startCompute()]: [None] when it
      is falsy, otherwise the error as a string *)
  startCompute : list ModelCall → Tensor → option string
}.

Section Executor.
Context {Node : Type} {HN : NodeLike Node} {HC : Collaborators Node}
        {NN : NeuralNetworkContext} {TF : TfjsCore}.

(** ** [compile] *)

(** The test guarding [stack.push(childNode)] in [compile]. *)
Definition childReady (visited : gset string) (childNode : Node) : bool :=
  bool_decide (name childNode ∉ visited) &&
  forallb (λ nm, bool_decide ((getNodeNameAndIndex nm None).1 ∈ visited))
          (inputNames childNode).

(** [node.children.forEach(...)] of [compile]. *)
Definition pushReadyChildren (visited : gset string)
    (cs : list Node) (stack : list Node) : list Node :=
  foldl (λ st c, if childReady visited c then c :: st else st) stack cs.

(** The [while] loop of [compile]; [None] when the fuel does not suffice. *)
Fixpoint compileLoop (fuel : nat) (stack : list Node)
    (visited : gset string) (compiledOrder : list Node)
  : option (list Node) :=
  match stack with
  | [] => Some compiledOrder
  | node :: rest =>
    match fuel with
    | O => None
    | S fuel' =>
      let visited' := {[name node]} ∪ visited in
      compileLoop fuel'
        (pushReadyChildren visited' (children node) rest)
        visited' (compiledOrder ++ [node])
    end
  end.

(** [compile()]: the value of [this.compiledOrder] afterwards. *)
Definition compile (fuel : nat) (g : Graph Node) : option (list Node) :=
  if withControlFlow g then Some []
  else compileLoop fuel (reverse (inputs g)) ∅ [].

(** Nodes the traversal can meet: the graph's inputs and their descendants. *)
Inductive reachable (g : Graph Node) : Node → Prop :=
| reachable_input n : n ∈ inputs g → reachable g n
| reachable_child p c :
    reachable g p → c ∈ children p → reachable g c.

(** Every node of the sequence comes after the producers of its inputs. *)
Definition topological (order : list Node) : Prop :=
  ∀ i n inp, order !! i = Some n → inp ∈ inputNames n →
    ∃ j m, j < i ∧ order !! j = Some m ∧
           name m = (getNodeNameAndIndex inp None).1.

(** ** [executeWithControlFlow] *)

(** An item of the work stack ([NodeWithContexts]). *)
Record NodeWithContexts := mkItem {
  contexts : list ExecutionContextInfo;
  node : Node
}.

(** What the scheduler does, in order: a call of [executeOp] on a node, and
    a [stack.push] of a child together with the frame-qualified name under
    which it is marked, the environment and the context at that moment. *)
Inductive Event :=
| Executed (n : Node)
| Pushed (nodeName : string) (childNode : Node)
         (tensorMap : NamedTensorsMap) (context : ExecutionContext).

Record SchedState := mkSched {
  stack : list NodeWithContexts;
  tensorMap : NamedTensorsMap;
  added : gset string;
  context : ExecutionContext;
  events : list Event
}.

(** [!!getTensor(name, tensorMap, context)] *)
Definition resolves (tm : NamedTensorsMap) (ctx : ExecutionContext)
    (nm : string) : bool :=
  match getTensor nm tm ctx with
  | Some _ => true
  | None => false
  end.

(** The readiness test of a child: [some] for a merge, [every] otherwise. *)
Definition inputsReady (tm : NamedTensorsMap) (ctx : ExecutionContext)
    (childNode : Node) : bool :=
  if String.eqb (op childNode) "merge"
  then existsb (resolves tm ctx) (inputNames childNode)
  else forallb (resolves tm ctx) (inputNames childNode).

(** The body of [item.node.children.forEach] in the scheduler. *)
Definition scheduleChild (tm : NamedTensorsMap) (ctx : ExecutionContext)
    (st : gset string * list NodeWithContexts * list Event)
    (childNode : Node)
  : gset string * list NodeWithContexts * list Event :=
  let '(added, stack, evs) := st in
  let nodeName := (getNodeNameAndIndex (name childNode) (Some ctx)).1 in
  if bool_decide (nodeName ∈ added) then st
  else if inputsReady tm ctx childNode
  then ({[nodeName]} ∪ added,
        mkItem (currentContext ctx) childNode :: stack,
        evs ++ [Pushed nodeName childNode tm ctx])
  else st.

(** One iteration of the [while] loop, for a popped [item]. *)
Definition schedStep (item : NodeWithContexts) (rest : list NodeWithContexts)
    (st : SchedState) : Result SchedState * list Event :=
  let ctx0 := set_currentContext (contexts item) (context st) in
  let '(tensors, ctx) := executeOp (node item) (tensorMap st) ctx0 in
  let evs := events st ++ [Executed (node item)] in
  match tensors with
  | Throw e => (Throw e, evs)
  | Ok ts =>
    let nodeName := (getNodeNameAndIndex (name (node item)) (Some ctx)).1 in
    let tm := <[nodeName := ts]> (tensorMap st) in
    let '(added', stack', evs') :=
      foldl (scheduleChild tm ctx) (added st, rest, evs)
            (children (node item)) in
    (Ok (mkSched stack' tm added' ctx evs'), evs')
  end.

(** The loop.  The first component is [None] when the fuel ran out,
    otherwise the returned environment or the exception; the second is
    the trace of events up to that point. *)
Fixpoint schedLoop (fuel : nat) (st : SchedState)
  : option (Result SchedState) * list Event :=
  match stack st with
  | [] => (Some (Ok st), events st)
  | item :: rest =>
    match fuel with
    | O => (None, events st)
    | S fuel' =>
      match schedStep item rest st with
      | (Ok st', _) => schedLoop fuel' st'
      | (Throw e, evs) => (Some (Throw e), evs)
      end
    end
  end.

Definition schedInit (g : Graph Node) (weightMap inputTensors : NamedTensorsMap)
    (ctx : ExecutionContext) : SchedState :=
  mkSched (reverse (map (mkItem (currentContext ctx)) (inputs g)))
          (inputTensors ∪ weightMap) ∅ ctx [].

Definition executeWithControlFlow (fuel : nat) (g : Graph Node)
    (weightMap inputTensors : NamedTensorsMap) (ctx : ExecutionContext)
  : option (Result SchedState) * list Event :=
  schedLoop fuel (schedInit g weightMap inputTensors ctx).

(** ** The executor object *)

(** The fields of [GraphExecutor].  [inputNodes] and [outputNodes] are the
    private [placeholders] and [outputs] arrays, named after their
    getters; [weightIds] is [None] until the [weightMap] setter has run;
    [model] is the log of the calls made on the backend objects. *)
Record GraphExecutor := mkExecutor {
  graph : Graph Node;
  compiledOrder : list Node;
  _weightMap : NamedTensorsMap;
  weightIds : option (list Z);
  inputNodes : list string;
  outputNodes : list string;
  compiledWebMLModel : bool;
  operandInfos : gmap string OperandInfo;
  model : list ModelCall;
  operandIndex : nat
}.

(** [Object.keys(o)]; the enumeration order of the keys is the one of
    the map, the properties below do not depend on it. *)
Definition keys {A} (o : gmap string A) : list string :=
  (map_to_list o).*1.

(** [t.id] for a possibly undefined [t]. *)
Definition idOf (t : option Tensor) : Result Z :=
  match t with
  | Some t => Ok (id t)
  | None => Throw TypeError
  end.

(** [array.map(f)] for an [f] that may throw. *)
Fixpoint mapR {A B} (f : A → Result B) (l : list A) : Result (list B) :=
  match l with
  | [] => Ok []
  | x :: l' =>
      rbind (f x) (λ y, rbind (mapR f l') (λ ys, Ok (y :: ys)))
  end.

(** The [weightMap] setter. *)
Definition set_weightMap (weightMap : NamedTensorsMap) (this : GraphExecutor)
  : Result GraphExecutor :=
  rbind (mapR (λ key, mapR idOf (default [] (weightMap !! key)))
              (keys weightMap))
    (λ weightIds,
       Ok (mkExecutor (graph this) (compiledOrder this) weightMap
             (Some (mjoin weightIds)) (inputNodes this) (outputNodes this)
             (compiledWebMLModel this) (operandInfos this) (model this)
             (operandIndex this))).

(** The constructor: the fields once [compile] has run ([None] when the
    fuel given to [compile] does not suffice). *)
Definition newGraphExecutor (fuel : nat) (g : Graph Node)
  : option GraphExecutor :=
  order ← compile fuel g;
  Some (mkExecutor g order ∅ None
          (map name (placeholders g)) (map name (outputs g))
          false ∅ [] 0).

(** ** [findOutputs] *)

(** The optional [outputs] argument: a name or an array of names. *)
Inductive OutputsArg :=
| OneName (s : string)
| Names (l : list string).

Definition requestedOutputs (this : GraphExecutor)
    (outs : option OutputsArg) : list string :=
  match outs with
  | Some (OneName s) =>
      if bool_decide (s = "") then map name (outputs (graph this))
      else [s]
  | Some (Names l) => l
  | None => map name (outputs (graph this))
  end.

Definition findOutputs (this : GraphExecutor) (tensors : NamedTensorsMap)
    (ctx : ExecutionContext) (outs : option OutputsArg)
  : NamedTensorMap :=
  foldl (λ map nm, <[nm := getTensor nm tensors ctx]> map) ∅
        (requestedOutputs this outs).

(** ** [checkInput] *)

Definition missingInputs (this : GraphExecutor) (inputTensors : NamedTensorsMap)
  : list string :=
  filter (λ nm, nm ∉ keys inputTensors) (inputNodes this).

Definition extraInputs (this : GraphExecutor) (inputTensors : NamedTensorsMap)
  : list string :=
  filter (λ nm, nm ∉ inputNodes this) (keys inputTensors).

(** [`${array}`]: the elements joined by commas. *)
Definition joinNames (l : list string) : string := String.concat "," l.

Definition checkInput (this : GraphExecutor) (inputTensors : NamedTensorsMap)
  : Result unit :=
  let missing := missingInputs this inputTensors in
  let extra := extraInputs this inputTensors in
  if bool_decide (0 < length missing) then
    Throw (Error ("Missing input placeholders: " +:+ joinNames missing))
  else if bool_decide (0 < length extra) then
    Throw (Error ("Extra input tensors: " +:+ joinNames extra))
  else Ok ().

(** ** [executeAsync] *)

(** The test and the [dispose] call made for one entry of the environment;
    [log] lists the tensors disposed so far. *)
Definition disposeTensor (outputIds inputIds : list Z)
    (weightIds : option (list Z))
    (acc : Result unit * list Tensor) (tensor : option Tensor)
  : Result unit * list Tensor :=
  match acc with
  | (Throw e, log) => (Throw e, log)
  | (Ok _, log) =>
    match tensor with
    | None => (Ok (), log)
    | Some t =>
      if bool_decide (id t ∉ outputIds) && bool_decide (id t ∉ inputIds)
      then match weightIds with
           | None => (Throw TypeError, log)
           | Some wids =>
               if bool_decide (id t ∉ wids) then (Ok (), log ++ [t])
               else (Ok (), log)
           end
      else (Ok (), log)
    end
  end.

(** [Object.keys(tensors).forEach(key => tensors[key].forEach(...))] *)
Definition disposeIntermediates (outputIds inputIds : list Z)
    (weightIds : option (list Z)) (tensors : NamedTensorsMap)
  : Result unit * list Tensor :=
  foldl (λ acc key,
           foldl (disposeTensor outputIds inputIds weightIds) acc
                 (default [] (tensors !! key)))
        (Ok (), []) (keys tensors).

(** The outcome of [executeAsync]: what the call returns ([None] when the
    scheduler ran out of fuel), the tensors it disposed, in order, and
    the trace of the scheduler. *)
Record AsyncOutcome := mkOutcome {
  returned : option (Result NamedTensorMap);
  disposed : list Tensor;
  trace : list Event
}.

Definition executeAsync (fuel : nat) (this : GraphExecutor)
    (inputTensors : NamedTensorsMap) (outs : option OutputsArg)
  : AsyncOutcome :=
  let ctx := newExecutionContext (_weightMap this) in
  match executeWithControlFlow fuel (graph this) (_weightMap this)
          inputTensors ctx with
  | (None, evs) => mkOutcome None [] evs
  | (Some (Throw e), evs) => mkOutcome (Some (Throw e)) [] evs
  | (Some (Ok st), evs) =>
    let tensors := tensorMap st in
    let results := findOutputs this tensors (context st) outs in
    match mapR (λ key, idOf (default None (results !! key))) (keys results) with
    | Throw e => mkOutcome (Some (Throw e)) [] evs
    | Ok outputIds =>
      match mapR (λ key, mapR idOf (default [] (inputTensors !! key)))
                 (keys inputTensors) with
      | Throw e => mkOutcome (Some (Throw e)) [] evs
      | Ok inputIdArray =>
        let inputIds := mjoin inputIdArray in
        match disposeIntermediates outputIds inputIds (weightIds this)
                tensors with
        | (Throw e, log) => mkOutcome (Some (Throw e)) log evs
        | (Ok _, log) => mkOutcome (Some (Ok results)) log evs
        end
      end
    end
  end.

(** ** The executor as mutable state *)

(** A method of the executor: it returns or throws, and leaves the object
    in the state reached (a throw does not undo earlier assignments). *)
Definition M (A : Type) : Type :=
  GraphExecutor → Result A * GraphExecutor.

Definition ret {A} (a : A) : M A := λ this, (Ok a, this).
Definition throw {A} (e : Exn) : M A := λ this, (Throw e, this).
Definition bind {A B} (m : M A) (k : A → M B) : M B :=
  λ this,
    match m this with
    | (Ok a, this') => k a this'
    | (Throw e, this') => (Throw e, this')
    end.

Local Notation "x ⇐ m ;; k" := (bind m (λ x, k))
  (at level 100, m at next level, k at level 200, right associativity,
   only parsing).
Local Notation "m ;;; k" := (bind m (λ _, k))
  (at level 100, k at level 200, right associativity, only parsing).

Definition lift {A} (r : Result A) : M A := λ this, (r, this).
Definition orTypeError {A} (o : option A) : M A :=
  match o with
  | Some a => ret a
  | None => throw TypeError
  end.
Definition getThis : M GraphExecutor := λ this, (Ok this, this).

(** [this.operandIndex++] *)
Definition nextOperandIndex : M nat :=
  λ this,
    (Ok (operandIndex this),
     mkExecutor (graph this) (compiledOrder this) (_weightMap this)
       (weightIds this) (inputNodes this) (outputNodes this)
       (compiledWebMLModel this) (operandInfos this) (model this)
       (S (operandIndex this))).

(** [this.operandInfos[key] = info] *)
Definition setOperandInfo (key : string) (info : OperandInfo) : M unit :=
  λ this,
    (Ok (),
     mkExecutor (graph this) (compiledOrder this) (_weightMap this)
       (weightIds this) (inputNodes this) (outputNodes this)
       (compiledWebMLModel this) (<[key := info]> (operandInfos this))
       (model this) (operandIndex this)).

(** A call on the backend objects. *)
Definition call (c : ModelCall) : M unit :=
  λ this,
    (Ok (),
     mkExecutor (graph this) (compiledOrder this) (_weightMap this)
       (weightIds this) (inputNodes this) (outputNodes this)
       (compiledWebMLModel this) (operandInfos this)
       (model this ++ [c]) (operandIndex this)).

(** [this.model = await this.nn.createModel(...)] *)
Definition createModel : M unit :=
  λ this,
    (Ok (),
     mkExecutor (graph this) (compiledOrder this) (_weightMap this)
       (weightIds this) (inputNodes this) (outputNodes this)
       (compiledWebMLModel this) (operandInfos this) [] (operandIndex this)).

(** [this.compiledWebMLModel = true] *)
Definition setCompiled : M unit :=
  λ this,
    (Ok (),
     mkExecutor (graph this) (compiledOrder this) (_weightMap this)
       (weightIds this) (inputNodes this) (outputNodes this)
       true (operandInfos this) (model this) (operandIndex this)).

(** [this.operandInfos[key]] *)
Definition operandInfoOf (key : option string) : M (option OperandInfo) :=
  this ⇐ getThis ;; ret (operandInfos this !! jsKey key).

Definition addScalarInt32 (value : JsVal) : M nat :=
  index ⇐ nextOperandIndex ;;
  call (AddOperand INT32 None) ;;;
  call (SetOperandValue index (Int32Array [value])) ;;;
  ret index.

Definition addScalarFloat32 (value : JsVal) : M nat :=
  index ⇐ nextOperandIndex ;;
  call (AddOperand FLOAT32 None) ;;;
  call (SetOperandValue index (Float32Array [value])) ;;;
  ret index.

(** ** [compileWebMLModel] *)

(** What a branch of the per-node dispatch leaves: the [visited] marks and,
    unless [opType] stays [null], the operation with its operand indices. *)
Definition Emitted : Type := gset string * option (Z * list nat * list nat).

(** [childNode.op] for a possibly undefined [childNode]. *)
Definition opOf (childNode : option Node) : M string :=
  n ⇐ orTypeError childNode ;; ret (op n).

(** The [pad] test shared by the convolution and pooling branches. *)
Definition addPadding (pad : JsVal) : M nat :=
  if bool_decide (pad = VStr "same") then
    addScalarInt32 (VNum PADDING_SAME)
  else if bool_decide (pad = VStr "valid") then
    addScalarInt32 (VNum PADDING_VALID)
  else throw (Error ("padding " +:+ jsToString pad +:+ " is not supported")).

(** The fused activation code chosen from [clipValueMax] of [relu]. *)
Definition fuseCodeOf (relu : option Node) (map : NamedTensorsMap)
    (ctx : ExecutionContext) : Z :=
  match relu with
  | None => FUSED_NONE
  | Some r =>
      let max := getParamValue "clipValueMax" r map ctx in
      if bool_decide (max = VNum 1) then FUSED_RELU1
      else if bool_decide (max = VNum 6) then FUSED_RELU6
      else FUSED_RELU
  end.

Definition markVisited (n : option Node) (visited : gset string)
  : gset string :=
  match n with
  | Some n => {[name n]} ∪ visited
  | None => visited
  end.

Definition shape4 (l : list Z) : list JsVal :=
  [shapeIndex l 0; shapeIndex l 1; shapeIndex l 2; shapeIndex l 3].

(** [node.op === 'placeholder'] *)
Definition compilePlaceholder (map : NamedTensorsMap)
    (visited : gset string) (node : Node) : M Emitted :=
  tensors ⇐ orTypeError (map !! name node) ;;
  let tensor := mjoin (tensors !! 0) in
  index ⇐ nextOperandIndex ;;
  t ⇐ orTypeError tensor ;;
  setOperandInfo (name node) (mkOperandInfo index (dtype t) (shape t)) ;;;
  call (AddOperand TENSOR_FLOAT32 (Some (shape t))) ;;;
  ret ({[name node]} ∪ visited, None).

(** The shape of [tensor.transpose(perm)]. *)
Definition transposeShape (perm : list nat) (l : list Z) : list Z :=
  map (λ i, default 0%Z (l !! i)) perm.

(** [node.op === 'const'] *)
Definition compileConst (map : NamedTensorsMap)
    (visited : gset string) (node : Node) : M Emitted :=
  tensors ⇐ orTypeError (map !! name node) ;;
  t ⇐ orTypeError (mjoin (tensors !! 0)) ;;
  (if bool_decide (length (shape t) = 4) then
     index ⇐ nextOperandIndex ;;
     setOperandInfo (name node) (mkOperandInfo index (dtype t) (shape t)) ;;;
     call (AddOperand TENSOR_FLOAT32
             (Some (transposeShape [3; 0; 1; 2] (shape t)))) ;;;
     call (SetOperandValue index (TransposedBufferValues t [3; 0; 1; 2]))
   else
     index ⇐ nextOperandIndex ;;
     setOperandInfo (name node) (mkOperandInfo index (dtype t) (shape t)) ;;;
     call (AddOperand TENSOR_FLOAT32 (Some (shape t))) ;;;
     call (SetOperandValue index (BufferValues t))) ;;;
  ret ({[name node]} ∪ visited, None).

(** [node.op === 'conv2d' || node.op === 'depthwiseConv2d'] *)
Definition compileConv (map : NamedTensorsMap) (ctx : ExecutionContext)
    (visited : gset string) (conv : Node) : M Emitted :=
  let childNode := children conv !! 0 in
  childOp ⇐ opOf childNode ;;
  fused ⇐ (if String.eqb childOp "add" then
             let biasAdd := childNode in
             let childNode' := biasAdd ≫= λ b, children b !! 0 in
             childOp' ⇐ opOf childNode' ;;
             ret (biasAdd,
                  if String.eqb childOp' "clipByValue" then childNode'
                  else None)
           else ret (None, None)) ;;
  let biasAdd : option Node := fused.1 in
  let relu : option Node := fused.2 in
  let visited :=
    markVisited relu (markVisited biasAdd ({[name conv]} ∪ visited)) in
  input ⇐ bind (operandInfoOf (inputNames conv !! 0)) orTypeError ;;
  filter ⇐ bind (operandInfoOf (inputNames conv !! 1)) orTypeError ;;
  biasNode ⇐ orTypeError biasAdd ;;
  bias ⇐ bind (operandInfoOf (inputNames biasNode !! 1)) orTypeError ;;
  let pad := getParamValue "pad" conv map ctx in
  padIndex ⇐ addPadding pad ;;
  let strides := getParamValue "strides" conv map ctx in
  stride1 ⇐ lift (jsIndex strides 1) ;;
  stride1Index ⇐ addScalarInt32 stride1 ;;
  stride2 ⇐ lift (jsIndex strides 2) ;;
  stride2Index ⇐ addScalarInt32 stride2 ;;
  let depthwise := negb (String.eqb (op conv) "conv2d") in
  multiplier ⇐ (if depthwise
                 then i ⇐ addScalarInt32 (VNum 1) ;; ret [i]
                 else ret []) ;;
  dataFormat ⇐ lift (toUpperCase (getParamValue "dataFormat" conv map ctx)) ;;
  if negb (String.eqb dataFormat "NHWC") then
    throw (Error ("dataFormat " +:+ dataFormat +:+ " is not supported"))
  else
  let dilations := getParamValue "dilations" conv map ctx in
  unit_dilations ⇐ lift (arraysEqual dilations [1; 1; 1; 1]%Z) ;;
  (if negb unit_dilations then ret () else ret ()) ;;;
  fuseIndex ⇐ addScalarInt32 (VNum (fuseCodeOf relu map ctx)) ;;
  let outputName :=
    match relu with
    | Some r => name r
    | None => name biasNode
    end in
  dilation0 ⇐ lift (jsIndex dilations 0) ;;
  dilation1 ⇐ lift (jsIndex dilations 1) ;;
  outShape ⇐ lift (computeConv2DInfo
                     (shape4 (info_shape input)) (shape4 (info_shape filter))
                     [stride1; stride2] [dilation0; dilation1]
                     pad depthwise) ;;
  outIndex ⇐ nextOperandIndex ;;
  setOperandInfo outputName
    (mkOperandInfo outIndex (info_dtype input) outShape) ;;;
  call (AddOperand TENSOR_FLOAT32 (Some outShape)) ;;;
  ret (visited,
       Some (if depthwise then DEPTHWISE_CONV_2D else CONV_2D,
             [index input; index filter; index bias;
              padIndex; stride1Index; stride2Index]
               ++ multiplier ++ [fuseIndex],
             [outIndex])).

(** [node.op === 'avgPool'] *)
Definition compileAvgPool (map : NamedTensorsMap) (ctx : ExecutionContext)
    (visited : gset string) (pool : Node) : M Emitted :=
  let childNode := children pool !! 0 in
  childOp ⇐ opOf childNode ;;
  let relu := if String.eqb childOp "clipByValue" then childNode else None in
  let visited := markVisited relu ({[name pool]} ∪ visited) in
  input ⇐ bind (operandInfoOf (inputNames pool !! 0)) orTypeError ;;
  let pad := getParamValue "pad" pool map ctx in
  padIndex ⇐ addPadding pad ;;
  let strides := getParamValue "strides" pool map ctx in
  stride1 ⇐ lift (jsIndex strides 1) ;;
  stride1Index ⇐ addScalarInt32 stride1 ;;
  stride2 ⇐ lift (jsIndex strides 2) ;;
  stride2Index ⇐ addScalarInt32 stride2 ;;
  let kernelSize := getParamValue "kernelSize" pool map ctx in
  kernel1 ⇐ lift (jsIndex kernelSize 1) ;;
  kernel1Index ⇐ addScalarInt32 kernel1 ;;
  kernel2 ⇐ lift (jsIndex kernelSize 2) ;;
  kernel2Index ⇐ addScalarInt32 kernel2 ;;
  fuseIndex ⇐ addScalarInt32 (VNum (fuseCodeOf relu map ctx)) ;;
  let outputName :=
    match relu with
    | Some r => name r
    | None => name pool
    end in
  outShape ⇐ lift (computePool2DInfo (shape4 (info_shape input))
                     [kernel1; kernel2] [stride1; stride2] pad) ;;
  outIndex ⇐ nextOperandIndex ;;
  setOperandInfo outputName
    (mkOperandInfo outIndex (info_dtype input) outShape) ;;;
  call (AddOperand TENSOR_FLOAT32 (Some outShape)) ;;;
  ret (visited,
       Some (AVERAGE_POOL_2D,
             [index input; padIndex; stride1Index; stride2Index;
              kernel1Index; kernel2Index; fuseIndex],
             [outIndex])).

(** The [reduce] computing [outShape] in the squeeze branch: a dimension
    is kept unless its position is an index of the [axis] array. *)
Definition squeezeShape (axis : JsVal) (inputShape : list Z)
  : Result (list Z) :=
  foldl (λ acc iv,
           rbind acc (λ shape,
             rbind (jsIn iv.1 axis) (λ found,
               Ok (if negb found then shape ++ [iv.2] else shape))))
        (Ok []) (imap pair inputShape).

(** [node.op === 'squeeze'] *)
Definition compileSqueeze (visited : gset string) (node : Node) : M Emitted :=
  input ⇐ bind (operandInfoOf (inputNames node !! 0)) orTypeError ;;
  axis ⇐ orTypeError (params node "axis") ;;
  outShape ⇐ lift (squeezeShape axis (info_shape input)) ;;
  newShape ⇐ nextOperandIndex ;;
  call (AddOperand TENSOR_INT32 (Some [Z.of_nat (length outShape)])) ;;;
  call (SetOperandValue newShape (Int32Array (map VNum outShape))) ;;;
  outIndex ⇐ nextOperandIndex ;;
  setOperandInfo (name node)
    (mkOperandInfo outIndex (info_dtype input) outShape) ;;;
  call (AddOperand TENSOR_FLOAT32 (Some outShape)) ;;;
  ret ({[name node]} ∪ visited,
       Some (RESHAPE, [index input; newShape], [outIndex])).

(** [node.op === 'softmax'] *)
Definition compileSoftmax (visited : gset string) (node : Node) : M Emitted :=
  input ⇐ bind (operandInfoOf (inputNames node !! 0)) orTypeError ;;
  beta ⇐ addScalarFloat32 (VNum 1) ;;
  let outShape := info_shape input in
  outIndex ⇐ nextOperandIndex ;;
  setOperandInfo (name node)
    (mkOperandInfo outIndex (info_dtype input) outShape) ;;;
  call (AddOperand TENSOR_FLOAT32 (Some outShape)) ;;;
  ret ({[name node]} ∪ visited,
       Some (SOFTMAX, [index input; beta], [outIndex])).

(** The dispatch on [node.op], without the final [addOperation]. *)
Definition compileBranch (map : NamedTensorsMap) (ctx : ExecutionContext)
    (visited : gset string) (node : Node) : M Emitted :=
  if bool_decide (name node ∈ visited) then ret (visited, None)
  else if String.eqb (op node) "placeholder" then
    compilePlaceholder map visited node
  else if String.eqb (op node) "const" then
    compileConst map visited node
  else if String.eqb (op node) "conv2d"
          || String.eqb (op node) "depthwiseConv2d" then
    compileConv map ctx visited node
  else if String.eqb (op node) "avgPool" then
    compileAvgPool map ctx visited node
  else if String.eqb (op node) "squeeze" then
    compileSqueeze visited node
  else if String.eqb (op node) "softmax" then
    compileSoftmax visited node
  else ret (visited, None).

(** The body of the [reduce] over [compiledOrder]. *)
Definition compileNode (map : NamedTensorsMap) (ctx : ExecutionContext)
    (visited : gset string) (node : Node) : M (gset string) :=
  emitted ⇐ compileBranch map ctx visited node ;;
  match emitted.2 with
  | Some (opType, ins, outs) =>
      call (AddOperation opType ins outs) ;;; ret emitted.1
  | None => ret emitted.1
  end.

Fixpoint compileNodes (map : NamedTensorsMap) (ctx : ExecutionContext)
    (visited : gset string) (nodes : list Node) : M (gset string) :=
  match nodes with
  | [] => ret visited
  | node :: nodes' =>
      visited' ⇐ compileNode map ctx visited node ;;
      compileNodes map ctx visited' nodes'
  end.

Definition compileWebMLModel (inputTensors : NamedTensorsMap) : M unit :=
  this ⇐ getThis ;;
  if compiledWebMLModel this then ret ()
  else
    createModel ;;;
    let ctx := newExecutionContext (_weightMap this) in
    compileNodes (inputTensors ∪ _weightMap this) ctx ∅
                 (compiledOrder this) ;;;
    placeholder0 ⇐ orTypeError (placeholders (graph this) !! 0) ;;
    input ⇐ operandInfoOf (Some (name placeholder0)) ;;
    output0 ⇐ orTypeError (outputs (graph this) !! 0) ;;
    output ⇐ operandInfoOf (Some (name output0)) ;;
    input ⇐ orTypeError input ;;
    output ⇐ orTypeError output ;;
    call (IdentifyInputsAndOutputs [index input] [index output]) ;;;
    call ModelFinish ;;;
    call CreateCompilation ;;;
    call (SetPreference PREFER_FAST_SINGLE_ANSWER) ;;;
    call CompilationFinish ;;;
    call CreateExecution ;;;
    setCompiled.

(** ** [executeWebMLModel] *)

Definition executeWebMLModel (inputTensors : NamedTensorsMap)
  : M NamedTensorMap :=
  this ⇐ getThis ;;
  placeholder0 ⇐ orTypeError (placeholders (graph this) !! 0) ;;
  tensors ⇐ orTypeError (inputTensors !! name placeholder0) ;;
  inputTensor ⇐ orTypeError (mjoin (tensors !! 0)) ;;
  call (SetInput 0 inputTensor) ;;;
  output0 ⇐ orTypeError (outputs (graph this) !! 0) ;;
  output ⇐ bind (operandInfoOf (Some (name output0))) orTypeError ;;
  (if bool_decide (info_shape output = []) then throw TypeError
   else ret ()) ;;;
  this' ⇐ getThis ;;
  let outputTensor :=
    makeOutputTensor (model this') inputTensor (info_shape output) in
  call (SetOutput 0 outputTensor) ;;;
  call StartCompute ;;;
  match startCompute (model this') inputTensor with
  | Some error => throw (Error error)
  | None => ret ({[name output0 := Some outputTensor]} : NamedTensorMap)
  end.

(** ** [execute] *)

(** The [reduce] of the interpreted path: each node of the compiled order
    is executed and its tensors stored under its name. *)
Fixpoint executeNodes (map : NamedTensorsMap) (ctx : ExecutionContext)
    (nodes : list Node) : Result (NamedTensorsMap * ExecutionContext) :=
  match nodes with
  | [] => Ok (map, ctx)
  | node :: nodes' =>
      match executeOp node map ctx with
      | (Ok tensors, ctx') =>
          executeNodes (<[name node := tensors]> map) ctx' nodes'
      | (Throw e, _) => Throw e
      end
  end.

(** [tidy] only releases tensors created inside and not returned: the
    value of the call is the one of its argument. *)
Definition execute (inputTensors : NamedTensorsMap)
    (outs : option OutputsArg) : M NamedTensorMap :=
  this ⇐ getThis ;;
  lift (checkInput this inputTensors) ;;;
  if String.eqb getBackend "webgl" then
    let ctx := newExecutionContext (_weightMap this) in
    env ⇐ lift (executeNodes (inputTensors ∪ _weightMap this) ctx
                  (compiledOrder this)) ;;
    ret (findOutputs this env.1 env.2 outs)
  else
    compileWebMLModel inputTensors ;;;
    executeWebMLModel inputTensors.

(** ** [dispose] and the read-only properties *)

(** [tensor.dispose()] for an entry of a weight array: the method is read
    off the entry, which throws when the entry is undefined. *)
Definition disposeWeight (acc : Result unit * list Tensor)
    (tensor : option Tensor) : Result unit * list Tensor :=
  match acc with
  | (Throw e, log) => (Throw e, log)
  | (Ok _, log) =>
    match tensor with
    | Some t => (Ok (), log ++ [t])
    | None => (Throw TypeError, log)
    end
  end.

(** [dispose()]: the outcome and the tensors disposed, in order.  Before
    the [weightMap] setter has run [this.weightMap] is undefined, and
    [Object.keys] throws on it. *)
Definition dispose (this : GraphExecutor) : Result unit * list Tensor :=
  match weightIds this with
  | None => (Throw TypeError, [])
  | Some _ =>
    foldl (λ acc key,
             foldl disposeWeight acc (default [] (_weightMap this !! key)))
          (Ok (), []) (keys (_weightMap this))
  end.

(** [get isControlFlowModel()] *)
Definition isControlFlowModel (this : GraphExecutor) : bool :=
  withControlFlow (graph this).

End Executor.

Arguments GraphExecutor Node : clear implicits.
Arguments M Node A : clear implicits.

(* ===================================================================== *)
(** * Part II. Vocabulary of the properties                               *)
(* ===================================================================== *)

Section Vocabulary.
Context {Node : Type} {HN : NodeLike Node} {HC : Collaborators Node}
        {NN : NeuralNetworkContext} {TF : TfjsCore}.

Implicit Types (this : GraphExecutor Node) (node : Node).

(** ** Static compilation *)

(** The loop invariant of [compile]. *)
Record compileInv (stack : list Node) (visited : gset string)
    (order : list Node) : Prop := {
  inv_visited : ∀ s, s ∈ visited ↔ ∃ m, m ∈ order ∧ name m = s;
  inv_stack : ∀ n inp, n ∈ stack → inp ∈ inputNames n →
                (getNodeNameAndIndex inp None).1 ∈ visited;
  inv_topo : topological order
}.

(** A graph as the parser links it: a child lists its parent among its
    inputs, the producer of an input has the consumer among its children,
    and every input is produced by a reachable node of smaller rank (no
    dangling reference, no cycle). *)
Record consistent (g : Graph Node) : Prop := {
  child_lists_parent : ∀ p c, reachable g p → c ∈ children p →
    ∃ inp, inp ∈ inputNames c ∧ (getNodeNameAndIndex inp None).1 = name p;
  producer_lists_child : ∀ p c inp, reachable g p → reachable g c →
    inp ∈ inputNames c → (getNodeNameAndIndex inp None).1 = name p →
    ∃ c', c' ∈ children p ∧ name c' = name c ∧
          inputNames c' = inputNames c;
  producers_ranked : ∃ rank : Node → nat,
    ∀ c inp, reachable g c → inp ∈ inputNames c →
      ∃ p, reachable g p ∧ name p = (getNodeNameAndIndex inp None).1 ∧
           rank p < rank c
}.

(** What the loop of [compile] keeps about coverage: only reachable nodes
    are met, every input of the graph is pending or marked, and an
    unmarked node whose inputs are all marked is pending. *)
Record coverInv (g : Graph Node) (stack : list Node)
    (visited : gset string) (order : list Node) : Prop := {
  cov_stack : ∀ n, n ∈ stack → reachable g n;
  cov_order : ∀ n, n ∈ order → reachable g n;
  cov_inputs : ∀ n, n ∈ inputs g → n ∈ stack ∨ name n ∈ visited;
  cov_ready : consistent g →
    ∀ c, reachable g c → name c ∉ visited → inputNames c ≠ [] →
      (∀ inp, inp ∈ inputNames c →
         (getNodeNameAndIndex inp None).1 ∈ visited) →
      ∃ s, s ∈ stack ∧ name s = name c
}.

(** A consistently linked graph whose nodes are told apart by their names
    and listed once: among the inputs of the graph and among the children
    of a node. *)
Record wellLinked (g : Graph Node) : Prop := {
  linked_consistent : consistent g;
  linked_sources : ∀ n, n ∈ inputs g → inputNames n = [];
  linked_names : ∀ a b, reachable g a → reachable g b →
    name a = name b → a = b;
  linked_inputs : NoDup (inputs g);
  linked_children : ∀ p, reachable g p → NoDup (children p)
}.

(** What the loop of [compile] keeps on such a graph: the pending nodes
    are distinct and unmarked, the emitted ones distinct. *)
Record onceInv (stack : list Node) (visited : gset string)
    (order : list Node) : Prop := {
  once_stack : NoDup (name <$> stack);
  once_fresh : ∀ n, n ∈ stack → name n ∉ visited;
  once_order : NoDup (name <$> order)
}.


(** ** Dynamic scheduling *)

(** The frame-qualified names under which children were pushed. *)
Fixpoint pushedNames (evs : list Event) : list string :=
  match evs with
  | [] => []
  | Pushed nodeName _ _ _ :: evs' => nodeName :: pushedNames evs'
  | Executed _ :: evs' => pushedNames evs'
  end.

(** What the trace and the [added] marks satisfy at every point of a run. *)
Record traceInv (g : Graph Node) (added : gset string)
    (stack : list NodeWithContexts) (evs : list Event) : Prop := {
  tr_ready : ∀ nodeName c tm cx, Pushed nodeName c tm cx ∈ evs →
      nodeName = (getNodeNameAndIndex (name c) (Some cx)).1 ∧
      inputsReady tm cx c = true;
  tr_nodup : NoDup (pushedNames evs);
  tr_added : ∀ nm, nm ∈ pushedNames evs → nm ∈ added;
  tr_stack : ∀ item, item ∈ stack →
      node item ∈ inputs g ∨
      ∃ nm tm cx, Pushed nm (node item) tm cx ∈ evs;
  tr_exec : ∀ n, Executed n ∈ evs →
      n ∈ inputs g ∨ ∃ nm tm cx, Pushed nm n tm cx ∈ evs
}.

(** The same, on the accumulator of the loop over the children. *)
Definition traceInv3 (g : Graph Node)
    (x : gset string * list NodeWithContexts * list Event) : Prop :=
  traceInv g x.1.1 x.1.2 x.2.

(** An environment all of whose entries are entries of [init] or were
    stored, under the name of a node qualified by the context it left, by
    a call of [executeOp] recorded in the trace. *)
Definition fromRun (init : NamedTensorsMap) (evs : list Event)
    (env : NamedTensorsMap) : Prop :=
  ∀ key,
    match env !! key with
    | Some ts =>
        init !! key = Some ts ∨
        ∃ n env0 ctx0 ctx1,
          Executed n ∈ evs ∧ executeOp n env0 ctx0 = (Ok ts, ctx1) ∧
          key = (getNodeNameAndIndex (name n) (Some ctx1)).1
    | None => init !! key = None
    end.

(** ** Disposal *)

(** A tensor held by an environment. *)
Definition inEnvironment (tensors : NamedTensorsMap) (t : Tensor) : Prop :=
  ∃ key ts, tensors !! key = Some ts ∧ Some t ∈ ts.

(** The identities exempt from disposal. *)
Definition isOutputId (results : NamedTensorMap) (i : Z) : Prop :=
  ∃ key t, results !! key = Some (Some t) ∧ id t = i.
Definition isInputId (inputTensors : NamedTensorsMap) (i : Z) : Prop :=
  ∃ t, inEnvironment inputTensors t ∧ id t = i.
Definition isWeightId (this : GraphExecutor Node) (i : Z) : Prop :=
  ∃ wids, weightIds this = Some wids ∧ i ∈ wids.

(** Exemption as the disposal loop tests it. *)
Definition exempt (outputIds inputIds : list Z) (wids : option (list Z))
    (i : Z) : Prop :=
  i ∈ outputIds ∨ i ∈ inputIds ∨ ∃ l, wids = Some l ∧ i ∈ l.

(** ** Accelerated compilation *)

(** The operator kinds the per-node dispatch has a branch for. *)
Definition supportedOps : list string :=
  ["placeholder"; "const"; "conv2d"; "depthwiseConv2d"; "avgPool";
   "squeeze"; "softmax"].




(** The fields no method of the accelerated path assigns. *)
Definition sameGraph this this' : Prop :=
  graph this' = graph this ∧ compiledOrder this' = compiledOrder this ∧
  _weightMap this' = _weightMap this ∧ weightIds this' = weightIds this.

Definition preserves {A} (m : M Node A) : Prop :=
  ∀ this, sameGraph this (m this).2.

(** ** Requested outputs *)


(** ** Operand bookkeeping *)

Definition isAddOperand (c : ModelCall) : bool :=
  match c with
  | AddOperand _ _ => true
  | _ => false
  end.

(** The operands declared to the backend model so far. *)
Definition declaredOperands (calls : list ModelCall) : nat :=
  length (filter (λ c, isAddOperand c = true) calls).

(** Indices handed out by the executor, minus operands declared. *)
Definition imbalance this : Z :=
  (Z.of_nat (operandIndex this)
   - Z.of_nat (declaredOperands (model this)))%Z.

(** A method that, when it returns, has moved [imbalance] by [d]. *)
Definition shifts {A} (d : Z) (m : M Node A) : Prop :=
  ∀ this a this', m this = (Ok a, this') →
    imbalance this' = (imbalance this + d)%Z.

(** A method that leaves the compiled flag alone and never takes an
    operand index back. *)
Definition keepsFlag {A} (m : M Node A) : Prop :=
  ∀ this, compiledWebMLModel (m this).2 = compiledWebMLModel this ∧
          operandIndex this ≤ operandIndex (m this).2.

(** A method whose returned values all satisfy [P]. *)
Definition yields {A} (P : A → Prop) (m : M Node A) : Prop :=
  ∀ this a this', m this = (Ok a, this') → P a.

(** The compiled flag tells how a compilation ended. *)
Definition flagTracks {A} (r : Result A * GraphExecutor Node) : Prop :=
  match r with
  | (Ok _, this') => compiledWebMLModel this' = true
  | (Throw _, this') => compiledWebMLModel this' = false
  end.

(** No entry of an environment is undefined. *)
Definition allDefined (tensors : NamedTensorsMap) : Prop :=
  ∀ key ts, tensors !! key = Some ts → None ∉ ts.

(** Every recorded operand carries an index already handed out. *)
Definition indicesAllocated this : Prop :=
  ∀ key info, operandInfos this !! key = Some info →
    index info < operandIndex this.

(** The operand indices a call on the model refers to. *)
Definition referenced (c : ModelCall) : list nat :=
  match c with
  | SetOperandValue i _ => [i]
  | AddOperation _ ins outs => ins ++ outs
  | IdentifyInputsAndOutputs ins outs => ins ++ outs
  | _ => []
  end.

(** Every index recorded or passed to the model has been handed out. *)
Definition allocated this : Prop :=
  indicesAllocated this ∧
  ∀ c i, c ∈ model this → i ∈ referenced c → i < operandIndex this.

(** A method that keeps [allocated], given that the indices of [bound]
    have been handed out, and returns values whose indices [Q] have. *)
Definition keepsAllocated {A} (bound : list nat) (m : M Node A)
    (Q : A → list nat) : Prop :=
  ∀ this, allocated this → (∀ i, i ∈ bound → i < operandIndex this) →
    allocated (m this).2 ∧
    operandIndex this ≤ operandIndex (m this).2 ∧
    ∀ a, (m this).1 = Ok a → ∀ i, i ∈ Q a → i < operandIndex (m this).2.

(** The operand indices of the operation a branch leaves to be added. *)
Definition emittedIndices (e : Emitted) : list nat :=
  match e.2 with
  | Some (_, ins, outs) => ins ++ outs
  | None => []
  end.

End Vocabulary.

Arguments shifts Node {A} d m.
Arguments keepsFlag Node {A} m.
Arguments flagTracks Node {A} r.
Arguments yields Node {A} P m.
Arguments keepsAllocated Node {A} bound m Q.

Arguments preserves Node {A} m.

(* ===================================================================== *)
(** * Part III. Worked instances                                          *)
(* ===================================================================== *)

(** ** Collaborators, concretely *)

(** [parseNodeName]: the text before the last colon and the number after. *)
Fixpoint splitLastColon (s : string) : option (string * string) :=
  match s with
  | EmptyString => None
  | String a s' =>
      match splitLastColon s' with
      | Some (pre, post) => Some (String a pre, post)
      | None =>
          if Ascii.eqb a (Ascii.ascii_of_nat 58) then Some (EmptyString, s')
          else None
      end
  end.

Fixpoint digitsToNat (acc : nat) (s : string) : nat :=
  match s with
  | EmptyString => acc
  | String a s' => digitsToNat (10 * acc + (Ascii.nat_of_ascii a - 48)) s'
  end.

Definition parseNodeName (nm : string) : string * nat :=
  match splitLastColon nm with
  | Some (pre, post) => (pre, digitsToNat 0 post)
  | None => (nm, 0)
  end.

(** A context is its stack of frame names; a name is qualified by the
    frames joined by a slash. *)
Definition qualify (nm : string) (frames : list string) : string :=
  match frames with
  | [] => nm
  | _ => nm +:+ "-" +:+ String.concat "/" frames
  end.

Definition demoGetNodeNameAndIndex (nm : string)
    (ctx : option (list string)) : string * nat :=
  let '(n, i) := parseNodeName nm in
  (qualify n (default [] ctx), i).

Definition demoGetTensor (nm : string) (env : NamedTensorsMap)
    (ctx : list string) : option Tensor :=
  let '(n, i) := parseNodeName nm in
  tensors ← env !! qualify n ctx; mjoin (tensors !! i).

Definition numOf (v : JsVal) : Z :=
  match v with
  | VNum z => z
  | _ => 0%Z
  end.

Definition ceilDiv (a b : Z) : Z := ((a + b - 1) / b)%Z.

Definition outDim (pad : JsVal) (size filterSize stride dilation : Z) : Z :=
  if bool_decide (pad = VStr "same") then ceilDiv size stride
  else ceilDiv (size - ((filterSize - 1) * dilation + 1) + 1) stride.

Definition demoArraysEqual (v : JsVal) (l : list Z) : Result bool :=
  match v with
  | VUndef => Throw TypeError
  | VNums l' => Ok (bool_decide (l' = l))
  | _ => Ok false
  end.

Definition demoConv2DInfo (inShape filterShape strides dilations : list JsVal)
    (pad : JsVal) (depthwise : bool) : Result (list Z) :=
  let at_ (l : list JsVal) i := numOf (default VUndef (l !! i)) in
  Ok [at_ inShape 0;
      outDim pad (at_ inShape 1) (at_ filterShape 0)
             (at_ strides 0) (at_ dilations 0);
      outDim pad (at_ inShape 2) (at_ filterShape 1)
             (at_ strides 1) (at_ dilations 1);
      if depthwise then Z.mul (at_ filterShape 3) (at_ inShape 3)
      else at_ filterShape 3].

Definition demoPool2DInfo (inShape filterSize strides : list JsVal)
    (pad : JsVal) : Result (list Z) :=
  let at_ (l : list JsVal) i := numOf (default VUndef (l !! i)) in
  Ok [at_ inShape 0;
      outDim pad (at_ inShape 1) (at_ filterSize 0) (at_ strides 0) 1;
      outDim pad (at_ inShape 2) (at_ filterSize 1) (at_ strides 1) 1;
      at_ inShape 3].

(** NNAPI-style values for the constants. *)
Definition demoNN : NeuralNetworkContext := {|
  INT32 := 1; FLOAT32 := 0; TENSOR_FLOAT32 := 3; TENSOR_INT32 := 4;
  PADDING_SAME := 1; PADDING_VALID := 2;
  FUSED_NONE := 0; FUSED_RELU := 1; FUSED_RELU1 := 2; FUSED_RELU6 := 3;
  CONV_2D := 3; DEPTHWISE_CONV_2D := 4; AVERAGE_POOL_2D := 1;
  RESHAPE := 22; SOFTMAX := 25; PREFER_FAST_SINGLE_ANSWER := 1
|}%Z.

Definition demoCore (backend : string) : TfjsCore := {|
  getBackend := backend;
  arraysEqual := demoArraysEqual;
  computeConv2DInfo := demoConv2DInfo;
  computePool2DInfo := demoPool2DInfo;
  makeOutputTensor := λ _ _ outShape, mkTensor 1000 "float32" outShape [];
  startCompute := λ _ _, None
|}.

Definition demoCollaborators {Node} `{NodeLike Node}
    (exec : Node → NamedTensorsMap → list string →
            Result (list (option Tensor)) * list string)
  : Collaborators Node := {|
  ExecutionContext := list string;
  ExecutionContextInfo := string;
  newExecutionContext := λ _, [];
  currentContext := λ ctx, ctx;
  set_currentContext := λ frames _, frames;
  getNodeNameAndIndex := demoGetNodeNameAndIndex;
  getTensor := demoGetTensor;
  getParamValue := λ p n _ _, default VUndef (params n p);
  executeOp := exec
|}.

(** ** A convolutional classifier (no control flow) *)

Module Classifier.

Inductive LayerNode :=
| Input | Weights | Bias | Conv | BiasAdd | Relu6 | Pool | Squeeze | Softmax
(* convolutions and a pooling with other parameters, over the same operands *)
| ConvExplicitPad | ConvChannelsFirst | ConvDilated | ConvNoBias | PoolNoPad.

#[export] Instance LayerNode_eq_dec : EqDecision LayerNode.
Proof. solve_decision. Defined.

Definition layerName (n : LayerNode) : string :=
  match n with
  | Input => "input"
  | Weights => "conv/weights"
  | Bias => "conv/bias"
  | Conv => "conv/Conv2D"
  | BiasAdd => "conv/BiasAdd"
  | Relu6 => "conv/Relu6"
  | Pool => "pool"
  | Squeeze => "squeeze"
  | Softmax => "softmax"
  | ConvExplicitPad => "explicit/Conv2D"
  | ConvChannelsFirst => "nchw/Conv2D"
  | ConvDilated => "dilated/Conv2D"
  | ConvNoBias => "nobias/Conv2D"
  | PoolNoPad => "nopad/pool"
  end.

Definition layerOp (n : LayerNode) : string :=
  match n with
  | Input => "placeholder"
  | Weights | Bias => "const"
  | Conv | ConvExplicitPad | ConvChannelsFirst | ConvDilated | ConvNoBias =>
      "conv2d"
  | BiasAdd => "add"
  | Relu6 => "clipByValue"
  | Pool | PoolNoPad => "avgPool"
  | Squeeze => "squeeze"
  | Softmax => "softmax"
  end.

Definition layerInputNames (n : LayerNode) : list string :=
  match n with
  | Input | Weights | Bias => []
  | Conv | ConvExplicitPad | ConvChannelsFirst | ConvDilated | ConvNoBias =>
      ["input"; "conv/weights"]
  | BiasAdd => ["conv/Conv2D"; "conv/bias"]
  | Relu6 => ["conv/BiasAdd"]
  | Pool | PoolNoPad => ["conv/Relu6"]
  | Squeeze => ["pool"]
  | Softmax => ["squeeze"]
  end.

Definition layerChildren (n : LayerNode) : list LayerNode :=
  match n with
  | Input | Weights => [Conv]
  | Bias => [BiasAdd]
  | Conv | ConvExplicitPad | ConvChannelsFirst | ConvDilated => [BiasAdd]
  | ConvNoBias => [Relu6]
  | BiasAdd => [Relu6]
  | Relu6 => [Pool]
  | Pool | PoolNoPad => [Squeeze]
  | Squeeze => [Softmax]
  | Softmax => []
  end.

Definition convParams (pad dataFormat : string) (dilations : list Z)
    (p : string) : option JsVal :=
  if String.eqb p "pad" then Some (VStr pad)
  else if String.eqb p "strides" then Some (VNums [1; 2; 2; 1]%Z)
  else if String.eqb p "dataFormat" then Some (VStr dataFormat)
  else if String.eqb p "dilations" then Some (VNums dilations)
  else None.

Definition poolParams (pad : string) (p : string) : option JsVal :=
  if String.eqb p "pad" then Some (VStr pad)
  else if String.eqb p "strides" then Some (VNums [1; 2; 2; 1]%Z)
  else if String.eqb p "kernelSize" then Some (VNums [1; 2; 2; 1]%Z)
  else None.

Definition layerParams (n : LayerNode) (p : string) : option JsVal :=
  match n with
  | Conv | ConvNoBias => convParams "same" "NHWC" [1; 1; 1; 1]%Z p
  | ConvExplicitPad => convParams "explicit" "NHWC" [1; 1; 1; 1]%Z p
  | ConvChannelsFirst => convParams "valid" "nchw" [1; 1; 1; 1]%Z p
  | ConvDilated => convParams "same" "NHWC" [1; 2; 2; 1]%Z p
  | Pool => poolParams "valid" p
  | PoolNoPad => poolParams "none" p
  | Relu6 =>
      if String.eqb p "clipValueMin" then Some (VNum 0)
      else if String.eqb p "clipValueMax" then Some (VNum 6)
      else None
  | Squeeze => if String.eqb p "axis" then Some (VNums [1; 2]%Z) else None
  | _ => None
  end.

#[export] Instance layerNodeLike : NodeLike LayerNode := {|
  name := layerName;
  op := layerOp;
  inputNames := layerInputNames;
  children := layerChildren;
  params := layerParams
|}.

(** A stand-in for the operator library: an input node yields the tensors
    stored under its name, any other node a fresh tensor. *)
Definition layerExecuteOp (n : LayerNode) (env : NamedTensorsMap)
    (ctx : list string) : Result (list (option Tensor)) * list string :=
  (Ok (match n with
       | Input | Weights | Bias => default [] (env !! layerName n)
       | _ => [Some (mkTensor (100 + Z.of_nat (String.length (layerName n)))
                       "float32" [] [])]
       end), ctx).

#[export] Instance layerCollaborators : Collaborators LayerNode :=
  demoCollaborators layerExecuteOp.

Definition classifierGraph : Graph LayerNode :=
  mkGraph [Input; Weights; Bias] [Input] [Softmax] false.

Definition inputTensor : Tensor := mkTensor 1 "float32" [1; 4; 4; 3]%Z [].
Definition weightsTensor : Tensor := mkTensor 2 "float32" [3; 3; 3; 8]%Z [].
Definition biasTensor : Tensor := mkTensor 3 "float32" [8]%Z [].

Definition classifierWeights : NamedTensorsMap :=
  list_to_map [("conv/weights", [Some weightsTensor]);
               ("conv/bias", [Some biasTensor])].
Definition classifierInputs : NamedTensorsMap :=
  list_to_map [("input", [Some inputTensor])].

Definition classifierOrder : list LayerNode :=
  [Bias; Weights; Input; Conv; BiasAdd; Relu6; Pool; Squeeze; Softmax].

(** The context of a fresh execution: no frame. *)
Definition rootContext : ExecutionContext (Node := LayerNode) :=
  newExecutionContext classifierWeights.

(** The executor once constructed and given its weights. *)
Definition classifierExecutor : GraphExecutor LayerNode :=
  mkExecutor classifierGraph classifierOrder classifierWeights (Some [2; 3]%Z)
    ["input"] ["softmax"] false ∅ [] 0.


(** The environment of the accelerated compilation. *)
Definition classifierEnv : NamedTensorsMap :=
  classifierInputs ∪ classifierWeights.

(** The executor once the constants and the placeholder are compiled. *)
Definition withOperands : GraphExecutor LayerNode :=
  (compileNodes (NN := demoNN) (TF := demoCore "cpu")
     classifierEnv rootContext ∅ [Bias; Weights; Input] classifierExecutor).2.

(** The executor once the nodes up to the pooling are compiled. *)
Definition withPool : GraphExecutor LayerNode :=
  (compileNodes (NN := demoNN) (TF := demoCore "cpu")
     classifierEnv rootContext ∅
     [Bias; Weights; Input; Conv; BiasAdd; Relu6; Pool]
     classifierExecutor).2.

(** The depth of a node below the inputs. *)
Definition layerRank (n : LayerNode) : nat :=
  match n with
  | Conv => 1 | BiasAdd => 2 | Relu6 => 3 | Pool => 4 | Squeeze => 5
  | Softmax => 6
  | _ => 0
  end.

(** An operator library in which the pooling fails. *)
Definition failingExecuteOp (n : LayerNode) (env : NamedTensorsMap)
    (ctx : list string) : Result (list (option Tensor)) * list string :=
  match n with
  | Pool => (Throw (Error "pooling failed"), ctx)
  | _ => layerExecuteOp n env ctx
  end.

Definition failingCollaborators : Collaborators LayerNode :=
  demoCollaborators failingExecuteOp.

(** The environment of the interpreted run when the convolution is
    reached. *)
Definition envBeforeConv : NamedTensorsMap :=
  match executeNodes (classifierInputs ∪ classifierWeights) rootContext
          [Bias; Weights; Input] with
  | Ok (env, _) => env
  | Throw _ => ∅
  end.

(** The environment of the interpreted run when the pooling is reached. *)
Definition envBeforePool : NamedTensorsMap :=
  match executeNodes (HC := failingCollaborators)
          (classifierInputs ∪ classifierWeights) rootContext
          [Bias; Weights; Input; Conv; BiasAdd; Relu6] with
  | Ok (env, _) => env
  | Throw _ => ∅
  end.

End Classifier.

(** ** A conditional (control flow) *)

Module Conditional.

Inductive FlowNode :=
| Pred | X | Scale | Switch | Then | ThenNeg | Else | Merge.

#[export] Instance FlowNode_eq_dec : EqDecision FlowNode.
Proof. solve_decision. Defined.

Definition flowName (n : FlowNode) : string :=
  match n with
  | Pred => "pred"
  | X => "x"
  | Scale => "scale"
  | Switch => "switch"
  | Then => "then"
  | ThenNeg => "then/neg"
  | Else => "else"
  | Merge => "merge"
  end.

Definition flowOp (n : FlowNode) : string :=
  match n with
  | Pred | X => "placeholder"
  | Scale => "const"
  | Switch => "switch"
  | Then => "mul"
  | ThenNeg | Else => "neg"
  | Merge => "merge"
  end.

Definition flowInputNames (n : FlowNode) : list string :=
  match n with
  | Pred | X | Scale => []
  | Switch => ["x"; "pred"]
  | Then => ["switch:1"; "scale"]
  | ThenNeg => ["then"]
  | Else => ["switch:0"]
  | Merge => ["then/neg"; "else"]
  end.

Definition flowChildren (n : FlowNode) : list FlowNode :=
  match n with
  | Pred | X => [Switch]
  | Scale => [Then]
  | Switch => [Then; Else]
  | Then => [ThenNeg]
  | ThenNeg | Else => [Merge]
  | Merge => []
  end.

#[export] Instance flowNodeLike : NodeLike FlowNode := {|
  name := flowName;
  op := flowOp;
  inputNames := flowInputNames;
  children := flowChildren;
  params := λ _ _, None
|}.

Definition flowTensorId (n : FlowNode) : Z :=
  match n with
  | Then => 101 | ThenNeg => 102 | Else => 103 | _ => 100
  end.

(** A stand-in for the operator library.  [switch] forwards its data to
    the output chosen by the predicate and leaves the other undefined;
    [merge] takes its first available input. *)
Definition flowExecuteOp (n : FlowNode) (env : NamedTensorsMap)
    (ctx : list string) : Result (list (option Tensor)) * list string :=
  let arg i := demoGetTensor (default "" (flowInputNames n !! i)) env ctx in
  (Ok (match n with
       | Pred | X | Scale => [demoGetTensor (flowName n) env ctx]
       | Switch =>
           match arg 1 with
           | Some p => if bool_decide (values p = [0%Z]) then [arg 0; None]
                       else [None; arg 0]
           | None => [None; None]
           end
       | Merge =>
           match arg 0 with
           | Some t => [Some t]
           | None => [arg 1]
           end
       | Then =>
           [Some (mkTensor (flowTensorId n) "float32" []
                    (zip_with Z.mul (default [] (values <$> arg 0))
                                    (default [] (values <$> arg 1))))]
       | ThenNeg | Else =>
           [Some (mkTensor (flowTensorId n) "float32" []
                    (Z.opp <$> default [] (values <$> arg 0)))]
       end), ctx).

#[export] Instance flowCollaborators : Collaborators FlowNode :=
  demoCollaborators flowExecuteOp.

Definition condGraph : Graph FlowNode :=
  mkGraph [Pred; X; Scale] [Pred; X] [Merge] true.

Definition predTensor : Tensor := mkTensor 1 "bool" [] [1%Z].
Definition xTensor : Tensor := mkTensor 2 "float32" [] [5%Z].
Definition scaleTensor : Tensor := mkTensor 3 "float32" [] [7%Z].
Definition strayTensor : Tensor := mkTensor 4 "float32" [] [9%Z].

Definition condWeights : NamedTensorsMap :=
  list_to_map [("scale", [Some scaleTensor])].
Definition condInputs : NamedTensorsMap :=
  list_to_map [("pred", [Some predTensor]); ("x", [Some xTensor])].
(** Inputs without the declared placeholder [pred]. *)
Definition inputsMissingPred : NamedTensorsMap :=
  list_to_map [("x", [Some xTensor])].
(** Inputs with a name that is not a placeholder. *)
Definition inputsWithStray : NamedTensorsMap :=
  list_to_map [("pred", [Some predTensor]); ("x", [Some xTensor]);
               ("stray", [Some strayTensor])].

(** The context of a fresh execution: no frame. *)
Definition topContext : ExecutionContext (Node := FlowNode) :=
  newExecutionContext condWeights.

Definition condExecutor : GraphExecutor FlowNode :=
  mkExecutor condGraph [] condWeights (Some [3%Z])
    ["pred"; "x"] ["merge"] false ∅ [] 0.

(** The executor as the constructor leaves it, before the weights are
    assigned. *)
Definition condConstructed : GraphExecutor FlowNode :=
  mkExecutor condGraph [] ∅ None ["pred"; "x"] ["merge"] false ∅ [] 0.

(** The state in which the scheduler returns on the inputs above. *)
Definition condFinal : SchedState :=
  match (executeWithControlFlow 20 condGraph condWeights condInputs
           topContext).1 with
  | Some (Ok st) => st
  | _ => schedInit condGraph condWeights condInputs topContext
  end.


End Conditional.

(* ===================================================================== *)
(** * Part IV. Properties                                                 *)
(* ===================================================================== *)

Create HintDb preserves.

Section CompileProofs.
Context {Node : Type} {HN : NodeLike Node} {HC : Collaborators Node}
        {NN : NeuralNetworkContext} {TF : TfjsCore}.

Lemma pushReadyChildren_filter visited cs stack :
  pushReadyChildren visited cs stack =
  reverse (filter (λ c, childReady visited c = true) cs) ++ stack.
Proof.
  unfold pushReadyChildren. revert stack.
  induction cs as [|c cs IH]; intros stack; simpl; [done|].
  rewrite IH. rewrite filter_cons.
  destruct (childReady visited c) eqn:E.
  - rewrite decide_True by done. rewrite reverse_cons, <- app_assoc. done.
  - rewrite decide_False by (intros ?; congruence). done.
Qed.

Lemma elem_of_pushReadyChildren visited cs stack n :
  n ∈ pushReadyChildren visited cs stack ↔
  (n ∈ cs ∧ childReady visited n = true) ∨ n ∈ stack.
Proof.
  rewrite pushReadyChildren_filter, elem_of_app, elem_of_reverse.
  rewrite list_elem_of_filter. tauto.
Qed.

Lemma childReady_inputs visited c inp :
  childReady visited c = true → inp ∈ inputNames c →
  (getNodeNameAndIndex inp None).1 ∈ visited.
Proof.
  unfold childReady. intros [_ Hall]%andb_true_iff Hin.
  rewrite forallb_forall in Hall.
  apply list_elem_of_In in Hin. apply Hall in Hin.
  by apply bool_decide_eq_true in Hin.
Qed.

Lemma childReady_unvisited visited c :
  childReady visited c = true → name c ∉ visited.
Proof.
  unfold childReady. intros [Hn _]%andb_true_iff.
  by apply bool_decide_eq_true in Hn.
Qed.

Lemma compileInv_step node rest visited order :
  compileInv (node :: rest) visited order →
  compileInv (pushReadyChildren ({[name node]} ∪ visited) (children node) rest)
             ({[name node]} ∪ visited) (order ++ [node]).
Proof.
  intros [Hv Hs Ht]. split.
  - intros s. rewrite elem_of_union, elem_of_singleton, Hv. split.
    + intros [->|(m & Hm & <-)].
      * exists node. split; [|done]. apply elem_of_app. right. by left.
      * exists m. split; [|done]. apply elem_of_app. by left.
    + intros (m & [Hm|Hm%list_elem_of_singleton]%elem_of_app & <-).
      * right. eauto.
      * left. by subst.
  - intros n inp [[_ Hr]|Hin]%elem_of_pushReadyChildren Hinp.
    + eapply childReady_inputs; eauto.
    + apply elem_of_union. right. eapply Hs; [|done]. by right.
  - intros i n inp Hi Hinp.
    destruct (decide (i < length order)) as [Hlt|Hge].
    + rewrite lookup_app_l in Hi by done.
      destruct (Ht i n inp Hi Hinp) as (j & m & Hj & Hm & Hnm).
      exists j, m. split_and!; [done| |done].
      rewrite lookup_app_l by lia. done.
    + assert (i = length order) as ->.
      { apply lookup_lt_Some in Hi. rewrite length_app in Hi. simpl in Hi. lia. }
      rewrite list_lookup_middle in Hi by done. injection Hi as <-.
      assert ((getNodeNameAndIndex inp None).1 ∈ visited) as Hvis.
      { eapply Hs; [by left|done]. }
      apply Hv in Hvis as (m & Hm & Hnm).
      apply list_elem_of_lookup in Hm as [j Hj].
      exists j, m. split_and!; [by eapply lookup_lt_Some| |done].
      rewrite lookup_app_l by (by eapply lookup_lt_Some). done.
Qed.

Lemma compileLoop_topological fuel : ∀ stack visited order result,
  compileInv stack visited order →
  compileLoop fuel stack visited order = Some result →
  topological result.
Proof.
  induction fuel as [|fuel IH]; intros stack visited order result Hinv;
    destruct stack as [|node rest]; simpl.
  - intros [= <-]. apply Hinv.
  - done.
  - intros [= <-]. apply Hinv.
  - apply IH. by apply compileInv_step.
Qed.

Lemma compileLoop_invariant
    (I : list Node → gset string → list Node → Prop) :
  (∀ node rest visited order,
     I (node :: rest) visited order →
     I (pushReadyChildren ({[name node]} ∪ visited) (children node) rest)
       ({[name node]} ∪ visited) (order ++ [node])) →
  ∀ fuel stack visited order result,
    I stack visited order →
    compileLoop fuel stack visited order = Some result →
    ∃ visited', I [] visited' result.
Proof.
  intros Hstep.
  induction fuel as [|fuel IH]; intros stack visited order result Hinv;
    destruct stack as [|node rest]; simpl.
  - intros [= <-]. eauto.
  - done.
  - intros [= <-]. eauto.
  - apply IH. by apply Hstep.
Qed.

Lemma childReady_true visited c :
  name c ∉ visited →
  (∀ inp, inp ∈ inputNames c →
     (getNodeNameAndIndex inp None).1 ∈ visited) →
  childReady visited c = true.
Proof.
  intros Hn Hall. unfold childReady. apply andb_true_iff. split.
  - by apply bool_decide_eq_true.
  - apply forallb_forall. intros inp Hin%list_elem_of_In.
    apply bool_decide_eq_true. by apply Hall.
Qed.

Lemma coverInv_step g node rest visited order :
  coverInv g (node :: rest) visited order →
  coverInv g
    (pushReadyChildren ({[name node]} ∪ visited) (children node) rest)
    ({[name node]} ∪ visited) (order ++ [node]).
Proof.
  intros [Hs Ho Hi Hr].
  assert (reachable g node) as Hnode by (apply Hs; by left).
  split.
  - intros n [[Hc _]|Hn]%elem_of_pushReadyChildren.
    + by eapply reachable_child.
    + apply Hs. by right.
  - intros n [Hn| ->%list_elem_of_singleton]%elem_of_app; auto.
  - intros n Hn. destruct (Hi n Hn) as [[->|Hrest]%elem_of_cons|Hv].
    + right. apply elem_of_union. left. by apply elem_of_singleton.
    + left. apply elem_of_pushReadyChildren. by right.
    + right. apply elem_of_union. by right.
  - intros Hcons c Hc Hunvisited Hsome Hall.
    assert (name c ∉ visited) as Hunv0
      by (intros ?; apply Hunvisited, elem_of_union; by right).
    destruct (decide (Forall (λ inp, (getNodeNameAndIndex inp None).1
                                       ∈ visited) (inputNames c)))
      as [Hbefore|Hnew].
    + rewrite Forall_forall in Hbefore.
      destruct (Hr Hcons c Hc Hunv0 Hsome Hbefore)
        as (s & [->|Hin]%elem_of_cons & Hname).
      * exfalso. apply Hunvisited, elem_of_union. left.
        by apply elem_of_singleton.
      * exists s. split; [|done]. apply elem_of_pushReadyChildren. by right.
    + apply not_Forall_Exists in Hnew; [|solve_decision].
      apply Exists_exists in Hnew as (inp & Hinp & Hnv).
      assert ((getNodeNameAndIndex inp None).1 = name node) as Hprod.
      { specialize (Hall inp Hinp).
        apply elem_of_union in Hall as [Hl%elem_of_singleton|?]; done. }
      destruct (producer_lists_child g Hcons node c inp Hnode Hc Hinp Hprod)
        as (c' & Hchild & Hname & Hinputs).
      exists c'. split; [|done]. apply elem_of_pushReadyChildren. left.
      split; [done|]. apply childReady_true.
      * by rewrite Hname.
      * by rewrite Hinputs.
Qed.

(** Once the stack is empty, every reachable node of a consistent graph
    is marked. *)
Lemma coverInv_complete g visited order :
  consistent g → coverInv g [] visited order →
  ∀ c, reachable g c → name c ∈ visited.
Proof.
  intros Hcons [Hs Ho Hi Hr].
  destruct (producers_ranked g Hcons) as [rank Hrank].
  assert (∀ k c, rank c < k → reachable g c → name c ∈ visited) as Hall.
  { induction k as [|k IH]; intros c Hk Hc; [lia|].
    destruct (inputNames c) as [|i0 ins] eqn:Hins.
    - destruct Hc as [c Hc|p c Hp Hc].
      + destruct (Hi c Hc) as [?%elem_of_nil|?]; done.
      + destruct (child_lists_parent g Hcons p c Hp Hc) as (inp & Hinp & _).
        rewrite Hins in Hinp. by apply elem_of_nil in Hinp.
    - destruct (decide (name c ∈ visited)) as [?|Hunv]; [done|].
      destruct (Hr Hcons c Hc Hunv) as (s & ?%elem_of_nil & _); [..|done].
      + by rewrite Hins.
      + intros inp Hinp.
        destruct (Hrank c inp Hc Hinp) as (p & Hp & <- & Hlt).
        apply IH; [lia|done]. }
  intros c Hc. apply (Hall (S (rank c))); [lia|done].
Qed.


(** *** Termination of the loop *)





End CompileProofs.

Section SchedulerProofs.
Context {Node : Type} {HN : NodeLike Node} {HC : Collaborators Node}
        {NN : NeuralNetworkContext} {TF : TfjsCore}.

Lemma pushedNames_app evs1 evs2 :
  pushedNames (evs1 ++ evs2) = pushedNames evs1 ++ pushedNames evs2.
Proof.
  induction evs1 as [|[?|????] evs1 IH]; simpl; [done|done|by f_equal].
Qed.

Lemma scheduleChild_inv g tm ctx x c :
  traceInv3 g x → traceInv3 g (scheduleChild tm ctx x c).
Proof.
  destruct x as [[added stack] evs]. unfold traceInv3. simpl.
  intros [Hr Hn Ha Hs He]. unfold scheduleChild.
  destruct (bool_decide _) eqn:Hadded; [by split|].
  apply bool_decide_eq_false in Hadded.
  destruct (inputsReady tm ctx c) eqn:Hready; [|by split].
  simpl. split.
  - intros nodeName c' tm' cx' [Hin|Hin%list_elem_of_singleton]%elem_of_app.
    + by apply Hr.
    + by injection Hin as -> -> -> ->.
  - rewrite pushedNames_app. simpl. apply NoDup_app. split_and!; [done| |].
    + intros nm Hnm ->%list_elem_of_singleton. by apply Hadded, Ha.
    + apply NoDup_singleton.
  - intros nm. rewrite pushedNames_app. simpl.
    intros [Hnm| ->%list_elem_of_singleton]%elem_of_app.
    + apply elem_of_union. right. by apply Ha.
    + apply elem_of_union. left. by apply elem_of_singleton.
  - intros item [->|Hin]%elem_of_cons.
    + right. simpl. eexists _, _, _. apply elem_of_app. right. by left.
    + destruct (Hs item Hin) as [?|(nm & tm' & cx' & Hp)]; [by left|].
      right. exists nm, tm', cx'. apply elem_of_app. by left.
  - intros n [Hin|Hin%list_elem_of_singleton]%elem_of_app; [|done].
    destruct (He n Hin) as [?|(nm & tm' & cx' & Hp)]; [by left|].
    right. exists nm, tm', cx'. apply elem_of_app. by left.
Qed.

Lemma scheduleChildren_inv g tm ctx cs : ∀ x,
  traceInv3 g x → traceInv3 g (foldl (scheduleChild tm ctx) x cs).
Proof.
  induction cs as [|c cs IH]; intros x Hinv; simpl; [done|].
  by apply IH, scheduleChild_inv.
Qed.

Lemma traceInv_executed g added item rest evs :
  traceInv g added (item :: rest) evs →
  traceInv g added rest (evs ++ [Executed (node item)]).
Proof.
  intros [Hr Hn Ha Hs He]. split.
  - intros nodeName c tm cx [Hin|Hin%list_elem_of_singleton]%elem_of_app;
      [by apply Hr|done].
  - rewrite pushedNames_app. simpl. by rewrite app_nil_r.
  - intros nm. rewrite pushedNames_app. simpl. rewrite app_nil_r. apply Ha.
  - intros it Hit. destruct (Hs it) as [?|(nm & tm & cx & Hp)];
      [by right|by left|].
    right. exists nm, tm, cx. apply elem_of_app. by left.
  - intros n [Hin|Hin%list_elem_of_singleton]%elem_of_app.
    + destruct (He n Hin) as [?|(nm & tm & cx & Hp)]; [by left|].
      right. exists nm, tm, cx. apply elem_of_app. by left.
    + injection Hin as ->.
      destruct (Hs item) as [?|(nm & tm & cx & Hp)]; [by left|by left|].
      right. exists nm, tm, cx. apply elem_of_app. by left.
Qed.

Lemma schedStep_inv g item rest st :
  stack st = item :: rest →
  traceInv g (added st) (stack st) (events st) →
  match schedStep item rest st with
  | (Ok st', evs) =>
      evs = events st' ∧ traceInv g (added st') (stack st') (events st')
  | (Throw _, evs) => ∃ added, traceInv g added [] evs
  end.
Proof.
  intros Hst Hinv. rewrite Hst in Hinv.
  apply traceInv_executed in Hinv. unfold schedStep.
  destruct (executeOp _ _ _) as [[ts|e] ctx].
  - set (tm := <[_ := ts]> (tensorMap st)).
    pose proof (scheduleChildren_inv g tm ctx (children (node item))
                  (added st, rest, events st ++ [Executed (node item)])
                  Hinv) as Hc.
    destruct (foldl _ _ _) as [[a1 s1] e1]. by simpl.
  - exists (added st). destruct Hinv as [Hr Hn Ha Hs He].
    split; try done. intros it Hit. by apply elem_of_nil in Hit.
Qed.

Lemma schedLoop_inv g fuel : ∀ st,
  traceInv g (added st) (stack st) (events st) →
  ∃ added stack, traceInv g added stack (schedLoop fuel st).2.
Proof.
  induction fuel as [|fuel IH]; intros st Hinv; simpl;
    destruct (stack st) as [|item rest] eqn:Hst; simpl; eauto.
  rewrite <- Hst in Hinv.
  pose proof (schedStep_inv g item rest st Hst Hinv) as Hstep.
  destruct (schedStep item rest st) as [[st'|e] evs].
  - destruct Hstep as [_ Hinv']. by apply IH.
  - destruct Hstep as [a Hinv']. simpl. eauto.
Qed.

Lemma schedInit_inv g weightMap inputTensors ctx :
  let st := schedInit g weightMap inputTensors ctx in
  traceInv g (added st) (stack st) (events st).
Proof.
  simpl. split; simpl.
  - by intros ???? ?%elem_of_nil.
  - apply NoDup_nil_2.
  - by intros ? ?%elem_of_nil.
  - intros item Hin. rewrite elem_of_reverse in Hin.
    apply list_elem_of_fmap in Hin as (n & -> & Hn). by left.
  - by intros ? ?%elem_of_nil.
Qed.

Lemma inputsReady_every tm ctx c inp :
  op c ≠ "merge" → inputsReady tm ctx c = true → inp ∈ inputNames c →
  is_Some (getTensor inp tm ctx).
Proof.
  unfold inputsReady. intros Hop%String.eqb_neq. rewrite Hop.
  rewrite forallb_forall. intros Hall Hin%list_elem_of_In.
  apply Hall in Hin. unfold resolves in Hin.
  destruct (getTensor inp tm ctx); [by eexists|done].
Qed.

(** C2. In every run of the dynamic scheduler, however long, a child that
    is not a merge is pushed only at a moment when each of its declared
    inputs resolves to a tensor in the environment and context of that
    moment; the names under which children are pushed, qualified by the
    frame of that moment, are pairwise distinct; and a node is executed
    only if it is an input of the graph or was pushed. *)
Theorem scheduler_pushes_ready_once fuel (g : Graph Node)
    weightMap inputTensors ctx :
  let evs := (executeWithControlFlow fuel g weightMap inputTensors ctx).2 in
  (∀ nodeName c tm cx, Pushed nodeName c tm cx ∈ evs →
     nodeName = (getNodeNameAndIndex (name c) (Some cx)).1 ∧
     (op c ≠ "merge" →
      ∀ inp, inp ∈ inputNames c → is_Some (getTensor inp tm cx))) ∧
  NoDup (pushedNames evs) ∧
  (∀ n, Executed n ∈ evs →
     n ∈ inputs g ∨ ∃ nodeName tm cx, Pushed nodeName n tm cx ∈ evs).
Proof.
  intros evs. unfold evs, executeWithControlFlow.
  destruct (schedLoop_inv g fuel _ (schedInit_inv g weightMap inputTensors ctx))
    as (a & s & [Hr Hn Ha Hs He]).
  split_and!; [|done|done].
  intros nodeName c tm cx Hin. destruct (Hr _ _ _ _ Hin) as [-> Hready].
  split; [done|]. intros Hop inp Hinp. by eapply inputsReady_every.
Qed.


End SchedulerProofs.

Section LifecycleProofs.
Context {Node : Type} {HN : NodeLike Node} {HC : Collaborators Node}
        {NN : NeuralNetworkContext} {TF : TfjsCore}.

Lemma elem_of_keys {A} (o : gmap string A) key :
  key ∈ keys o ↔ is_Some (o !! key).
Proof.
  unfold keys. rewrite list_elem_of_fmap. split.
  - intros ([k v] & -> & Hkv%elem_of_map_to_list). by exists v.
  - intros [v Hv]. exists (key, v). split; [done|].
    by apply elem_of_map_to_list.
Qed.

Lemma mapR_Ok {A B} (f : A → Result B) l ys :
  mapR f l = Ok ys → ∀ y, y ∈ ys ↔ ∃ x, x ∈ l ∧ f x = Ok y.
Proof.
  revert ys. induction l as [|x l IH]; intros ys; simpl.
  - intros [= <-] y. split; [by intros ?%elem_of_nil|].
    by intros (x & ?%elem_of_nil & _).
  - destruct (f x) as [y0|] eqn:Hx; simpl; [|done].
    destruct (mapR f l) as [ys0|]; simpl; [|done].
    intros [= <-] y. rewrite elem_of_cons, (IH ys0 eq_refl). split.
    + intros [->|(x' & Hx' & Hy)]; [exists x|exists x'];
        (split; [|done]); [by left|by right].
    + intros (x' & [->|Hx']%elem_of_cons & Hy); [left; congruence|].
      right. eauto.
Qed.

Lemma outputIds_spec (results : NamedTensorMap) outputIds :
  mapR (λ key, idOf (default None (results !! key))) (keys results)
    = Ok outputIds →
  ∀ i, i ∈ outputIds ↔ isOutputId results i.
Proof.
  intros Hm i. rewrite (mapR_Ok _ _ _ Hm). unfold isOutputId. split.
  - intros (key & [v Hv]%elem_of_keys & Hid). rewrite Hv in Hid. simpl in Hid.
    destruct v as [t|]; [|done]. injection Hid as <-. by exists key, t.
  - intros (key & t & Hk & <-). exists key. rewrite elem_of_keys, Hk.
    split; [by eexists|done].
Qed.

Lemma inputIds_spec (inputTensors : NamedTensorsMap) inputIdArray :
  mapR (λ key, mapR idOf (default [] (inputTensors !! key)))
       (keys inputTensors) = Ok inputIdArray →
  ∀ i, i ∈ mjoin inputIdArray ↔ isInputId inputTensors i.
Proof.
  intros Hm i. rewrite list_elem_of_join. unfold isInputId, inEnvironment.
  split.
  - intros (ids & Hi & Hids). apply (mapR_Ok _ _ _ Hm) in Hids
      as (key & [ts Hts]%elem_of_keys & Hmap).
    rewrite Hts in Hmap. simpl in Hmap.
    apply (mapR_Ok _ _ _ Hmap) in Hi as ([t|] & Ht & Hid); [|done].
    injection Hid as <-. exists t. split; [|done]. by exists key, ts.
  - intros (t & (key & ts & Hts & Ht) & <-).
    assert (key ∈ keys inputTensors) as Hkey
      by (apply elem_of_keys; by eexists).
    destruct (mapR idOf ts) as [ids|e] eqn:Hids.
    + exists ids. split.
      * apply (mapR_Ok _ _ _ Hids). by exists (Some t).
      * apply (mapR_Ok _ _ _ Hm). exists key. by rewrite Hts.
    + exfalso. clear -Hm Hkey Hts Hids.
      revert inputIdArray Hm. induction (keys inputTensors) as [|k ks IH];
        intros ids Hm; [by apply elem_of_nil in Hkey|].
      simpl in Hm. apply elem_of_cons in Hkey as [<-|Hkey].
      * rewrite Hts in Hm. simpl in Hm. by rewrite Hids in Hm.
      * destruct (mapR idOf (default [] (inputTensors !! k))); [|done].
        simpl in Hm. destruct (mapR _ ks) as [ys|]; [|done].
        by eapply IH.
Qed.

Lemma disposeTensor_Throw o i w e log ts :
  foldl (disposeTensor o i w) (Throw e, log) ts = (Throw e, log).
Proof. induction ts as [|t ts IH]; simpl; done. Qed.

Lemma disposeTensor_Ok o i w log t log' u :
  disposeTensor o i w (Ok u, log) t = (Ok (), log') →
  ∀ x, x ∈ log' ↔ x ∈ log ∨ (t = Some x ∧ ¬ exempt o i w (id x)).
Proof.
  destruct u. unfold disposeTensor, exempt. destruct t as [t|].
  - destruct (bool_decide (id t ∉ o)) eqn:Ho; simpl.
    + apply bool_decide_eq_true in Ho.
      destruct (bool_decide (id t ∉ i)) eqn:Hi; simpl.
      * apply bool_decide_eq_true in Hi. destruct w as [wids|]; [|done].
        destruct (bool_decide (id t ∉ wids)) eqn:Hw.
        -- apply bool_decide_eq_true in Hw. intros [= <-] x.
           rewrite elem_of_app, list_elem_of_singleton. split.
           ++ intros [?| ->]; [by left|right]. split; [done|].
              intros [?|[?|(l & [= <-] & ?)]]; done.
           ++ intros [?|[[= ->] _]]; [by left|by right].
        -- apply bool_decide_eq_false in Hw. intros [= <-] x. split.
           ++ by left.
           ++ intros [?|[[= ->] Hne]]; [done|]. exfalso. apply Hne.
              right. right. exists wids. split; [done|].
              destruct (decide (id x ∈ wids)); [done|]. by destruct Hw.
      * apply bool_decide_eq_false in Hi. intros [= <-] x. split.
        -- by left.
        -- intros [?|[[= ->] Hne]]; [done|]. exfalso. apply Hne.
           right. left. destruct (decide (id x ∈ i)); [done|]. by destruct Hi.
    + apply bool_decide_eq_false in Ho. intros [= <-] x. split.
      * by left.
      * intros [?|[[= ->] Hne]]; [done|]. exfalso. apply Hne.
        left. destruct (decide (id x ∈ o)); [done|]. by destruct Ho.
  - intros [= <-] x. split; [by left|]. by intros [?|[? _]].
Qed.

Lemma disposeArray_Ok o i w ts : ∀ log log' u,
  foldl (disposeTensor o i w) (Ok u, log) ts = (Ok (), log') →
  ∀ x, x ∈ log' ↔ x ∈ log ∨ (Some x ∈ ts ∧ ¬ exempt o i w (id x)).
Proof.
  induction ts as [|t ts IH]; intros log log' []; cbn [foldl].
  - intros [= <-] x. split; [by left|].
    by intros [?|[?%elem_of_nil _]].
  - destruct (disposeTensor o i w (Ok (), log) t) as [[u1|e] log1] eqn:Ht.
    + destruct u1. intros Hfold x.
      rewrite (IH _ _ _ Hfold x), (disposeTensor_Ok _ _ _ _ _ _ _ Ht x).
      rewrite elem_of_cons. split.
      * intros [[?|[-> ?]]|[? ?]]; [by left|right..]; split; auto.
      * intros [?|[[[= ->]|?] ?]]; [left; by left|left; right|right]; auto.
    + by rewrite disposeTensor_Throw.
Qed.

Lemma disposeKeys_Ok o i w (tensors : NamedTensorsMap) ks : ∀ log log' u,
  foldl (λ acc key, foldl (disposeTensor o i w) acc
                          (default [] (tensors !! key)))
        (Ok u, log) ks = (Ok (), log') →
  ∀ x, x ∈ log' ↔
       x ∈ log ∨ (∃ key, key ∈ ks ∧ Some x ∈ default [] (tensors !! key)) ∧
                 ¬ exempt o i w (id x).
Proof.
  induction ks as [|k ks IH]; intros log log' []; cbn [foldl].
  - intros [= <-] x. split; [by left|].
    by intros [?|[(key & ?%elem_of_nil & _) _]].
  - destruct (foldl (disposeTensor o i w) (Ok (), log)
                (default [] (tensors !! k))) as [[u1|e] log1] eqn:Hk.
    + destruct u1. intros Hfold x.
      rewrite (IH _ _ _ Hfold x), (disposeArray_Ok _ _ _ _ _ _ _ Hk x).
      split.
      * intros [[?|[? ?]]|[(key & ? & ?) ?]]; [by left|right..].
        -- split; [|done]. exists k. split; [by left|done].
        -- split; [|done]. exists key. split; [by right|done].
      * intros [?|[(key & [->|?]%elem_of_cons & ?) ?]].
        -- left. by left.
        -- left. by right.
        -- right. split; [|done]. by exists key.
    + intros Hfold. exfalso. clear -Hfold.
      induction ks as [|k' ks IH']; cbn [foldl] in Hfold; [done|].
      rewrite disposeTensor_Throw in Hfold. by apply IH'.
Qed.

Lemma disposeIntermediates_Ok o i w (tensors : NamedTensorsMap) log :
  disposeIntermediates o i w tensors = (Ok (), log) →
  ∀ x, x ∈ log ↔ inEnvironment tensors x ∧ ¬ exempt o i w (id x).
Proof.
  intros Hd x. rewrite (disposeKeys_Ok _ _ _ _ _ _ _ _ Hd x).
  unfold inEnvironment. split.
  - intros [?%elem_of_nil|[(key & [ts Hts]%elem_of_keys & Hx) ?]]; [done|].
    rewrite Hts in Hx. split; [|done]. by exists key, ts.
  - intros [(key & ts & Hts & Hx) ?]. right. split; [|done].
    exists key. rewrite elem_of_keys, Hts. split; [by eexists|done].
Qed.

(** The weight identities kept by the setter are the identities of the
    tensors of the weight map. *)
Lemma set_weightMap_spec weightMap (this this' : GraphExecutor Node) :
  set_weightMap weightMap this = Ok this' →
  _weightMap this' = weightMap ∧
  ∀ i, isWeightId this' i ↔ isInputId weightMap i.
Proof.
  unfold set_weightMap.
  destruct (mapR _ (keys weightMap)) as [ids|] eqn:Hids; simpl; [|done].
  intros [= <-]. split; [done|]. intros i. unfold isWeightId. simpl.
  rewrite <- (inputIds_spec _ _ Hids i). split.
  - by intros (wids & [= <-] & ?).
  - intros ?. by eexists.
Qed.

(** C4. When [executeAsync] returns, the tensors it disposed are exactly
    the tensors of the final environment whose identity is neither the one
    of a returned output, nor of a supplied input tensor, nor a weight
    identity: each such tensor is disposed, and a tensor whose identity is
    an output's, an input's or a weight's is not disposed at all. *)
Theorem executeAsync_disposes fuel (this : GraphExecutor Node)
    inputTensors outs results :
  returned (executeAsync fuel this inputTensors outs) = Some (Ok results) →
  ∃ st,
    (executeWithControlFlow fuel (graph this) (_weightMap this) inputTensors
       (newExecutionContext (_weightMap this))).1 = Some (Ok st) ∧
    results = findOutputs this (tensorMap st) (context st) outs ∧
    ∀ t, t ∈ disposed (executeAsync fuel this inputTensors outs) ↔
         inEnvironment (tensorMap st) t ∧
         ¬ isOutputId results (id t) ∧
         ¬ isInputId inputTensors (id t) ∧
         ¬ isWeightId this (id t).
Proof.
  unfold executeAsync.
  destruct (executeWithControlFlow _ _ _ _ _) as [[[st|e]|] evs]; simpl;
    [|done|done].
  destruct (mapR _ (keys (findOutputs _ _ _ _))) as [outputIds|] eqn:Ho;
    simpl; [|done].
  destruct (mapR _ (keys inputTensors)) as [inputIdArray|] eqn:Hi;
    simpl; [|done].
  destruct (disposeIntermediates _ _ _ _) as [[[]|] log] eqn:Hd; simpl;
    [|done].
  intros [= <-]. exists st. split_and!; [done..|].
  intros t. rewrite (disposeIntermediates_Ok _ _ _ _ _ Hd t).
  unfold exempt, isWeightId.
  pose proof (outputIds_spec _ _ Ho (id t)) as Hout.
  pose proof (inputIds_spec _ _ Hi (id t)) as Hinp.
  rewrite Hout, Hinp. tauto.
Qed.

End LifecycleProofs.

Section AcceleratedProofs.
Context {Node : Type} {HN : NodeLike Node} {HC : Collaborators Node}
        {NN : NeuralNetworkContext} {TF : TfjsCore}.

Implicit Types (this : GraphExecutor Node) (node : Node).

(** Decide the comparisons of operator names between literals. *)
Ltac eqb_eval :=
  repeat match goal with
  | |- context [String.eqb ?a ?b] =>
      let v := eval vm_compute in (String.eqb a b) in
      match v with
      | true => change (String.eqb a b) with true
      | false => change (String.eqb a b) with false
      end
  end;
  cbn [orb andb negb]; cbv iota.

(** Unfold the plumbing of the state monad. *)
Ltac unfold_M :=
  unfold operandInfoOf, opOf, getThis, orTypeError, bind, ret, throw, lift.
Tactic Notation "unfold_M" "in" hyp(H) :=
  unfold operandInfoOf, opOf, getThis, orTypeError, bind, ret, throw, lift
    in H.

Lemma bind_Ok_inv {A B} (m : M Node A) (k : A → M Node B) this b this' :
  bind m k this = (Ok b, this') →
  ∃ a this1, m this = (Ok a, this1) ∧ k a this1 = (Ok b, this').
Proof.
  unfold bind. destruct (m this) as [[a|e] this1]; [|done]. eauto.
Qed.

Lemma bind_Throw {A B} (m : M Node A) (k : A → M Node B) this e this1 :
  m this = (Throw e, this1) → bind m k this = (Throw e, this1).
Proof. unfold bind. by intros ->. Qed.

Lemma bind_Ok {A B} (m : M Node A) (k : A → M Node B) this a this1 :
  m this = (Ok a, this1) → bind m k this = k a this1.
Proof. unfold bind. by intros ->. Qed.

(** *** The squeeze branch *)

Lemma squeezeShape_from (a : list Z) (s : list Z) : ∀ k acc,
  foldl (λ acc iv,
           rbind acc (λ shape,
             rbind (jsIn iv.1 (VNums a)) (λ found,
               Ok (if negb found then shape ++ [iv.2] else shape))))
        (Ok acc) (imap (λ i v, (k + i, v)) s)
  = Ok (acc ++ drop (length a - k) s).
Proof.
  induction s as [|x s IH]; intros k acc.
  - simpl. by rewrite drop_nil, app_nil_r.
  - rewrite imap_cons. cbn [foldl rbind jsIn fst snd].
    rewrite (imap_ext _ (λ i v, (S k + i, v)))
      by (intros i v _; simpl; f_equal; lia).
    rewrite Nat.add_0_r.
    destruct (decide (k < length a)) as [Hlt|Hge].
    + rewrite bool_decide_eq_true_2 by done. simpl negb. cbn iota.
      rewrite IH. do 2 f_equal.
      replace (length a - k) with (S (length a - S k)) by lia. done.
    + rewrite bool_decide_eq_false_2 by done. simpl negb. cbn iota.
      rewrite IH. rewrite <- app_assoc. do 2 f_equal.
      replace (length a - S k) with 0 by lia.
      replace (length a - k) with 0 by lia. done.
Qed.

Lemma squeezeShape_drop (a s : list Z) :
  squeezeShape (VNums a) s = Ok (drop (length a) s).
Proof.
  unfold squeezeShape.
  rewrite (imap_ext _ (λ i v, (0 + i, v))) by done.
  rewrite squeezeShape_from. simpl. by rewrite Nat.sub_0_r.
Qed.

(** C10. A squeeze node compiled on the accelerated path, with axis
    parameter [a], emits a reshape whose target shape is the input shape
    without its first [length a] dimensions: the positions [0] to
    [length a - 1], whatever the values in [a]. *)
Theorem squeeze_drops_leading_dimensions env ctx visited node this input a :
  op node = "squeeze" →
  name node ∉ visited →
  operandInfos this !! jsKey (inputNames node !! 0) = Some input →
  params node "axis" = Some (VNums a) →
  let outShape := drop (length a) (info_shape input) in
  let n := operandIndex this in
  compileNode env ctx visited node this =
    (Ok ({[name node]} ∪ visited),
     mkExecutor (graph this) (compiledOrder this) (_weightMap this)
       (weightIds this) (inputNodes this) (outputNodes this)
       (compiledWebMLModel this)
       (<[name node := mkOperandInfo (S n) (info_dtype input) outShape]>
          (operandInfos this))
       (model this ++
          [AddOperand TENSOR_INT32 (Some [Z.of_nat (length outShape)]);
           SetOperandValue n (Int32Array (map VNum outShape));
           AddOperand TENSOR_FLOAT32 (Some outShape);
           AddOperation RESHAPE [index input; n] [S n]])
       (S (S n))).
Proof.
  intros Hop Hvis Hinput Haxis outShape n.
  unfold compileNode, compileBranch.
  rewrite bool_decide_eq_false_2 by done. rewrite Hop. eqb_eval.
  unfold compileSqueeze. unfold_M. rewrite Hinput, Haxis.
  rewrite squeezeShape_drop. simpl. by rewrite <- !app_assoc.
Qed.

(** *** Nodes without a branch *)

Lemma compileBranch_unsupported env ctx visited node this :
  op node ∉ supportedOps →
  compileBranch env ctx visited node this = (Ok (visited, None), this).
Proof.
  intros Hop. unfold compileBranch.
  destruct (bool_decide (name node ∈ visited)); [done|].
  assert (∀ s, s ∈ supportedOps → String.eqb (op node) s = false) as Hne.
  { intros s Hs. apply String.eqb_neq. intros Heq. apply Hop. by rewrite Heq. }
  rewrite !Hne by (unfold supportedOps; set_solver). done.
Qed.

(** C8. A node whose operator kind has no branch in the per-node dispatch
    (anything but placeholder, const, conv2d, depthwiseConv2d, avgPool,
    squeeze and softmax; an add or clipByValue node is handled only as
    the fused child of another node) is skipped: no call reaches the
    backend, the executor is left as it was, nothing is thrown, and the
    compilation of a sequence containing the node is the compilation of
    the sequence without it. *)
Theorem unsupported_op_skipped env ctx node :
  op node ∉ supportedOps →
  (∀ visited this,
     compileNode env ctx visited node this = (Ok visited, this)) ∧
  (∀ visited before after this,
     compileNodes env ctx visited (before ++ node :: after) this =
     compileNodes env ctx visited (before ++ after) this).
Proof.
  intros Hop.
  assert (∀ visited this,
            compileNode env ctx visited node this = (Ok visited, this))
    as Hskip.
  { intros visited this. unfold compileNode, bind.
    by rewrite compileBranch_unsupported. }
  split; [done|].
  intros visited before. revert visited.
  induction before as [|b before IH]; intros visited after this; simpl.
  - unfold bind. by rewrite Hskip.
  - unfold bind. destruct (compileNode env ctx visited b this) as [[v|e] t];
      [|done]. apply IH.
Qed.

(** *** The convolution branch *)

Lemma compileNode_conv env ctx visited node this :
  op node = "conv2d" ∨ op node = "depthwiseConv2d" →
  name node ∉ visited →
  compileNode env ctx visited node this =
  bind (compileConv env ctx visited node)
    (λ emitted,
       match emitted.2 with
       | Some (opType, ins, outs) =>
           bind (call (AddOperation opType ins outs)) (λ _, ret emitted.1)
       | None => ret emitted.1
       end) this.
Proof.
  intros Hop Hvis. unfold compileNode, compileBranch.
  rewrite bool_decide_eq_false_2 by done.
  destruct Hop as [-> | ->]; by eqb_eval.
Qed.

(** C9. A convolution (plain or depthwise) reads its bias operand through
    its first child.  When that child is missing or is not an add node,
    compiling the convolution throws a [TypeError] (the read of a property
    of [undefined]), not an [Error] with a message; and whenever the
    compilation of the node succeeds, the first child is an add node and
    its second input names an operand already recorded. *)
Theorem conv_bias_requires_add env ctx visited node this :
  op node = "conv2d" ∨ op node = "depthwiseConv2d" →
  name node ∉ visited →
  (¬ (∃ c, children node !! 0 = Some c ∧ op c = "add") →
   (compileNode env ctx visited node this).1 = Throw TypeError) ∧
  (∀ v this', compileNode env ctx visited node this = (Ok v, this') →
     ∃ c bias, children node !! 0 = Some c ∧ op c = "add" ∧
               operandInfos this !! jsKey (inputNames c !! 1) = Some bias).
Proof.
  intros Hop Hvis. rewrite compileNode_conv by done. split.
  - intros Hno. unfold compileConv. unfold_M.
    destruct (children node !! 0) as [c|] eqn:Hc; [|done].
    destruct (String.eqb (op c) "add") eqn:Hadd.
    { exfalso. apply Hno. exists c. split; [done|]. by apply String.eqb_eq. }
    simpl.
    destruct (operandInfos this !! jsKey (inputNames node !! 0)); [|done].
    destruct (operandInfos this !! jsKey (inputNames node !! 1)); done.
  - intros v this' Hrun.
    apply bind_Ok_inv in Hrun as (emitted & this1 & Hconv & _).
    unfold compileConv in Hconv.
    apply bind_Ok_inv in Hconv as (childOp & t1 & Hop1 & Hconv).
    unfold opOf in Hop1. unfold_M in Hop1.
    destruct (children node !! 0) as [c|] eqn:Hc; [|done].
    injection Hop1 as <- <-.
    apply bind_Ok_inv in Hconv as (fused & t2 & Hfused & Hconv).
    destruct (String.eqb (op c) "add") eqn:Hadd.
    + apply String.eqb_eq in Hadd.
      apply bind_Ok_inv in Hfused as (childOp' & t3 & Hop2 & Hfused).
      unfold_M in Hop2. simpl in Hop2.
      destruct (children c !! 0) as [c'|]; [|done].
      injection Hop2 as <- <-. unfold ret in Hfused.
      injection Hfused as <- <-.
      apply bind_Ok_inv in Hconv as (input & t4 & Hinput & Hconv).
      unfold_M in Hinput.
      destruct (operandInfos this !! _) as [i0|]; [|done].
      injection Hinput as <- <-.
      apply bind_Ok_inv in Hconv as (filter & t5 & Hfilter & Hconv).
      unfold_M in Hfilter.
      destruct (operandInfos this !! _) as [f0|]; [|done].
      injection Hfilter as <- <-.
      apply bind_Ok_inv in Hconv as (biasNode & t6 & Hbn & Hconv).
      simpl in Hbn. unfold ret in Hbn. injection Hbn as <- <-.
      apply bind_Ok_inv in Hconv as (bias & t7 & Hbias & _).
      unfold_M in Hbias.
      destruct (operandInfos this !! jsKey (inputNames c !! 1)) as [b0|] eqn:Hb;
        [|done].
      by exists c, b0.
    + unfold ret in Hfused. injection Hfused as <- <-.
      apply bind_Ok_inv in Hconv as (input & t4 & Hinput & Hconv).
      unfold_M in Hinput.
      destruct (operandInfos this !! _) as [i0|]; [|done].
      injection Hinput as <- <-.
      apply bind_Ok_inv in Hconv as (filter & t5 & Hfilter & Hconv).
      unfold_M in Hfilter.
      destruct (operandInfos this !! _) as [f0|]; [|done].
      injection Hfilter as <- <-.
      apply bind_Ok_inv in Hconv as (biasNode & t6 & Hbn & _).
      done.
Qed.

(** *** Rejected parameter values *)






End AcceleratedProofs.

Section EntryPointProofs.
Context {Node : Type} {HN : NodeLike Node} {HC : Collaborators Node}
        {NN : NeuralNetworkContext} {TF : TfjsCore}.

Implicit Types (this : GraphExecutor Node) (node : Node).

(** *** [checkInput] *)

Lemma missingInputs_spec this (inputTensors : NamedTensorsMap) nm :
  nm ∈ missingInputs this inputTensors ↔
  nm ∈ inputNodes this ∧ inputTensors !! nm = None.
Proof.
  unfold missingInputs. rewrite list_elem_of_filter, elem_of_keys.
  rewrite <- eq_None_not_Some. tauto.
Qed.

Lemma extraInputs_spec this (inputTensors : NamedTensorsMap) nm :
  nm ∈ extraInputs this inputTensors ↔
  is_Some (inputTensors !! nm) ∧ nm ∉ inputNodes this.
Proof.
  unfold extraInputs. rewrite list_elem_of_filter, elem_of_keys. tauto.
Qed.

Lemma checkInput_missing this inputTensors :
  missingInputs this inputTensors ≠ [] →
  checkInput this inputTensors =
    Throw (Error ("Missing input placeholders: "
                  +:+ joinNames (missingInputs this inputTensors))).
Proof.
  intros Hne. unfold checkInput.
  rewrite bool_decide_eq_true_2; [done|].
  destruct (missingInputs this inputTensors); [done|simpl; lia].
Qed.

Lemma checkInput_extra this inputTensors :
  missingInputs this inputTensors = [] →
  extraInputs this inputTensors ≠ [] →
  checkInput this inputTensors =
    Throw (Error ("Extra input tensors: "
                  +:+ joinNames (extraInputs this inputTensors))).
Proof.
  intros Hm Hne. unfold checkInput. rewrite Hm.
  rewrite (bool_decide_eq_false_2 (0 < length [])) by (simpl; lia).
  rewrite bool_decide_eq_true_2; [done|].
  destruct (extraInputs this inputTensors); [done|simpl; lia].
Qed.

(** [execute] checks its inputs first: with a declared placeholder absent
    or an undeclared name supplied it throws the corresponding error and
    leaves the executor untouched, on either backend. *)
Lemma execute_checks_inputs this inputTensors outs :
  (missingInputs this inputTensors ≠ [] →
   execute inputTensors outs this =
     (Throw (Error ("Missing input placeholders: "
                    +:+ joinNames (missingInputs this inputTensors))),
      this)) ∧
  (missingInputs this inputTensors = [] →
   extraInputs this inputTensors ≠ [] →
   execute inputTensors outs this =
     (Throw (Error ("Extra input tensors: "
                    +:+ joinNames (extraInputs this inputTensors))),
      this)).
Proof.
  split.
  - intros Hm. unfold execute, bind, getThis, lift.
    by rewrite checkInput_missing.
  - intros Hm He. unfold execute, bind, getThis, lift.
    by rewrite checkInput_extra.
Qed.

(** *** [findOutputs] *)

Lemma foldl_insert_lookup {A} (f : string → A) (l : list string) :
  ∀ (m : gmap string A) k,
    foldl (λ m nm, <[nm := f nm]> m) m l !! k =
    if bool_decide (k ∈ l) then Some (f k) else m !! k.
Proof.
  induction l as [|x l IH]; intros m k; cbn [foldl].
  - by rewrite bool_decide_eq_false_2 by apply not_elem_of_nil.
  - rewrite IH. destruct (decide (k ∈ l)) as [Hin|Hnin].
    + rewrite !bool_decide_eq_true_2; [done|by right|done].
    + rewrite (bool_decide_eq_false_2 (k ∈ l)) by done.
      destruct (decide (x = k)) as [->|Hne].
      * rewrite lookup_insert_eq.
        by rewrite bool_decide_eq_true_2 by (by left).
      * rewrite lookup_insert_ne by done.
        rewrite bool_decide_eq_false_2; [done|].
        intros [?|?]%elem_of_cons; congruence.
Qed.

Lemma findOutputs_lookup this env ctx outs nm :
  nm ∈ requestedOutputs this outs →
  findOutputs this env ctx outs !! nm = Some (getTensor nm env ctx).
Proof.
  intros Hin. unfold findOutputs. rewrite foldl_insert_lookup.
  by rewrite bool_decide_eq_true_2.
Qed.

(** *** The interpreted path *)

Lemma executeNodes_entries nodes : ∀ env ctx env' ctx',
  executeNodes env ctx nodes = Ok (env', ctx') →
  ∀ k,
    (∃ m env0 ctx0 ts, m ∈ nodes ∧ name m = k ∧
       (executeOp m env0 ctx0).1 = Ok ts ∧ env' !! k = Some ts) ∨
    ((∀ m, m ∈ nodes → name m ≠ k) ∧ env' !! k = env !! k).
Proof.
  induction nodes as [|h nodes IH]; intros env ctx env' ctx'; simpl.
  - intros [= <- <-] k. right. split; [|done]. by intros m ?%elem_of_nil.
  - destruct (executeOp h env ctx) as [[ts|e] ctx1] eqn:Hh; [|done].
    intros Hrun k.
    destruct (IH _ _ _ _ Hrun k)
      as [(m & env0 & ctx0 & ts' & Hm & Hk & Hex & Hl)|[Hnone Hl]].
    + left. exists m, env0, ctx0, ts'. split_and!; try done. by right.
    + destruct (decide (name h = k)) as [Heq|Hne].
      * left. exists h, env, ctx, ts. split_and!; [by left|done| |].
        -- by rewrite Hh.
        -- by rewrite Hl, <- Heq, lookup_insert_eq.
      * right. split.
        -- intros m [->|Hm]%elem_of_cons; [done|by apply Hnone].
        -- by rewrite Hl, lookup_insert_ne.
Qed.

(** *** What the accelerated path leaves untouched *)

Lemma preserves_bind {A B} (m : M Node A) (k : A → M Node B) :
  preserves Node m → (∀ a, preserves Node (k a)) → preserves Node (bind m k).
Proof.
  intros Hm Hk this. unfold bind. specialize (Hm this).
  destruct (m this) as [[a|e] this1]; simpl in *; [|done].
  specialize (Hk a this1). unfold sameGraph in *.
  destruct Hm as (? & ? & ? & ?), Hk as (? & ? & ? & ?).
  split_and!; congruence.
Qed.

Lemma preserves_ret {A} (a : A) : preserves Node (ret a).
Proof. by intros this. Qed.
Lemma preserves_throw {A} e : preserves Node (throw e : M Node A).
Proof. by intros this. Qed.
Lemma preserves_lift {A} (r : Result A) : preserves Node (lift r).
Proof. by intros this. Qed.
Lemma preserves_orTypeError {A} (o : option A) : preserves Node (orTypeError o).
Proof. destruct o; by intros this. Qed.
Lemma preserves_getThis : preserves Node getThis.
Proof. by intros this. Qed.
Lemma preserves_nextOperandIndex : preserves Node nextOperandIndex.
Proof. by intros this. Qed.
Lemma preserves_setOperandInfo key info : preserves Node (setOperandInfo key info).
Proof. by intros this. Qed.
Lemma preserves_call c : preserves Node (call c).
Proof. by intros this. Qed.
Lemma preserves_createModel : preserves Node createModel.
Proof. by intros this. Qed.
Lemma preserves_setCompiled : preserves Node setCompiled.
Proof. by intros this. Qed.

#[local] Hint Resolve preserves_ret preserves_throw preserves_lift
  preserves_orTypeError preserves_getThis preserves_nextOperandIndex
  preserves_setOperandInfo preserves_call preserves_createModel
  preserves_setCompiled : preserves.

(** Break a method into its binds and branches. *)
Ltac preserves_tac :=
  repeat first
    [ solve [auto with preserves]
    | apply preserves_bind; [|intros ?]
    | match goal with
      | |- preserves _ (if ?b then _ else _) => destruct b
      | |- preserves _ (match ?x with _ => _ end) => destruct x
      end ].

Lemma preserves_operandInfoOf key : preserves Node (operandInfoOf key).
Proof. unfold operandInfoOf. preserves_tac. Qed.
Lemma preserves_addScalarInt32 v : preserves Node (addScalarInt32 v).
Proof. unfold addScalarInt32. preserves_tac. Qed.
Lemma preserves_addScalarFloat32 v : preserves Node (addScalarFloat32 v).
Proof. unfold addScalarFloat32. preserves_tac. Qed.
#[local] Hint Resolve preserves_operandInfoOf preserves_addScalarInt32
  preserves_addScalarFloat32 : preserves.

Lemma preserves_addPadding pad : preserves Node (addPadding pad).
Proof. unfold addPadding. preserves_tac. Qed.
Lemma preserves_opOf c : preserves Node (opOf c).
Proof. unfold opOf. preserves_tac. Qed.
#[local] Hint Resolve preserves_addPadding preserves_opOf : preserves.

Lemma preserves_compileNode env ctx visited node :
  preserves Node (compileNode env ctx visited node).
Proof.
  unfold compileNode, compileBranch, compilePlaceholder, compileConst,
    compileConv, compileAvgPool, compileSqueeze, compileSoftmax.
  preserves_tac.
Qed.
#[local] Hint Resolve preserves_compileNode : preserves.

Lemma preserves_compileNodes env ctx nodes : ∀ visited,
  preserves Node (compileNodes env ctx visited nodes).
Proof.
  induction nodes as [|n nodes IH]; intros visited; simpl; preserves_tac.
Qed.
#[local] Hint Resolve preserves_compileNodes : preserves.




End EntryPointProofs.

(* ===================================================================== *)
(** * Part V. The properties on the worked instances                      *)
(* ===================================================================== *)

Module ClassifierFacts.
Import Classifier.

Example compile_classifier : compile 9 classifierGraph = Some classifierOrder.
Proof. vm_compute. reflexivity. Qed.

(** The executor of the examples is the one the constructor and the
    weight setter build. *)
Example classifier_constructed :
  (this ← newGraphExecutor 9 classifierGraph;
   match set_weightMap classifierWeights this with
   | Ok this' => Some this'
   | Throw _ => None
   end) = Some classifierExecutor.
Proof. vm_compute. reflexivity. Qed.

(** Case analysis on the membership of a node in an explicit list. *)
Ltac cases_in H :=
  repeat (apply elem_of_cons in H as [->|H]); [..|by apply elem_of_nil in H].

Lemma reachable_classifier n :
  reachable classifierGraph n ↔ n ∈ classifierOrder.
Proof.
  split.
  - induction 1 as [n Hn|p c _ IH Hc].
    + simpl in Hn. cases_in Hn; compute_done.
    + cases_in IH; simpl in Hc; cases_in Hc; compute_done.
  - assert (reachable classifierGraph Input) as HI
      by (apply reachable_input; compute_done).
    assert (reachable classifierGraph Weights) as HW
      by (apply reachable_input; compute_done).
    assert (reachable classifierGraph Bias) as HB
      by (apply reachable_input; compute_done).
    assert (reachable classifierGraph Conv) as HC
      by (apply (reachable_child _ Input); [done|compute_done]).
    assert (reachable classifierGraph BiasAdd) as HA
      by (apply (reachable_child _ Conv); [done|compute_done]).
    assert (reachable classifierGraph Relu6) as HR
      by (apply (reachable_child _ BiasAdd); [done|compute_done]).
    assert (reachable classifierGraph Pool) as HP
      by (apply (reachable_child _ Relu6); [done|compute_done]).
    assert (reachable classifierGraph Squeeze) as HS
      by (apply (reachable_child _ Pool); [done|compute_done]).
    assert (reachable classifierGraph Softmax) as HM
      by (apply (reachable_child _ Squeeze); [done|compute_done]).
    intros Hn. cases_in Hn; done.
Qed.

(** The classifier graph is linked as the parser links graphs. *)
Lemma classifier_consistent : consistent classifierGraph.
Proof.
  split.
  - intros p c Hp%reachable_classifier Hc.
    cases_in Hp; simpl in Hc; cases_in Hc;
      first [ exists "input"; split; [compute_done|reflexivity]
            | exists "conv/weights"; split; [compute_done|reflexivity]
            | exists "conv/bias"; split; [compute_done|reflexivity]
            | exists "conv/Conv2D"; split; [compute_done|reflexivity]
            | exists "conv/BiasAdd"; split; [compute_done|reflexivity]
            | exists "conv/Relu6"; split; [compute_done|reflexivity]
            | exists "pool"; split; [compute_done|reflexivity]
            | exists "squeeze"; split; [compute_done|reflexivity] ].
  - intros p c inp Hp%reachable_classifier Hc%reachable_classifier Hinp Heq.
    exists c. split_and!; [|done|done].
    cases_in Hc; simpl in Hinp; cases_in Hinp;
      cases_in Hp; first [discriminate Heq | compute_done].
  - exists layerRank.
    intros c inp Hc%reachable_classifier Hinp.
    cases_in Hc; simpl in Hinp; cases_in Hinp;
      first [ exists Input; split_and!;
                [by apply reachable_classifier; compute_done
                |reflexivity|simpl; lia]
            | exists Weights; split_and!;
                [by apply reachable_classifier; compute_done
                |reflexivity|simpl; lia]
            | exists Bias; split_and!;
                [by apply reachable_classifier; compute_done
                |reflexivity|simpl; lia]
            | exists Conv; split_and!;
                [by apply reachable_classifier; compute_done
                |reflexivity|simpl; lia]
            | exists BiasAdd; split_and!;
                [by apply reachable_classifier; compute_done
                |reflexivity|simpl; lia]
            | exists Relu6; split_and!;
                [by apply reachable_classifier; compute_done
                |reflexivity|simpl; lia]
            | exists Pool; split_and!;
                [by apply reachable_classifier; compute_done
                |reflexivity|simpl; lia]
            | exists Squeeze; split_and!;
                [by apply reachable_classifier; compute_done
                |reflexivity|simpl; lia] ].
Qed.


Lemma unsupported_op_skipped_witness :
  (∀ visited this,
     compileNode (NN := demoNN) (TF := demoCore "cpu")
       classifierEnv rootContext visited BiasAdd this = (Ok visited, this)) ∧
  (∀ visited before after this,
     compileNodes (NN := demoNN) (TF := demoCore "cpu")
       classifierEnv rootContext visited (before ++ BiasAdd :: after) this =
     compileNodes (NN := demoNN) (TF := demoCore "cpu")
       classifierEnv rootContext visited (before ++ after) this).
Proof.
  apply (unsupported_op_skipped (NN := demoNN) (TF := demoCore "cpu")).
  compute_done.
Defined.

Lemma conv_bias_requires_add_witness :
  (¬ (∃ c, children ConvNoBias !! 0 = Some c ∧ op c = "add") →
   (compileNode (NN := demoNN) (TF := demoCore "cpu")
      classifierEnv rootContext ∅ ConvNoBias withOperands).1
   = Throw TypeError) ∧
  (∀ v this',
     compileNode (NN := demoNN) (TF := demoCore "cpu")
       classifierEnv rootContext ∅ ConvNoBias withOperands = (Ok v, this') →
     ∃ c bias, children ConvNoBias !! 0 = Some c ∧ op c = "add" ∧
               operandInfos withOperands !! jsKey (inputNames c !! 1)
                 = Some bias).
Proof.
  apply (conv_bias_requires_add (NN := demoNN) (TF := demoCore "cpu")).
  - left. reflexivity.
  - apply not_elem_of_empty.
Defined.

(** The convolution whose first child is a clamp, not an add: the
    operands resolve, the bias lookup does not. *)
Example conv_without_bias_throws :
  (compileNodes (NN := demoNN) (TF := demoCore "cpu")
     classifierEnv rootContext ∅ [Bias; Weights; Input; ConvNoBias]
     classifierExecutor).1 = Throw TypeError.
Proof. vm_compute. reflexivity. Qed.

Lemma squeeze_drops_leading_dimensions_witness :
  compileNode (NN := demoNN) (TF := demoCore "cpu")
    classifierEnv rootContext ∅ Squeeze withPool =
    (Ok ({["squeeze"]} ∪ ∅),
     mkExecutor (graph withPool) (compiledOrder withPool)
       (_weightMap withPool) (weightIds withPool) (inputNodes withPool)
       (outputNodes withPool) (compiledWebMLModel withPool)
       (<["squeeze" := mkOperandInfo 16 "float32" [1; 8]%Z]>
          (operandInfos withPool))
       (model withPool ++
          [AddOperand 4%Z (Some [2%Z]);
           SetOperandValue 15 (Int32Array [VNum 1; VNum 8]);
           AddOperand 3%Z (Some [1; 8]%Z);
           AddOperation 22%Z [14; 15] [16]])
       17).
Proof.
  assert (operandInfos withPool !! jsKey (inputNames Squeeze !! 0)
          = Some (mkOperandInfo 14 "float32" [1; 1; 1; 8]%Z)) as Hpool
    by (vm_compute; reflexivity).
  pose proof (squeeze_drops_leading_dimensions (NN := demoNN)
                (TF := demoCore "cpu") classifierEnv rootContext ∅ Squeeze
                withPool _ [1; 2]%Z eq_refl (not_elem_of_empty _) Hpool
                eq_refl) as W.
  vm_compute in W. vm_compute. exact W.
Defined.


Example rejected_data_layout :
  (compileNodes (NN := demoNN) (TF := demoCore "cpu")
     classifierEnv rootContext ∅ [Bias; Weights; Input; ConvChannelsFirst]
     classifierExecutor).1
  = Throw (Error "dataFormat NCHW is not supported").
Proof. vm_compute. reflexivity. Qed.

Example rejected_pool_padding_example :
  (compileNodes (NN := demoNN) (TF := demoCore "cpu")
     classifierEnv rootContext ∅
     [Bias; Weights; Input; Conv; BiasAdd; Relu6; PoolNoPad]
     classifierExecutor).1
  = Throw (Error "padding none is not supported").
Proof. vm_compute. reflexivity. Qed.




End ClassifierFacts.

Module ConditionalFacts.
Import Conditional.


Example conditional_constructed :
  (this ← newGraphExecutor 0 condGraph;
   match set_weightMap condWeights this with
   | Ok this' => Some this'
   | Throw _ => None
   end) = Some condExecutor.
Proof. vm_compute. reflexivity. Qed.

(** The run of the conditional with a true predicate: the merge is pushed
    when [then/neg] has produced its tensor, and [else] never runs. *)
Example conditional_trace :
  let evs :=
    (executeWithControlFlow 20 condGraph condWeights condInputs
       topContext).2 in
  omap (λ e, match e with Executed n => Some n | _ => None end) evs
    = [Scale; X; Switch; Then; ThenNeg; Merge; Pred] ∧
  pushedNames evs = ["switch"; "then"; "then/neg"; "merge"].
Proof. split; vm_compute; reflexivity. Qed.

Lemma executeAsync_disposes_witness :
  disposed (executeAsync 20 condExecutor condInputs None)
    = [mkTensor 101 "float32" [] [35%Z]] ∧
  ∃ st,
    (executeWithControlFlow 20 (graph condExecutor)
       (_weightMap condExecutor) condInputs
       (newExecutionContext (_weightMap condExecutor))).1 = Some (Ok st) ∧
    ({["merge" := Some (mkTensor 102 "float32" [] [(-35)%Z])]}
       : NamedTensorMap)
      = findOutputs condExecutor (tensorMap st) (context st) None ∧
    ∀ t, t ∈ disposed (executeAsync 20 condExecutor condInputs None) ↔
         inEnvironment (tensorMap st) t ∧
         ¬ isOutputId
             {["merge" := Some (mkTensor 102 "float32" [] [(-35)%Z])]}
             (id t) ∧
         ¬ isInputId condInputs (id t) ∧
         ¬ isWeightId condExecutor (id t).
Proof.
  split.
  - vm_compute. reflexivity.
  - apply (executeAsync_disposes 20 condExecutor condInputs None
             {["merge" := Some (mkTensor 102 "float32" [] [(-35)%Z])]}).
    vm_compute. reflexivity.
Defined.

(** C5, on [executeAsync]. With the declared placeholder [pred] absent,
    [execute] throws the missing-input error and runs nothing, whereas
    [executeAsync] executes three nodes and then fails with a [TypeError];
    with the undeclared name [stray] supplied, [execute] throws the
    extra-input error, whereas [executeAsync] runs the whole graph and
    returns. *)
Theorem executeAsync_skips_input_check :
  missingInputs condExecutor inputsMissingPred = ["pred"] ∧
  (execute (NN := demoNN) (TF := demoCore "webgl")
     inputsMissingPred None condExecutor).1
    = Throw (Error "Missing input placeholders: pred") ∧
  returned (executeAsync 20 condExecutor inputsMissingPred None)
    = Some (Throw TypeError) ∧
  trace (executeAsync 20 condExecutor inputsMissingPred None)
    = [Executed Scale; Executed X; Executed Pred] ∧
  extraInputs condExecutor inputsWithStray = ["stray"] ∧
  (execute (NN := demoNN) (TF := demoCore "webgl")
     inputsWithStray None condExecutor).1
    = Throw (Error "Extra input tensors: stray") ∧
  returned (executeAsync 20 condExecutor inputsWithStray None)
    = Some (Ok {["merge" := Some (mkTensor 102 "float32" [] [(-35)%Z])]}) ∧
  omap (λ e, match e with Executed n => Some n | _ => None end)
       (trace (executeAsync 20 condExecutor inputsWithStray None))
    = [Scale; X; Switch; Then; ThenNeg; Merge; Pred].
Proof. split_and!; vm_compute; reflexivity. Qed.

End ConditionalFacts.

(* ===================================================================== *)
(** * Part VI. Further properties of the executor                         *)
(* ===================================================================== *)

Section InputContract.
Context {Node : Type} {HN : NodeLike Node} {HC : Collaborators Node}
        {NN : NeuralNetworkContext} {TF : TfjsCore}.

Implicit Types (this : GraphExecutor Node) (node : Node).

Lemma nil_iff_no_elem {A} (l : list A) : l = [] ↔ ∀ x, x ∉ l.
Proof.
  split; [intros -> x; apply not_elem_of_nil|].
  destruct l as [|x l]; [done|]. intros Hno. destruct (Hno x). by left.
Qed.

(** X1. [checkInput] accepts exactly when the supplied names are the
    declared placeholders: every placeholder is supplied and every
    supplied name is a placeholder. *)
Theorem checkInput_accepts_iff this (inputTensors : NamedTensorsMap) :
  checkInput this inputTensors = Ok () ↔
  ∀ nm, nm ∈ inputNodes this ↔ is_Some (inputTensors !! nm).
Proof.
  unfold checkInput. split.
  - intros Hok nm.
    destruct (missingInputs this inputTensors) as [|m ms] eqn:Hm;
      [|by rewrite bool_decide_eq_true_2 in Hok by (simpl; lia)].
    rewrite bool_decide_eq_false_2 in Hok by (simpl; lia).
    destruct (extraInputs this inputTensors) as [|x xs] eqn:Hx;
      [|by rewrite bool_decide_eq_true_2 in Hok by (simpl; lia)].
    pose proof (proj1 (nil_iff_no_elem _) Hm) as Hm'.
    pose proof (proj1 (nil_iff_no_elem _) Hx) as Hx'. split.
    + intros Hin. destruct (inputTensors !! nm) eqn:Hl; [by eexists|].
      destruct (Hm' nm). by apply missingInputs_spec.
    + intros Hsome. destruct (decide (nm ∈ inputNodes this)); [done|].
      destruct (Hx' nm). by apply extraInputs_spec.
  - intros Hiff.
    assert (missingInputs this inputTensors = []) as ->.
    { apply nil_iff_no_elem. intros nm [Hin Hn]%missingInputs_spec.
      apply Hiff in Hin as [? ?]. congruence. }
    assert (extraInputs this inputTensors = []) as ->.
    { apply nil_iff_no_elem. intros nm [Hs Hn]%extraInputs_spec.
      by apply Hn, Hiff. }
    by rewrite !bool_decide_eq_false_2 by (simpl; lia).
Qed.

(** X2. Whatever [checkInput] throws, [execute] throws, on either backend
    and with the executor left as it was: nothing is compiled or run. The
    error names the missing placeholders, all of them and in declaration
    order; only when none is missing does it name the extra names. *)
Theorem execute_rejects_before_running this inputTensors outs e :
  checkInput this inputTensors = Throw e →
  execute inputTensors outs this = (Throw e, this) ∧
  (e = Error ("Missing input placeholders: "
              +:+ joinNames (missingInputs this inputTensors)) ∧
   missingInputs this inputTensors ≠ []
   ∨
   e = Error ("Extra input tensors: "
              +:+ joinNames (extraInputs this inputTensors)) ∧
   missingInputs this inputTensors = [] ∧
   extraInputs this inputTensors ≠ []).
Proof.
  intros Hcheck. split.
  - unfold execute, bind, getThis, lift. by rewrite Hcheck.
  - destruct (missingInputs this inputTensors) as [|m ms] eqn:Hm.
    + destruct (extraInputs this inputTensors) as [|x xs] eqn:Hx.
      * unfold checkInput in Hcheck. rewrite Hm, Hx in Hcheck.
        by rewrite !bool_decide_eq_false_2 in Hcheck by (simpl; lia).
      * right. rewrite checkInput_extra in Hcheck by (by rewrite ?Hx).
        rewrite Hx in Hcheck. by injection Hcheck as <-.
    + left. rewrite checkInput_missing in Hcheck by (by rewrite Hm).
      rewrite Hm in Hcheck. by injection Hcheck as <-.
Qed.

(** X3. The map built by [findOutputs] has exactly the requested names as
    keys (the declared outputs when no name, or the empty name, is given),
    each bound to what [getTensor] resolves, [undefined] included. *)
Theorem findOutputs_table this env ctx outs nm :
  findOutputs this env ctx outs !! nm =
  if bool_decide (nm ∈ requestedOutputs this outs)
  then Some (getTensor nm env ctx) else None.
Proof.
  unfold findOutputs. rewrite foldl_insert_lookup.
  by rewrite lookup_empty.
Qed.

End InputContract.

Section LifecycleFurther.
Context {Node : Type} {HN : NodeLike Node} {HC : Collaborators Node}
        {NN : NeuralNetworkContext} {TF : TfjsCore}.

Implicit Types (this : GraphExecutor Node).

(** *** [array.map] with a callback that may throw *)

Lemma mapR_Throw_inv {A B} (f : A → Result B) l e :
  mapR f l = Throw e → ∃ x, x ∈ l ∧ f x = Throw e.
Proof.
  induction l as [|x l IH]; simpl; [done|].
  destruct (f x) as [y|e'] eqn:Hx; simpl.
  - destruct (mapR f l) as [ys|e'']; simpl; [done|].
    intros [= <-]. destruct IH as (x' & ? & ?); [done|].
    exists x'. split; [by right|done].
  - intros [= <-]. exists x. split; [by left|done].
Qed.

Lemma mapR_Ok_all {A B} (f : A → Result B) l ys :
  mapR f l = Ok ys → ∀ x, x ∈ l → ∃ y, f x = Ok y.
Proof.
  revert ys. induction l as [|x l IH]; intros ys; simpl.
  - by intros _ x' ?%elem_of_nil.
  - destruct (f x) as [y|] eqn:Hx; simpl; [|done].
    destruct (mapR f l) as [ys0|] eqn:Hl; simpl; [|done].
    intros _ x' [->|Hin]%elem_of_cons; [by exists y|]. by eapply IH.
Qed.

Lemma mapR_total {A B} (f : A → Result B) l :
  (∀ x, x ∈ l → ∃ y, f x = Ok y) → ∃ ys, mapR f l = Ok ys.
Proof.
  induction l as [|x l IH]; intros Hall; simpl; [by eexists|].
  destruct (Hall x) as [y ->]; [by left|]. simpl.
  destruct IH as [ys ->]; [intros; apply Hall; by right|].
  simpl. by eexists.
Qed.

Lemma idOf_Throw t e : idOf t = Throw e → e = TypeError ∧ t = None.
Proof. by destruct t; simpl; [|intros [= <-]]. Qed.

(** The identities of an environment can be collected exactly when no
    entry of it is undefined; otherwise reading [id] throws. *)
Lemma collectIds_outcome (tensors : NamedTensorsMap) :
  match mapR (λ key, mapR idOf (default [] (tensors !! key))) (keys tensors)
  with
  | Ok _ => allDefined tensors
  | Throw e =>
      e = TypeError ∧ ∃ key ts, tensors !! key = Some ts ∧ None ∈ ts
  end.
Proof.
  destruct (mapR _ (keys tensors)) as [ids|e] eqn:Hm.
  - intros key ts Hts Hnone.
    destruct (mapR_Ok_all _ _ _ Hm key) as [ys Hys];
      [apply elem_of_keys; by eexists|].
    rewrite Hts in Hys. simpl in Hys.
    by destruct (mapR_Ok_all _ _ _ Hys None Hnone).
  - apply mapR_Throw_inv in Hm as (key & [ts Hts]%elem_of_keys & Hkey).
    rewrite Hts in Hkey. simpl in Hkey.
    apply mapR_Throw_inv in Hkey as (t & Ht & [-> ->]%idOf_Throw).
    split; [done|]. by exists key, ts.
Qed.

(** X4. The [weightMap] setter either throws a [TypeError], when some
    entry of the map is undefined, and then assigns nothing; or it stores
    the map together with the identities of exactly its tensors and
    changes no other field. *)
Theorem set_weightMap_outcome weightMap this :
  match set_weightMap weightMap this with
  | Ok this' =>
      allDefined weightMap ∧
      _weightMap this' = weightMap ∧
      (∀ i, isWeightId this' i ↔ isInputId weightMap i) ∧
      graph this' = graph this ∧
      compiledOrder this' = compiledOrder this ∧
      inputNodes this' = inputNodes this ∧
      outputNodes this' = outputNodes this ∧
      compiledWebMLModel this' = compiledWebMLModel this ∧
      operandInfos this' = operandInfos this ∧
      model this' = model this ∧
      operandIndex this' = operandIndex this
  | Throw e =>
      e = TypeError ∧ ∃ key ts, weightMap !! key = Some ts ∧ None ∈ ts
  end.
Proof.
  pose proof (collectIds_outcome weightMap) as Hids.
  destruct (set_weightMap weightMap this) as [this'|e] eqn:Hset.
  - pose proof (set_weightMap_spec _ _ _ Hset) as [Hwm Hw].
    unfold set_weightMap in Hset.
    destruct (mapR _ (keys weightMap)) as [ids|]; simpl in Hset; [|done].
    injection Hset as <-. by split_and!.
  - unfold set_weightMap in Hset.
    destruct (mapR _ (keys weightMap)) as [ids|e']; simpl in Hset; [done|].
    by injection Hset as <-.
Qed.

(** *** [dispose] *)

Lemma disposeWeight_Throw e log ts :
  foldl disposeWeight (Throw e, log) ts = (Throw e, log).
Proof. induction ts as [|t ts IH]; simpl; done. Qed.

Lemma disposeWeights_array ts : ∀ log,
  match foldl disposeWeight (Ok (), log) ts with
  | (Ok _, log') =>
      (None ∉ ts) ∧ (∀ x, x ∈ log' ↔ x ∈ log ∨ Some x ∈ ts)
  | (Throw e, log') =>
      e = TypeError ∧ None ∈ ts ∧ ∀ x, x ∈ log' → x ∈ log ∨ Some x ∈ ts
  end.
Proof.
  induction ts as [|t ts IH]; intros log; cbn [foldl].
  - split; [apply not_elem_of_nil|]. intros x. split; [by left|].
    by intros [?|?%elem_of_nil].
  - destruct t as [t|]; simpl.
    + specialize (IH (log ++ [t])).
      destruct (foldl disposeWeight (Ok (), log ++ [t]) ts) as [[u|e] log'].
      * destruct IH as [Hnone Hlog]. split.
        -- by intros [?|?]%elem_of_cons.
        -- intros x. rewrite Hlog, elem_of_app, list_elem_of_singleton,
             elem_of_cons. split.
           ++ intros [[?| ->]|?]; auto.
           ++ intros [?|[[= ->]|?]]; auto.
      * destruct IH as (-> & Hnone & Hlog). split_and!; [done|by right|].
        intros x Hx. apply Hlog in Hx as [Hx|Hx]; [|right; by right].
        apply elem_of_app in Hx as [Hx|Hx]; [by left|].
        apply list_elem_of_singleton in Hx as ->. right. by left.
    + rewrite disposeWeight_Throw. split_and!; [done|by left|by left].
Qed.

Lemma disposeWeights_keys (tensors : NamedTensorsMap) ks : ∀ log,
  match foldl (λ acc key, foldl disposeWeight acc
                            (default [] (tensors !! key)))
              (Ok (), log) ks with
  | (Ok _, log') =>
      (∀ key, key ∈ ks → None ∉ default [] (tensors !! key)) ∧
      ∀ x, x ∈ log' ↔
           x ∈ log ∨ ∃ key, key ∈ ks ∧ Some x ∈ default [] (tensors !! key)
  | (Throw e, log') =>
      e = TypeError ∧
      (∃ key, key ∈ ks ∧ None ∈ default [] (tensors !! key)) ∧
      ∀ x, x ∈ log' →
           x ∈ log ∨ ∃ key, key ∈ ks ∧ Some x ∈ default [] (tensors !! key)
  end.
Proof.
  induction ks as [|k ks IH]; intros log; cbn [foldl].
  - split; [by intros key ?%elem_of_nil|]. intros x. split; [by left|].
    by intros [?|(key & ?%elem_of_nil & _)].
  - pose proof (disposeWeights_array (default [] (tensors !! k)) log) as Hk.
    destruct (foldl disposeWeight (Ok (), log) (default [] (tensors !! k)))
      as [[[]|e] log1].
    + destruct Hk as [Hnone Hlog1]. specialize (IH log1).
      destruct (foldl _ (Ok (), log1) ks) as [[u|e] log'].
      * destruct IH as [Hnones Hlog]. split.
        -- intros key [->|?]%elem_of_cons; [done|by apply Hnones].
        -- intros x. rewrite Hlog, Hlog1. split.
           ++ intros [[?|?]|(key & ? & ?)]; [by left|right..].
              ** exists k. split; [by left|done].
              ** exists key. split; [by right|done].
           ++ intros [?|(key & [->|?]%elem_of_cons & ?)].
              ** left. by left.
              ** left. by right.
              ** right. by exists key.
      * destruct IH as (-> & (key & Hkey & Hnone') & Hlog). split_and!.
        -- done.
        -- exists key. split; [by right|done].
        -- intros x Hx. apply Hlog in Hx as [Hx|(key' & ? & ?)].
           ++ apply Hlog1 in Hx as [?|?]; [by left|right].
              exists k. split; [by left|done].
           ++ right. exists key'. split; [by right|done].
    + destruct Hk as (-> & Hnone & Hlog1).
      assert (foldl (λ acc key, foldl disposeWeight acc
                                  (default [] (tensors !! key)))
                (Throw TypeError, log1) ks = (Throw TypeError, log1)) as ->.
      { clear. induction ks as [|k' ks IH']; cbn [foldl]; [done|].
        by rewrite disposeWeight_Throw. }
      split_and!.
      * done.
      * exists k. split; [by left|done].
      * intros x Hx. apply Hlog1 in Hx as [?|?]; [by left|right].
        exists k. split; [by left|done].
Qed.

(** Whatever [dispose] releases is a tensor of the weight map. *)
Lemma dispose_log this t :
  t ∈ (dispose this).2 → inEnvironment (_weightMap this) t.
Proof.
  unfold dispose. destruct (weightIds this); [|by intros ?%elem_of_nil].
  pose proof (disposeWeights_keys (_weightMap this)
                (keys (_weightMap this)) []) as Hd.
  destruct (foldl _ (Ok (), []) (keys (_weightMap this))) as [[u|e] log];
    simpl; intros Ht.
  - apply Hd in Ht as [?%elem_of_nil|(key & [ts Hts]%elem_of_keys & Ht)];
      [done|].
    rewrite Hts in Ht. by exists key, ts.
  - destruct Hd as (_ & _ & Hlog).
    apply Hlog in Ht as [?%elem_of_nil|(key & [ts Hts]%elem_of_keys & Ht)];
      [done|].
    rewrite Hts in Ht. by exists key, ts.
Qed.

(** X5. [dispose] returns exactly when the weights have been set and no
    entry of the weight map is undefined, and has then disposed the tensors
    of the weight map, all of them and nothing else; otherwise it throws
    a [TypeError], having disposed weight tensors only. *)
Theorem dispose_releases_weights this :
  match dispose this with
  | (Ok _, log) =>
      is_Some (weightIds this) ∧ allDefined (_weightMap this) ∧
      ∀ t, t ∈ log ↔ inEnvironment (_weightMap this) t
  | (Throw e, log) =>
      e = TypeError ∧
      (weightIds this = None ∨ ¬ allDefined (_weightMap this)) ∧
      ∀ t, t ∈ log → inEnvironment (_weightMap this) t
  end.
Proof.
  unfold dispose. destruct (weightIds this) as [wids|] eqn:Hw;
    [|split_and!; [done|by left|by intros t ?%elem_of_nil]].
  pose proof (disposeWeights_keys (_weightMap this)
                (keys (_weightMap this)) []) as Hd.
  destruct (foldl _ (Ok (), []) (keys (_weightMap this))) as [[u|e] log].
  - destruct Hd as [Hnone Hlog]. split_and!; [by eexists| |].
    + intros key ts Hts. specialize (Hnone key). rewrite Hts in Hnone.
      apply Hnone, elem_of_keys. by eexists.
    + intros t. rewrite Hlog. unfold inEnvironment. split.
      * intros [?%elem_of_nil|(key & [ts Hts]%elem_of_keys & Ht)]; [done|].
        rewrite Hts in Ht. by exists key, ts.
      * intros (key & ts & Hts & Ht). right. exists key.
        rewrite elem_of_keys, Hts. split; [by eexists|done].
  - destruct Hd as (-> & (key & [ts Hts]%elem_of_keys & Hnone) & Hlog).
    rewrite Hts in Hnone. split_and!; [done| |].
    + right. intros Hall. by apply (Hall key ts).
    + intros t Ht. apply Hlog in Ht
        as [?%elem_of_nil|(key' & [ts' Hts']%elem_of_keys & Ht)]; [done|].
      rewrite Hts' in Ht. by exists key', ts'.
Qed.

(** *** The disposal loop of [executeAsync] *)

(** With the weight identities set, the loop cannot throw. *)
Lemma disposeTensor_set o i wids log t :
  ∃ log1, disposeTensor o i (Some wids) (Ok (), log) t = (Ok (), log1).
Proof.
  unfold disposeTensor. destruct t as [t|]; [|by eexists].
  destruct (_ && _); [|by eexists]. destruct (bool_decide _); by eexists.
Qed.

Lemma disposeArray_set o i wids ts : ∀ log,
  ∃ log', foldl (disposeTensor o i (Some wids)) (Ok (), log) ts
          = (Ok (), log').
Proof.
  induction ts as [|t ts IH]; intros log; cbn [foldl]; [by eexists|].
  destruct (disposeTensor_set o i wids log t) as [log1 ->]. apply IH.
Qed.

Lemma disposeIntermediates_set o i wids (tensors : NamedTensorsMap) :
  ∃ log, disposeIntermediates o i (Some wids) tensors = (Ok (), log).
Proof.
  unfold disposeIntermediates. generalize (@nil Tensor) as log.
  induction (keys tensors) as [|k ks IH]; intros log; cbn [foldl];
    [by eexists|].
  destruct (disposeArray_set o i wids (default [] (tensors !! k)) log)
    as [log1 ->].
  apply IH.
Qed.

(** Without them, the first tensor that is neither an output nor an input
    makes [this.weightIds.indexOf] throw, before anything is disposed. *)
Lemma disposeTensor_unset o i acc t :
  (disposeTensor o i None acc t).2 = acc.2 ∧
  match (disposeTensor o i None acc t).1 with
  | Ok _ => (∃ u, acc.1 = Ok u) ∧ ∀ x, t = Some x → id x ∈ o ∨ id x ∈ i
  | Throw e => acc.1 = Throw e ∨ e = TypeError
  end.
Proof.
  destruct acc as [[u|e] log]; simpl; [|by split; [|left]].
  destruct t as [t|]; simpl; [|split; [done|split; [by eexists|done]]].
  destruct (decide (id t ∈ o)) as [Ho|Ho].
  - rewrite (bool_decide_eq_false_2 (id t ∉ o)) by auto. simpl.
    split; [done|]. split; [by eexists|]. intros x [= <-]. by left.
  - rewrite (bool_decide_eq_true_2 (id t ∉ o)) by done. simpl.
    destruct (decide (id t ∈ i)) as [Hi|Hi].
    + rewrite (bool_decide_eq_false_2 (id t ∉ i)) by auto. simpl.
      split; [done|]. split; [by eexists|]. intros x [= <-]. by right.
    + rewrite (bool_decide_eq_true_2 (id t ∉ i)) by done. simpl.
      split; [done|by right].
Qed.

Lemma disposeArray_unset o i ts : ∀ acc,
  (foldl (disposeTensor o i None) acc ts).2 = acc.2 ∧
  match (foldl (disposeTensor o i None) acc ts).1 with
  | Ok _ => (∃ u, acc.1 = Ok u) ∧ ∀ x, Some x ∈ ts → id x ∈ o ∨ id x ∈ i
  | Throw e => acc.1 = Throw e ∨ e = TypeError
  end.
Proof.
  induction ts as [|t ts IH]; intros acc; cbn [foldl].
  - split; [done|]. destruct acc.1 as [u|e]; [|by left].
    split; [by eexists|]. by intros x ?%elem_of_nil.
  - destruct (IH (disposeTensor o i None acc t)) as [Hlog Hres].
    destruct (disposeTensor_unset o i acc t) as [Hlog1 Hres1].
    split; [congruence|].
    destruct (foldl _ (disposeTensor o i None acc t) ts).1 as [u|e].
    + destruct Hres as [[u1 Hu1] Hts]. rewrite Hu1 in Hres1.
      destruct Hres1 as [Hacc Ht]. split; [done|].
      intros x [[= <-]|?]%elem_of_cons; [by apply Ht|by apply Hts].
    + destruct Hres as [Hres| ->]; [|by right].
      rewrite Hres in Hres1. done.
Qed.

Lemma disposeKeys_unset o i (tensors : NamedTensorsMap) ks : ∀ acc,
  let r := foldl (λ acc key, foldl (disposeTensor o i None) acc
                               (default [] (tensors !! key))) acc ks in
  r.2 = acc.2 ∧
  match r.1 with
  | Ok _ =>
      (∃ u, acc.1 = Ok u) ∧
      ∀ key x, key ∈ ks → Some x ∈ default [] (tensors !! key) →
               id x ∈ o ∨ id x ∈ i
  | Throw e => acc.1 = Throw e ∨ e = TypeError
  end.
Proof.
  induction ks as [|k ks IH]; intros acc; cbn [foldl]; cbv zeta.
  - split; [done|]. destruct acc.1 as [u|e]; [|by left].
    split; [by eexists|]. by intros key x ?%elem_of_nil.
  - destruct (IH (foldl (disposeTensor o i None) acc
                    (default [] (tensors !! k)))) as [Hlog Hres].
    cbv zeta in Hlog, Hres.
    destruct (disposeArray_unset o i (default [] (tensors !! k)) acc)
      as [Hlog1 Hres1].
    split; [congruence|].
    destruct (foldl _ (foldl (disposeTensor o i None) acc
                         (default [] (tensors !! k))) ks).1 as [u|e].
    + destruct Hres as [[u1 Hu1] Hts]. rewrite Hu1 in Hres1.
      destruct Hres1 as [Hacc Ht]. split; [done|].
      intros key x [->|?]%elem_of_cons; [by apply Ht|by apply Hts].
    + destruct Hres as [Hres| ->]; [|by right].
      rewrite Hres in Hres1. done.
Qed.

Lemma disposeIntermediates_unset o i (tensors : NamedTensorsMap) :
  (disposeIntermediates o i None tensors).2 = [] ∧
  match (disposeIntermediates o i None tensors).1 with
  | Ok _ => ∀ x, inEnvironment tensors x → id x ∈ o ∨ id x ∈ i
  | Throw e => e = TypeError
  end.
Proof.
  destruct (disposeKeys_unset o i tensors (keys tensors) (Ok (), []))
    as [Hlog Hres].
  cbv zeta in Hlog, Hres. unfold disposeIntermediates. split; [done|].
  destruct (foldl _ (Ok (), []) (keys tensors)).1 as [u|e].
  - destruct Hres as [_ Hall]. intros x (key & ts & Hts & Hx).
    apply (Hall key x); [apply elem_of_keys; by eexists|by rewrite Hts].
  - by destruct Hres as [?| ->].
Qed.

(** The identities of the returned outputs can be collected exactly when
    every requested name resolves. *)
Lemma outputIds_outcome this env ctx outs :
  match mapR (λ key, idOf (default None (findOutputs this env ctx outs
                                           !! key)))
             (keys (findOutputs this env ctx outs)) with
  | Ok _ => ∀ nm, nm ∈ requestedOutputs this outs →
                  getTensor nm env ctx ≠ None
  | Throw e =>
      e = TypeError ∧
      ∃ nm, nm ∈ requestedOutputs this outs ∧ getTensor nm env ctx = None
  end.
Proof.
  destruct (mapR _ (keys _)) as [ids|e] eqn:Hm.
  - intros nm Hnm Hnone.
    pose proof (findOutputs_lookup this env ctx outs nm Hnm) as Hl.
    destruct (mapR_Ok_all _ _ _ Hm nm) as [y Hy];
      [apply elem_of_keys; by eexists|].
    rewrite Hl, Hnone in Hy. done.
  - apply mapR_Throw_inv in Hm as (nm & [v Hv]%elem_of_keys & Hid).
    rewrite Hv in Hid. simpl in Hid. apply idOf_Throw in Hid as [-> ->].
    split; [done|]. exists nm.
    unfold findOutputs in Hv. rewrite foldl_insert_lookup in Hv.
    destruct (decide (nm ∈ requestedOutputs this outs)) as [Hin|Hnin].
    + rewrite bool_decide_eq_true_2 in Hv by done. split; congruence.
    + rewrite bool_decide_eq_false_2 in Hv by done.
      by rewrite lookup_empty in Hv.
Qed.

(** X6. Every way [executeAsync] can end.  An exception of the scheduler
    is passed on.  Otherwise the call returns the map built by
    [findOutputs] exactly when every requested name resolves to a tensor,
    no supplied input entry is undefined and the weights have been set or
    are not needed; in every other case it throws a [TypeError].  Nothing
    is disposed unless the call returns. *)
Theorem executeAsync_outcome fuel this inputTensors outs :
  let out := executeAsync fuel this inputTensors outs in
  match (executeWithControlFlow fuel (graph this) (_weightMap this)
           inputTensors (newExecutionContext (_weightMap this))).1 with
  | None => returned out = None ∧ disposed out = []
  | Some (Throw e) => returned out = Some (Throw e) ∧ disposed out = []
  | Some (Ok st) =>
      let resolved :=
        (∀ nm, nm ∈ requestedOutputs this outs →
               getTensor nm (tensorMap st) (context st) ≠ None) ∧
        allDefined inputTensors in
      match returned out with
      | Some (Ok results) =>
          results = findOutputs this (tensorMap st) (context st) outs ∧
          resolved
      | Some (Throw e) =>
          e = TypeError ∧ disposed out = [] ∧
          (weightIds this = None ∨ ¬ resolved)
      | None => False
      end
  end.
Proof.
  cbv zeta. unfold executeAsync.
  destruct (executeWithControlFlow _ _ _ _ _) as [[[st|e]|] evs]; simpl;
    [|done|done].
  pose proof (outputIds_outcome this (tensorMap st) (context st) outs) as Ho.
  pose proof (collectIds_outcome inputTensors) as Hi.
  destruct (mapR _ (keys (findOutputs _ _ _ _))) as [outputIds|e1]; simpl.
  - destruct (mapR _ (keys inputTensors)) as [inputIdArray|e2]; simpl.
    + destruct (weightIds this) as [wids|].
      * destruct (disposeIntermediates_set outputIds (mjoin inputIdArray)
                    wids (tensorMap st)) as [log ->].
        simpl. done.
      * pose proof (disposeIntermediates_unset outputIds
                      (mjoin inputIdArray) (tensorMap st)) as [Hlog Hres].
        destruct (disposeIntermediates _ _ None _) as [[u|e3] log];
          simpl in *; [done|].
        subst. split_and!; [done..|by left].
    + destruct Hi as (-> & key & ts & Hts & Hnone).
      split_and!; [done..|]. right. intros [_ Hall]. by apply (Hall key ts).
  - destruct Ho as (-> & nm & Hnm & Hnone).
    split_and!; [done..|]. right. intros [Hall _]. by apply (Hall nm).
Qed.

(** X7. Before the weights are set [executeAsync] disposes nothing, and it
    can only return when every tensor of the final environment is a
    returned output or a supplied input: any other tensor makes the test
    against the weight identities throw. *)
Theorem executeAsync_without_weights fuel this inputTensors outs :
  weightIds this = None →
  disposed (executeAsync fuel this inputTensors outs) = [] ∧
  ∀ results st,
    returned (executeAsync fuel this inputTensors outs)
      = Some (Ok results) →
    (executeWithControlFlow fuel (graph this) (_weightMap this)
       inputTensors (newExecutionContext (_weightMap this))).1
      = Some (Ok st) →
    ∀ t, inEnvironment (tensorMap st) t →
         isOutputId results (id t) ∨ isInputId inputTensors (id t).
Proof.
  intros Hw. unfold executeAsync. rewrite Hw.
  destruct (executeWithControlFlow _ _ _ _ _) as [[[st|e]|] evs]; simpl;
    [|done|done].
  destruct (mapR _ (keys (findOutputs _ _ _ _))) as [outputIds|e1] eqn:Ho;
    simpl; [|done].
  destruct (mapR _ (keys inputTensors)) as [inputIdArray|e2] eqn:Hi;
    simpl; [|done].
  pose proof (disposeIntermediates_unset outputIds
                (mjoin inputIdArray) (tensorMap st)) as [Hlog Hres].
  destruct (disposeIntermediates _ _ None _) as [[u|e3] log];
    simpl in *; subst; [|done].
  split; [done|]. intros results st' [= <-] [= <-] t Ht.
  destruct (Hres t Ht) as [Hin|Hin]; [left|right].
  - by apply (outputIds_spec _ _ Ho).
  - by apply (inputIds_spec _ _ Hi).
Qed.

(** X8. The setter, [executeAsync] and [dispose] together: once the
    weights have been assigned, no tensor that [executeAsync] disposes has
    the identity of a tensor that [dispose] releases, so that the weights
    survive every inference and are released once. *)
Theorem executeAsync_spares_weights fuel this0 this weightMap
    inputTensors outs :
  set_weightMap weightMap this0 = Ok this →
  ∀ t w, t ∈ disposed (executeAsync fuel this inputTensors outs) →
         w ∈ (dispose this).2 → id t ≠ id w.
Proof.
  intros Hset t w Ht Hw Heq.
  destruct (set_weightMap_spec _ _ _ Hset) as [Hwm Hids].
  assert (inEnvironment weightMap w) as Hweight
    by (rewrite <- Hwm; by apply dispose_log).
  assert (isWeightId this (id t)) as (wids & Hwids & Hin).
  { apply Hids. exists w. by split. }
  revert Ht. unfold executeAsync. rewrite Hwids.
  destruct (executeWithControlFlow _ _ _ _ _) as [[[st|e]|] evs]; simpl;
    [|by intros ?%elem_of_nil..].
  destruct (mapR _ (keys (findOutputs _ _ _ _))) as [outputIds|e1];
    simpl; [|by intros ?%elem_of_nil].
  destruct (mapR _ (keys inputTensors)) as [inputIdArray|e2];
    simpl; [|by intros ?%elem_of_nil].
  destruct (disposeIntermediates_set outputIds (mjoin inputIdArray)
              wids (tensorMap st)) as [log Hlog].
  rewrite Hlog. simpl. intros Ht.
  apply (disposeIntermediates_Ok _ _ _ _ _ Hlog) in Ht as [_ Hne].
  apply Hne. right. right. by exists wids.
Qed.

End LifecycleFurther.

Section SchedulerFurther.
Context {Node : Type} {HN : NodeLike Node} {HC : Collaborators Node}.

Lemma scheduleChildren_events tm ctx cs : ∀ x e,
  e ∈ x.2 → e ∈ (foldl (scheduleChild tm ctx) x cs).2.
Proof.
  induction cs as [|c cs IH]; intros x e He; cbn [foldl]; [done|].
  apply IH. destruct x as [[a s] evs]. unfold scheduleChild.
  destruct (bool_decide _); [done|].
  destruct (inputsReady tm ctx c); [|done].
  simpl in *. apply elem_of_app. by left.
Qed.

Lemma schedStep_fromRun init item rest st st' evs :
  schedStep item rest st = (Ok st', evs) →
  fromRun init (events st) (tensorMap st) →
  fromRun init (events st') (tensorMap st').
Proof.
  unfold schedStep.
  destruct (executeOp _ _ _) as [[ts|e] ctx] eqn:Hop; [|done].
  pose proof (scheduleChildren_events
                (<[(getNodeNameAndIndex (name (node item)) (Some ctx)).1
                   := ts]> (tensorMap st)) ctx (children (node item))
                (added st, rest, events st ++ [Executed (node item)]))
    as Hevs.
  destruct (foldl _ _ _) as [[a1 s1] e1]. simpl in Hevs.
  intros [= <- _] Hinv key. simpl.
  destruct (decide ((getNodeNameAndIndex (name (node item)) (Some ctx)).1
                    = key)) as [<-|Hne].
  - rewrite lookup_insert_eq. right.
    eexists (node item), _, _, ctx. split_and!; [|exact Hop|done].
    apply Hevs, elem_of_app. right. by left.
  - rewrite lookup_insert_ne by done. specialize (Hinv key).
    destruct (tensorMap st !! key) as [ts'|]; [|done].
    destruct Hinv as [?|(n & env0 & ctx0 & ctx1 & Hn & ? & ?)]; [by left|].
    right. exists n, env0, ctx0, ctx1. split_and!; [|done..].
    apply Hevs, elem_of_app. by left.
Qed.

Lemma schedLoop_fromRun init fuel : ∀ st st',
  (schedLoop fuel st).1 = Some (Ok st') →
  fromRun init (events st) (tensorMap st) →
  stack st' = [] ∧ (schedLoop fuel st).2 = events st' ∧
  fromRun init (events st') (tensorMap st').
Proof.
  induction fuel as [|fuel IH]; intros st st'; simpl;
    destruct (stack st) as [|item rest] eqn:Hst; simpl;
    try (by intros [= <-]).
  destruct (schedStep item rest st) as [[st1|e] evs] eqn:Hstep; [|done].
  intros Hrun Hinv. apply IH; [done|].
  by eapply schedStep_fromRun.
Qed.

(** X9. When the dynamic scheduler returns, its stack is empty and every
    entry of the environment it returns is either an entry of the initial
    environment (the inputs over the weights) that was never overwritten,
    or the result of a recorded call of [executeOp], stored under the name
    of the node; no entry of the initial environment has been removed. *)
Theorem scheduler_environment fuel (g : Graph Node)
    weightMap inputTensors ctx st :
  (executeWithControlFlow fuel g weightMap inputTensors ctx).1
    = Some (Ok st) →
  stack st = [] ∧
  (executeWithControlFlow fuel g weightMap inputTensors ctx).2
    = events st ∧
  fromRun (inputTensors ∪ weightMap) (events st) (tensorMap st) ∧
  ∀ key, is_Some ((inputTensors ∪ weightMap) !! key) →
         is_Some (tensorMap st !! key).
Proof.
  unfold executeWithControlFlow. intros Hrun.
  destruct (schedLoop_fromRun (inputTensors ∪ weightMap) fuel _ _ Hrun)
    as (Hstack & Hevs & Hinv).
  { intros key. simpl.
    destruct ((inputTensors ∪ weightMap) !! key); [by left|done]. }
  split_and!; [done..|].
  intros key [ts Hts]. specialize (Hinv key).
  destruct (tensorMap st !! key); [by eexists|congruence].
Qed.

(** X10. An exception of the dynamic scheduler is the exception of a call
    of [executeOp], and that call is the last event of the trace: no
    child is scheduled and no other node executed after it. *)
Theorem scheduler_exception_origin fuel (g : Graph Node)
    weightMap inputTensors ctx e :
  (executeWithControlFlow fuel g weightMap inputTensors ctx).1
    = Some (Throw e) →
  ∃ n env0 ctx0,
    last (executeWithControlFlow fuel g weightMap inputTensors ctx).2
      = Some (Executed n) ∧
    (executeOp n env0 ctx0).1 = Throw e.
Proof.
  unfold executeWithControlFlow.
  generalize (schedInit g weightMap inputTensors ctx) as st.
  induction fuel as [|fuel IH]; intros st; simpl;
    destruct (stack st) as [|item rest] eqn:Hst; simpl; try done.
  destruct (schedStep item rest st) as [[st1|e1] evs] eqn:Hstep.
  - apply IH.
  - simpl. intros [= ->]. unfold schedStep in Hstep.
    destruct (executeOp _ _ _) as [[ts|e2] ctx1] eqn:Hop.
    + by destruct (foldl _ _ _) as [[a1 s1] e1].
    + injection Hstep as -> <-. eexists (node item), _, _.
      split; [apply last_snoc|]. by rewrite Hop.
Qed.

End SchedulerFurther.

Section CompileFurther.
Context {Node : Type} {HN : NodeLike Node} {HC : Collaborators Node}.

Lemma onceInv_step g node rest visited order :
  wellLinked g →
  compileInv (node :: rest) visited order →
  coverInv g (node :: rest) visited order →
  onceInv (node :: rest) visited order →
  onceInv (pushReadyChildren ({[name node]} ∪ visited) (children node) rest)
          ({[name node]} ∪ visited) (order ++ [node]).
Proof.
  intros Hg [Hvis Hstack _] [Hreach _ _ _] [Hnd Hfresh Hord].
  assert (name node ∉ visited) as Hnode by (apply Hfresh; by left).
  assert (reachable g node) as Hrnode by (apply Hreach; by left).
  rewrite fmap_cons in Hnd. apply NoDup_cons in Hnd as [Hhead Hrest].
  split.
  - rewrite pushReadyChildren_filter, fmap_app, fmap_reverse.
    apply NoDup_app. split_and!; [| |done].
    + rewrite reverse_Permutation. apply NoDup_fmap_2_strong.
      * intros a b [_ Ha]%list_elem_of_filter [_ Hb]%list_elem_of_filter.
        apply (linked_names g Hg); by eapply reachable_child.
      * by apply NoDup_filter, (linked_children g Hg).
    + intros nm Hnm Hin. rewrite elem_of_reverse in Hnm.
      apply list_elem_of_fmap in Hnm as (c & -> & [_ Hc]%list_elem_of_filter).
      apply list_elem_of_fmap in Hin as (s & Heq & Hs).
      assert (c = s) as ->.
      { apply (linked_names g Hg); [by eapply reachable_child| |done].
        apply Hreach. by right. }
      destruct (child_lists_parent g (linked_consistent g Hg) node s
                  Hrnode Hc) as (inp & Hinp & Hres).
      apply Hnode. rewrite <- Hres. apply (Hstack s inp); [by right|done].
  - intros n [[_ Hready]|Hin]%elem_of_pushReadyChildren.
    + by apply childReady_unvisited.
    + intros [Heq%elem_of_singleton|Hv]%elem_of_union.
      * apply Hhead. rewrite <- Heq. apply list_elem_of_fmap. by exists n.
      * apply (Hfresh n); [by right|done].
  - rewrite fmap_app. apply NoDup_app. split_and!; [done| |].
    + intros nm Hnm ->%list_elem_of_singleton.
      apply list_elem_of_fmap in Hnm as (m & Heq & Hm).
      apply Hnode, Hvis. by exists m.
    + apply NoDup_singleton.
Qed.

(** X11. On a consistently linked graph whose nodes are told apart by
    their names, [compile] emits every node that can be reached from the
    inputs exactly once, and nothing else. *)
Theorem compile_each_node_once (g : Graph Node) fuel order :
  wellLinked g →
  withControlFlow g = false →
  compile fuel g = Some order →
  NoDup (name <$> order) ∧ ∀ n, n ∈ order ↔ reachable g n.
Proof.
  intros Hg Hcf. unfold compile. rewrite Hcf. intros Hrun.
  destruct (compileLoop_invariant
              (λ st v o, compileInv st v o ∧ coverInv g st v o
                         ∧ onceInv st v o))
    with (fuel := fuel) (stack := reverse (inputs g))
         (visited := (∅ : gset string)) (order := @nil Node)
         (result := order) as (visited & Hinv & Hcov & Honce).
  - intros node rest v o (? & ? & ?). split_and!.
    + by apply compileInv_step.
    + by apply coverInv_step.
    + by apply (onceInv_step g).
  - split_and!; split.
    + intros s. split; [set_solver|]. intros (m & Hm & _).
      by apply elem_of_nil in Hm.
    + intros n inp Hn Hinp. rewrite elem_of_reverse in Hn.
      rewrite (linked_sources g Hg n Hn) in Hinp.
      by apply elem_of_nil in Hinp.
    + intros i n inp Hi. by rewrite lookup_nil in Hi.
    + intros n Hn. rewrite elem_of_reverse in Hn. by apply reachable_input.
    + by intros n ?%elem_of_nil.
    + intros n Hn. left. by rewrite elem_of_reverse.
    + intros _ c Hc _ Hsome Hall. exfalso.
      destruct (inputNames c) as [|i0 ins] eqn:Hins; [done|].
      apply (not_elem_of_empty (C := gset string)
               (getNodeNameAndIndex i0 None).1).
      apply Hall. by left.
    + rewrite fmap_reverse, reverse_Permutation.
      apply NoDup_fmap_2_strong; [|apply (linked_inputs g Hg)].
      intros a b Ha Hb. apply (linked_names g Hg); by apply reachable_input.
    + intros n _. apply not_elem_of_empty.
    + apply NoDup_nil_2.
  - done.
  - split; [apply Honce|]. intros n. split; [apply Hcov|]. intros Hn.
    pose proof (coverInv_complete g visited order
                  (linked_consistent g Hg) Hcov n Hn) as Hv.
    apply (inv_visited _ _ _ Hinv) in Hv as (m & Hm & Heq).
    assert (m = n) as <-; [|done].
    apply (linked_names g Hg); [by apply (cov_order _ _ _ _ Hcov)|done..].
Qed.

End CompileFurther.

Section InterpretedFurther.
Context {Node : Type} {HN : NodeLike Node} {HC : Collaborators Node}
        {NN : NeuralNetworkContext} {TF : TfjsCore}.

Implicit Types (this : GraphExecutor Node) (node : Node).

Lemma executeNodes_app pre post : ∀ env ctx,
  executeNodes env ctx (pre ++ post) =
  rbind (executeNodes env ctx pre) (λ ec, executeNodes ec.1 ec.2 post).
Proof.
  induction pre as [|n pre IH]; intros env ctx; simpl; [done|].
  destruct (executeOp n env ctx) as [[ts|e] ctx1]; [apply IH|done].
Qed.

(** X12. On the interpreted path an exception of [executeOp] ends the
    call: when the nodes before [node] in the compiled order have run and
    [executeOp] throws on [node], [execute] throws that exception, no
    later node is executed and the executor is left as it was. *)
Theorem execute_operator_failure this inputTensors outs
    pre node post env ctx e :
  getBackend = "webgl" →
  checkInput this inputTensors = Ok () →
  compiledOrder this = pre ++ node :: post →
  executeNodes (inputTensors ∪ _weightMap this)
    (newExecutionContext (_weightMap this)) pre = Ok (env, ctx) →
  (executeOp node env ctx).1 = Throw e →
  execute inputTensors outs this = (Throw e, this).
Proof.
  intros Hbackend Hcheck Horder Hpre Hop.
  unfold execute, bind, getThis, lift. rewrite Hcheck, Hbackend. simpl.
  rewrite Horder, executeNodes_app, Hpre. simpl.
  destruct (executeOp node env ctx) as [[ts|e'] ctx1]; simpl in Hop; [done|].
  by injection Hop as ->.
Qed.

(** X13. A graph with control flow is never compiled, so that [execute]
    on the interpreted path runs no node of it: the outputs are resolved
    in the environment made of the inputs and the weights alone, whatever
    the graph computes. *)
Theorem execute_control_flow_runs_nothing fuel (g : Graph Node)
    this0 this weightMap inputTensors outs :
  newGraphExecutor fuel g = Some this0 →
  isControlFlowModel this0 = true →
  set_weightMap weightMap this0 = Ok this →
  getBackend = "webgl" →
  checkInput this inputTensors = Ok () →
  execute inputTensors outs this =
    (Ok (findOutputs this (inputTensors ∪ weightMap)
           (newExecutionContext weightMap) outs), this).
Proof.
  intros Hnew Hcf Hset Hbackend Hcheck.
  unfold newGraphExecutor, compile in Hnew.
  destruct (withControlFlow g) eqn:Hg.
  - simpl in Hnew. injection Hnew as <-.
    unfold set_weightMap in Hset.
    destruct (mapR _ (keys weightMap)) as [ids|]; simpl in Hset; [|done].
    injection Hset as <-.
    unfold execute, bind, getThis, lift. rewrite Hcheck, Hbackend. done.
  - destruct (compileLoop _ _ _ _) as [order|]; simpl in Hnew; [|done].
    injection Hnew as <-. unfold isControlFlowModel in Hcf. simpl in Hcf.
    congruence.
Qed.

(** X16. [compile] and the interpreted run together: when [executeOp]
    is called on a node of the compiled order, each of its declared inputs
    names an entry of the environment, stored by the run of an earlier
    node.  This is what the order is computed for. *)
Theorem inputs_available_when_executed fuel (g : Graph Node)
    pre node post env0 ctx0 env ctx inp :
  withControlFlow g = false →
  (∀ n, n ∈ inputs g → inputNames n = []) →
  compile fuel g = Some (pre ++ node :: post) →
  executeNodes env0 ctx0 pre = Ok (env, ctx) →
  inp ∈ inputNames node →
  ∃ m ts, m ∈ pre ∧ name m = (getNodeNameAndIndex inp None).1 ∧
          env !! name m = Some ts.
Proof.
  intros Hcf Hsrc Hrun Hpre Hinp. unfold compile in Hrun.
  rewrite Hcf in Hrun.
  assert (topological (pre ++ node :: post)) as Htopo.
  { eapply compileLoop_topological; [|exact Hrun]. split.
    - intros s. split; [set_solver|]. intros (m & Hm & _).
      by apply elem_of_nil in Hm.
    - intros n i Hn Hi. rewrite elem_of_reverse in Hn.
      rewrite (Hsrc n Hn) in Hi. by apply elem_of_nil in Hi.
    - intros i n i0 Hi. by rewrite lookup_nil in Hi. }
  destruct (Htopo (length pre) node inp) as (j & m & Hj & Hm & Hname);
    [by rewrite list_lookup_middle|done|].
  rewrite lookup_app_l in Hm by done.
  apply list_elem_of_lookup_2 in Hm.
  destruct (executeNodes_entries _ _ _ _ _ Hpre (name m))
    as [(m' & _ & _ & ts & _ & _ & _ & Hl)|[Hnone _]].
  - by exists m, ts.
  - by destruct (Hnone m Hm).
Qed.

End InterpretedFurther.

Section AcceleratedFurther.
Context {Node : Type} {HN : NodeLike Node} {HC : Collaborators Node}
        {NN : NeuralNetworkContext} {TF : TfjsCore}.

Implicit Types (this : GraphExecutor Node) (node : Node).

(** *** The compiled flag *)

Lemma keepsFlag_bind {A B} (m : M Node A) (k : A → M Node B) :
  keepsFlag Node m → (∀ a, keepsFlag Node (k a)) → keepsFlag Node (bind m k).
Proof.
  intros Hm Hk this. unfold bind. specialize (Hm this).
  destruct (m this) as [[a|e] this1]; simpl in *; [|done].
  specialize (Hk a this1). destruct Hm, Hk. split; [congruence|lia].
Qed.

Lemma keepsFlag_ret {A} (a : A) : keepsFlag Node (ret a).
Proof. by intros this. Qed.
Lemma keepsFlag_throw {A} e : keepsFlag Node (throw e : M Node A).
Proof. by intros this. Qed.
Lemma keepsFlag_lift {A} (r : Result A) : keepsFlag Node (lift r).
Proof. by intros this. Qed.
Lemma keepsFlag_orTypeError {A} (o : option A) :
  keepsFlag Node (orTypeError o).
Proof. destruct o; by intros this. Qed.
Lemma keepsFlag_getThis : keepsFlag Node getThis.
Proof. by intros this. Qed.
Lemma keepsFlag_nextOperandIndex : keepsFlag Node nextOperandIndex.
Proof. intros this. simpl. split; [done|lia]. Qed.
Lemma keepsFlag_setOperandInfo key info :
  keepsFlag Node (setOperandInfo key info).
Proof. by intros this. Qed.
Lemma keepsFlag_call c : keepsFlag Node (call c).
Proof. by intros this. Qed.
Lemma keepsFlag_createModel : keepsFlag Node createModel.
Proof. by intros this. Qed.

Create HintDb flag.
#[local] Hint Resolve keepsFlag_ret keepsFlag_throw keepsFlag_lift
  keepsFlag_orTypeError keepsFlag_getThis keepsFlag_nextOperandIndex
  keepsFlag_setOperandInfo keepsFlag_call keepsFlag_createModel : flag.

Ltac flag_tac :=
  repeat first
    [ solve [auto with flag]
    | apply keepsFlag_bind; [|intros ?]
    | match goal with
      | |- keepsFlag _ (if ?b then _ else _) => destruct b
      | |- keepsFlag _ (match ?x with _ => _ end) => destruct x
      end ].

Lemma keepsFlag_operandInfoOf key : keepsFlag Node (operandInfoOf key).
Proof. unfold operandInfoOf. flag_tac. Qed.
Lemma keepsFlag_addScalarInt32 v : keepsFlag Node (addScalarInt32 v).
Proof. unfold addScalarInt32. flag_tac. Qed.
Lemma keepsFlag_addScalarFloat32 v : keepsFlag Node (addScalarFloat32 v).
Proof. unfold addScalarFloat32. flag_tac. Qed.
#[local] Hint Resolve keepsFlag_operandInfoOf keepsFlag_addScalarInt32
  keepsFlag_addScalarFloat32 : flag.

Lemma keepsFlag_addPadding pad : keepsFlag Node (addPadding pad).
Proof. unfold addPadding. flag_tac. Qed.
Lemma keepsFlag_opOf c : keepsFlag Node (opOf c).
Proof. unfold opOf. flag_tac. Qed.
#[local] Hint Resolve keepsFlag_addPadding keepsFlag_opOf : flag.

Lemma keepsFlag_compileNode env ctx visited node :
  keepsFlag Node (compileNode env ctx visited node).
Proof.
  unfold compileNode, compileBranch, compilePlaceholder, compileConst,
    compileConv, compileAvgPool, compileSqueeze, compileSoftmax.
  flag_tac.
Qed.
#[local] Hint Resolve keepsFlag_compileNode : flag.

Lemma keepsFlag_compileNodes env ctx nodes : ∀ visited,
  keepsFlag Node (compileNodes env ctx visited nodes).
Proof.
  induction nodes as [|n nodes IH]; intros visited; simpl; flag_tac.
Qed.
#[local] Hint Resolve keepsFlag_compileNodes : flag.

Lemma keepsFlag_executeWebMLModel inputTensors :
  keepsFlag Node (executeWebMLModel inputTensors).
Proof. unfold executeWebMLModel. flag_tac. Qed.

Lemma flagTracks_bind {A B} (m : M Node A) (k : A → M Node B) this :
  keepsFlag Node m →
  compiledWebMLModel this = false →
  (∀ a this1, compiledWebMLModel this1 = false →
              flagTracks Node (k a this1)) →
  flagTracks Node (bind m k this).
Proof.
  intros Hm Hflag Hk. unfold bind. destruct (Hm this) as [Hkeep _].
  destruct (m this) as [[a|e] this1]; simpl in *.
  - apply Hk. congruence.
  - congruence.
Qed.

(** The flag is set exactly by a compilation that returns. *)
Lemma compileWebMLModel_flag inputTensors this :
  flagTracks Node (compileWebMLModel inputTensors this).
Proof.
  unfold compileWebMLModel. unfold bind at 1, getThis at 1.
  destruct (compiledWebMLModel this) eqn:Hflag; [done|].
  repeat (apply flagTracks_bind; [by flag_tac|done|intros ? ? ?]).
  done.
Qed.

Lemma compileWebMLModel_again inputTensors this :
  compiledWebMLModel this = true →
  compileWebMLModel inputTensors this = (Ok (), this).
Proof.
  intros Hflag. unfold compileWebMLModel, bind, getThis.
  by rewrite Hflag.
Qed.

(** X14. The accelerated model is compiled once.  When [execute] returns
    on a backend other than 'webgl', the compiled flag is set, and every
    later call whose inputs pass the check only runs the compiled model:
    nothing is compiled again, whatever the new input tensors are. *)
Theorem execute_compiles_once this inputTensors outs results :
  getBackend ≠ "webgl" →
  (execute inputTensors outs this).1 = Ok results →
  let this' := (execute inputTensors outs this).2 in
  compiledWebMLModel this' = true ∧
  ∀ inputs' outs',
    checkInput this' inputs' = Ok () →
    execute inputs' outs' this' = executeWebMLModel inputs' this'.
Proof.
  intros Hbackend%String.eqb_neq Hrun. cbv zeta.
  assert (compiledWebMLModel (execute inputTensors outs this).2 = true)
    as Hflag.
  { destruct (execute inputTensors outs this) as [r this'] eqn:Hexec.
    simpl in *. subst r. unfold execute in Hexec. rewrite Hbackend in Hexec.
    apply bind_Ok_inv in Hexec as (this0 & t0 & [= <- <-] & Hexec).
    apply bind_Ok_inv in Hexec as (u & t1 & Hcheck & Hexec).
    unfold lift in Hcheck. injection Hcheck as _ <-.
    apply bind_Ok_inv in Hexec as (u1 & t2 & Hcompile & Hexec).
    pose proof (compileWebMLModel_flag inputTensors this) as Hc.
    rewrite Hcompile in Hc. simpl in Hc.
    destruct (keepsFlag_executeWebMLModel inputTensors t2) as [Hk _].
    rewrite Hexec in Hk. simpl in Hk. congruence. }
  split; [done|]. intros inputs' outs' Hcheck.
  unfold execute at 1. rewrite Hbackend.
  unfold bind at 1 2, getThis, lift. rewrite Hcheck.
  unfold bind. by rewrite compileWebMLModel_again.
Qed.

(** *** Fused nodes *)

(** Decide the comparisons of operator names. *)
Ltac eqb_eval :=
  repeat match goal with
  | |- context [String.eqb ?a ?b] =>
      let v := eval vm_compute in (String.eqb a b) in
      match v with
      | true => change (String.eqb a b) with true
      | false => change (String.eqb a b) with false
      end
  end;
  cbn [orb andb negb]; cbv iota.

Tactic Notation "unfold_M" "in" hyp(H) :=
  unfold operandInfoOf, opOf, getThis, orTypeError, bind, ret, throw, lift
    in H.

Lemma yields_bind {A B} (P : B → Prop) (m : M Node A) (k : A → M Node B) :
  (∀ a, yields Node P (k a)) → yields Node P (bind m k).
Proof.
  intros Hk this b this' Hrun.
  apply bind_Ok_inv in Hrun as (a & this1 & _ & Hrun). by eapply Hk.
Qed.

Lemma yields_ret {A} (P : A → Prop) (a : A) : P a → yields Node P (ret a).
Proof. by intros Ha this b this' [= <- _]. Qed.

Lemma yields_throw {A} (P : A → Prop) e : yields Node P (throw e).
Proof. by intros this b this'. Qed.

Ltac yields_tac :=
  cbv zeta;
  lazymatch goal with
  | |- yields _ _ (bind _ _) => apply yields_bind; intros ?; yields_tac
  | |- yields _ _ (ret _) => apply yields_ret; reflexivity
  | |- yields _ _ (throw _) => apply yields_throw
  | |- yields _ _ (if ?b then _ else _) => destruct b; yields_tac
  end.

(** What [compileNode] returns is what its branch returns. *)
Lemma compileNode_visited env ctx visited node this v this' :
  compileNode env ctx visited node this = (Ok v, this') →
  ∃ emitted this1,
    compileBranch env ctx visited node this = (Ok emitted, this1) ∧
    v = emitted.1.
Proof.
  unfold compileNode. intros Hrun.
  apply bind_Ok_inv in Hrun as (emitted & this1 & Hbranch & Hrun).
  exists emitted, this1. split; [done|].
  destruct emitted.2 as [[[opType ins] outs]|].
  - apply bind_Ok_inv in Hrun as (u & this2 & _ & Hrun).
    unfold ret in Hrun. by injection Hrun as <- _.
  - unfold ret in Hrun. by injection Hrun as <- _.
Qed.

(** X17. Fusion.  A visited node is skipped: compiling it returns at once
    and emits nothing.  A convolution that compiles has an add node as its
    first child and marks it visited, together with the first child of
    that add node when it is a clipByValue; an average pooling that
    compiles marks its first child when it is a clipByValue.  So the nodes
    fused into an operation emit nothing when their turn comes. *)
Theorem fused_nodes_skipped env ctx visited node this visited' this' :
  name node ∉ visited →
  compileNode env ctx visited node this = (Ok visited', this') →
  (∀ n v t, name n ∈ v → compileNode env ctx v n t = (Ok v, t)) ∧
  (op node = "conv2d" ∨ op node = "depthwiseConv2d" →
   ∃ biasAdd next,
     children node !! 0 = Some biasAdd ∧ op biasAdd = "add" ∧
     children biasAdd !! 0 = Some next ∧
     name node ∈ visited' ∧ name biasAdd ∈ visited' ∧
     (op next = "clipByValue" → name next ∈ visited')) ∧
  (op node = "avgPool" →
   ∃ next,
     children node !! 0 = Some next ∧ name node ∈ visited' ∧
     (op next = "clipByValue" → name next ∈ visited')).
Proof.
  intros Hvis Hrun. split_and!.
  - intros n v t Hn. unfold compileNode, compileBranch.
    by rewrite bool_decide_eq_true_2.
  - intros Hop.
    apply compileNode_visited in Hrun as (emitted & this1 & Hconv & ->).
    unfold compileBranch in Hconv.
    rewrite bool_decide_eq_false_2 in Hconv by done.
    assert (compileConv env ctx visited node this = (Ok emitted, this1))
      as Hc by (destruct Hop as [Hop|Hop]; rewrite Hop in Hconv;
                revert Hconv; by eqb_eval).
    clear Hconv. unfold compileConv in Hc.
    apply bind_Ok_inv in Hc as (childOp & t1 & Hop1 & Hc).
    unfold opOf in Hop1. unfold_M in Hop1.
    destruct (children node !! 0) as [c|] eqn:Hchild; [|done].
    injection Hop1 as <- <-.
    apply bind_Ok_inv in Hc as (fused & t2 & Hfused & Hc).
    destruct (String.eqb (op c) "add") eqn:Hadd.
    + apply String.eqb_eq in Hadd.
      apply bind_Ok_inv in Hfused as (childOp' & t3 & Hop2 & Hfused).
      unfold_M in Hop2. simpl in Hop2.
      destruct (children c !! 0) as [c'|] eqn:Hchild'; [|done].
      injection Hop2 as <- <-. unfold ret in Hfused.
      injection Hfused as <- <-. simpl in Hc. rewrite !Hchild' in Hc.
      match type of Hc with
      | ?m _ = _ =>
          assert (yields Node
                    (λ e : Emitted,
                       e.1 = markVisited
                               (if String.eqb (op c') "clipByValue"
                                then Some c' else None)
                               (markVisited (Some c)
                                  ({[name node]} ∪ visited))) m)
            as Hy by yields_tac
      end.
      apply Hy in Hc. rewrite Hc. exists c, c'.
      split_and!; [done..| | |].
      * destruct (String.eqb (op c') "clipByValue"); simpl; set_solver.
      * destruct (String.eqb (op c') "clipByValue"); simpl; set_solver.
      * intros ->%String.eqb_eq. simpl. set_solver.
    + unfold ret in Hfused. injection Hfused as <- <-.
      apply bind_Ok_inv in Hc as (input & t4 & _ & Hc).
      apply bind_Ok_inv in Hc as (filter & t5 & _ & Hc).
      by apply bind_Ok_inv in Hc as (biasNode & t6 & Hbn & _).
  - intros Hop.
    apply compileNode_visited in Hrun as (emitted & this1 & Hpool & ->).
    unfold compileBranch in Hpool.
    rewrite bool_decide_eq_false_2 in Hpool by done.
    rewrite Hop in Hpool. revert Hpool. eqb_eval. intros Hc.
    unfold compileAvgPool in Hc.
    apply bind_Ok_inv in Hc as (childOp & t1 & Hop1 & Hc).
    unfold opOf in Hop1. unfold_M in Hop1.
    destruct (children node !! 0) as [c|] eqn:Hchild; [|done].
    injection Hop1 as <- <-. cbv zeta in Hc.
    match type of Hc with
    | ?m _ = _ =>
        assert (yields Node
                  (λ e : Emitted,
                     e.1 = markVisited
                             (if String.eqb (op c) "clipByValue"
                              then Some c else None)
                             ({[name node]} ∪ visited)) m)
          as Hy by yields_tac
    end.
    apply Hy in Hc. rewrite Hc. exists c. split_and!; [done| |].
    + destruct (String.eqb (op c) "clipByValue"); simpl; set_solver.
    + intros ->%String.eqb_eq. simpl. set_solver.
Qed.

End AcceleratedFurther.

Section OperandNumbering.
Context {Node : Type} {HN : NodeLike Node} {HC : Collaborators Node}
        {NN : NeuralNetworkContext} {TF : TfjsCore}.

Implicit Types (this : GraphExecutor Node) (node : Node).

(** *** Indices handed out against operands declared *)

Lemma declaredOperands_snoc calls c :
  declaredOperands (calls ++ [c]) =
  declaredOperands calls + (if isAddOperand c then 1 else 0).
Proof.
  unfold declaredOperands. rewrite filter_app, length_app, filter_cons.
  destruct (decide (isAddOperand c = true)) as [->|Hno]; [done|].
  by destruct (isAddOperand c).
Qed.

Lemma shifts_eq {A} d d' (m : M Node A) :
  shifts Node d m → d = d' → shifts Node d' m.
Proof. by intros ? <-. Qed.

Lemma shifts_bind {A B} d1 d2 (m : M Node A) (k : A → M Node B) :
  shifts Node d1 m → (∀ a, shifts Node d2 (k a)) →
  shifts Node (d1 + d2)%Z (bind m k).
Proof.
  intros Hm Hk this b this' Hrun.
  apply bind_Ok_inv in Hrun as (a & this1 & Hm1 & Hk1).
  rewrite (Hk _ _ _ _ Hk1), (Hm _ _ _ Hm1). lia.
Qed.

Lemma shifts_ret {A} (a : A) : shifts Node 0 (ret a).
Proof. intros this b this' [= <- <-]. lia. Qed.
Lemma shifts_throw {A} d e : shifts Node d (throw e : M Node A).
Proof. by intros this b this'. Qed.
Lemma shifts_lift {A} (r : Result A) : shifts Node 0 (lift r).
Proof. intros this b this' [= _ <-]. lia. Qed.
Lemma shifts_orTypeError {A} (o : option A) : shifts Node 0 (orTypeError o).
Proof. destruct o; [apply shifts_ret|apply shifts_throw]. Qed.
Lemma shifts_getThis : shifts Node 0 getThis.
Proof. intros this b this' [= _ <-]. lia. Qed.
Lemma shifts_nextOperandIndex : shifts Node 1 nextOperandIndex.
Proof. intros this b this' [= _ <-]. unfold imbalance. simpl. lia. Qed.
Lemma shifts_setOperandInfo key info :
  shifts Node 0 (setOperandInfo key info).
Proof. intros this [] this' [= <-]. unfold imbalance. simpl. lia. Qed.
Lemma shifts_call c :
  shifts Node (if isAddOperand c then -1 else 0) (call c).
Proof.
  intros this [] this' [= <-]. unfold imbalance. simpl.
  rewrite declaredOperands_snoc. destruct (isAddOperand c); lia.
Qed.

Lemma shifts_addOperand type dimensions :
  shifts Node (-1) (call (AddOperand type dimensions)).
Proof. apply (shifts_call (AddOperand type dimensions)). Qed.
Lemma shifts_call_other c :
  isAddOperand c = false → shifts Node 0 (call c).
Proof. intros Hc. pose proof (shifts_call c) as H. by rewrite Hc in H. Qed.

Create HintDb shifts.

(** Find the shift of a method built from binds and branches. *)
Ltac shifts_tac :=
  cbv zeta;
  eapply shifts_eq;
  [ lazymatch goal with
    | |- shifts _ _ (bind _ _) =>
        eapply shifts_bind; [shifts_tac|intros ?; shifts_tac]
    | |- shifts _ _ (ret _) => apply shifts_ret
    | |- shifts _ _ (throw _) => apply shifts_throw
    | |- shifts _ _ (lift _) => apply shifts_lift
    | |- shifts _ _ (orTypeError _) => apply shifts_orTypeError
    | |- shifts _ _ getThis => apply shifts_getThis
    | |- shifts _ _ nextOperandIndex => apply shifts_nextOperandIndex
    | |- shifts _ _ (setOperandInfo _ _) => apply shifts_setOperandInfo
    | |- shifts _ _ (call (AddOperand _ _)) => apply shifts_addOperand
    | |- shifts _ _ (call _) => apply shifts_call_other; reflexivity
    | |- shifts _ _ (if ?b then _ else _) => destruct b; shifts_tac
    | |- shifts _ _ (match ?x with _ => _ end) => destruct x; shifts_tac
    | |- _ => solve [eauto with shifts nocore]
    end
  | first [reflexivity | lia] ].


Lemma shifts_operandInfoOf key : shifts Node 0 (operandInfoOf key).
Proof. unfold operandInfoOf. shifts_tac. Qed.
Lemma shifts_addScalarInt32 v : shifts Node 0 (addScalarInt32 v).
Proof. unfold addScalarInt32. shifts_tac. Qed.
Lemma shifts_addScalarFloat32 v : shifts Node 0 (addScalarFloat32 v).
Proof. unfold addScalarFloat32. shifts_tac. Qed.
#[local] Hint Resolve shifts_operandInfoOf shifts_addScalarInt32
  shifts_addScalarFloat32 : shifts.

Lemma shifts_addPadding pad : shifts Node 0 (addPadding pad).
Proof. unfold addPadding. shifts_tac. Qed.
Lemma shifts_opOf c : shifts Node 0 (opOf c).
Proof. unfold opOf. shifts_tac. Qed.
#[local] Hint Resolve shifts_addPadding shifts_opOf : shifts.

Lemma shifts_compilePlaceholder env visited node :
  shifts Node 0 (compilePlaceholder env visited node).
Proof. unfold compilePlaceholder. shifts_tac. Qed.
Lemma shifts_compileConst env visited node :
  shifts Node 0 (compileConst env visited node).
Proof. unfold compileConst. shifts_tac. Qed.
Lemma shifts_compileConv env ctx visited node :
  shifts Node 0 (compileConv env ctx visited node).
Proof. unfold compileConv. shifts_tac. Qed.
Lemma shifts_compileAvgPool env ctx visited node :
  shifts Node 0 (compileAvgPool env ctx visited node).
Proof. unfold compileAvgPool. shifts_tac. Qed.
Lemma shifts_compileSqueeze visited node :
  shifts Node 0 (compileSqueeze visited node).
Proof. unfold compileSqueeze. shifts_tac. Qed.
Lemma shifts_compileSoftmax visited node :
  shifts Node 0 (compileSoftmax visited node).
Proof. unfold compileSoftmax. shifts_tac. Qed.
#[local] Hint Resolve shifts_compilePlaceholder shifts_compileConst
  shifts_compileConv shifts_compileAvgPool shifts_compileSqueeze
  shifts_compileSoftmax : shifts.

Lemma shifts_compileNode env ctx visited node :
  shifts Node 0 (compileNode env ctx visited node).
Proof. unfold compileNode, compileBranch. shifts_tac. Qed.
#[local] Hint Resolve shifts_compileNode : shifts.

Lemma shifts_compileNodes env ctx nodes : ∀ visited,
  shifts Node 0 (compileNodes env ctx visited nodes).
Proof.
  induction nodes as [|n nodes IH]; intros visited; simpl; shifts_tac.
Qed.

(** After a compilation that returns, the indices handed out since it
    began are as many as the operands declared to the new model. *)
Lemma compileWebMLModel_counts inputTensors this this' :
  compiledWebMLModel this = false →
  compileWebMLModel inputTensors this = (Ok (), this') →
  operandIndex this' = operandIndex this + declaredOperands (model this').
Proof.
  intros Hflag Hrun. unfold compileWebMLModel in Hrun.
  apply bind_Ok_inv in Hrun as (this0 & t0 & [= <- <-] & Hrun).
  rewrite Hflag in Hrun.
  apply bind_Ok_inv in Hrun as ([] & this1 & [= <-] & Hrun).
  assert (shifts Node 0 (setCompiled (Node := Node))) as Hset.
  { intros t [] t' [= <-]. unfold imbalance. simpl. lia. }
  pose proof shifts_compileNodes as Hnodes.
  match type of Hrun with
  | ?m _ = _ => assert (shifts Node 0 m) as Hshift by shifts_tac
  end.
  pose proof (Hshift _ _ _ Hrun) as Heq. revert Heq.
  unfold imbalance. simpl. unfold declaredOperands at 2. simpl. lia.
Qed.

(** *** Indices referred to against indices handed out *)

Lemma keepsAllocated_bind {A B} bound (m : M Node A) (k : A → M Node B)
    (Q1 : A → list nat) (Q2 : B → list nat) :
  keepsAllocated Node bound m Q1 →
  (∀ a, keepsAllocated Node (Q1 a ++ bound) (k a) Q2) →
  keepsAllocated Node bound (bind m k) Q2.
Proof.
  intros Hm Hk this Ha Hb. unfold bind.
  destruct (Hm this Ha Hb) as (Ha1 & Hle1 & HQ1).
  destruct (m this) as [[a|e] this1]; simpl in *.
  - destruct (Hk a this1 Ha1) as (Ha2 & Hle2 & HQ2).
    { intros i [Hi|Hi]%elem_of_app; [by apply (HQ1 a eq_refl)|].
      apply Hb in Hi. lia. }
    split_and!; [done|lia|done].
  - split_and!; [done|done|]. by intros a [=].
Qed.

Lemma keepsAllocated_ret {A} bound (a : A) (Q : A → list nat) :
  (∀ i, i ∈ Q a → i ∈ bound) → keepsAllocated Node bound (ret a) Q.
Proof.
  intros HQ this Ha Hb. simpl. split_and!; [done..|].
  intros b [= <-] i Hi. by apply Hb, HQ.
Qed.

Lemma keepsAllocated_throw {A} bound e (Q : A → list nat) :
  keepsAllocated Node bound (throw e : M Node A) Q.
Proof. intros this Ha Hb. simpl. split_and!; [done..|]. by intros b [=]. Qed.

Lemma keepsAllocated_lift {A} bound (r : Result A) :
  keepsAllocated Node bound (lift r) (λ _, []).
Proof.
  intros this Ha Hb. simpl. split_and!; [done..|].
  by intros b _ i ?%elem_of_nil.
Qed.

Lemma keepsAllocated_orTypeError {A} bound (o : option A)
    (Q : A → list nat) :
  (∀ a i, o = Some a → i ∈ Q a → i ∈ bound) →
  keepsAllocated Node bound (orTypeError o) Q.
Proof.
  intros HQ. destruct o as [a|]; [|apply keepsAllocated_throw].
  apply keepsAllocated_ret. intros i. by apply HQ.
Qed.

Lemma keepsAllocated_getThis bound :
  keepsAllocated Node bound getThis (λ _, []).
Proof.
  intros this Ha Hb. simpl. split_and!; [done..|].
  by intros b _ i ?%elem_of_nil.
Qed.

Lemma keepsAllocated_nextOperandIndex bound :
  keepsAllocated Node bound nextOperandIndex (λ i, [i]).
Proof.
  intros this [Hinfos Hcalls] Hb. simpl. split_and!.
  - split.
    + intros key info Hk. apply Hinfos in Hk. simpl. lia.
    + intros c i Hc Hi. specialize (Hcalls c i Hc Hi). simpl. lia.
  - lia.
  - intros a [= <-] i ->%list_elem_of_singleton. lia.
Qed.

Lemma keepsAllocated_setOperandInfo bound key info :
  index info ∈ bound →
  keepsAllocated Node bound (setOperandInfo key info) (λ _, []).
Proof.
  intros Hin this [Hinfos Hcalls] Hb. simpl. split_and!.
  - split; [|done].
    intros key' info'. simpl. destruct (decide (key = key')) as [<-|Hne].
    + rewrite lookup_insert_eq. intros [= <-]. by apply Hb.
    + rewrite lookup_insert_ne by done. apply Hinfos.
  - done.
  - by intros a _ i ?%elem_of_nil.
Qed.

Lemma keepsAllocated_call bound c :
  (∀ i, i ∈ referenced c → i ∈ bound) →
  keepsAllocated Node bound (call c) (λ _, []).
Proof.
  intros Hin this [Hinfos Hcalls] Hb. simpl. split_and!.
  - split; [done|]. simpl.
    intros c' i [Hc| ->%list_elem_of_singleton]%elem_of_app Hi.
    + by apply (Hcalls c').
    + by apply Hb, Hin.
  - done.
  - by intros a _ i ?%elem_of_nil.
Qed.

Lemma keepsAllocated_createModel bound :
  keepsAllocated Node bound createModel (λ _, []).
Proof.
  intros this [Hinfos Hcalls] Hb. simpl. split_and!.
  - split; [done|]. simpl. by intros c i ?%elem_of_nil.
  - done.
  - by intros a _ i ?%elem_of_nil.
Qed.

Lemma keepsAllocated_setCompiled bound :
  keepsAllocated Node bound setCompiled (λ _, []).
Proof.
  intros this [Hinfos Hcalls] Hb. simpl. split_and!; [by split|done|].
  by intros a _ i ?%elem_of_nil.
Qed.

(** [this.operandInfos[key]], then a property of it read. *)
Lemma keepsAllocated_operandInfo bound key :
  keepsAllocated Node bound (bind (operandInfoOf key) orTypeError)
    (λ info, [index info]).
Proof.
  intros this Ha Hb. unfold operandInfoOf, bind, getThis, ret, orTypeError.
  destruct (operandInfos this !! jsKey key) as [info|] eqn:Hk; simpl.
  - split_and!; [done..|].
    intros a [= <-] i ->%list_elem_of_singleton.
    by apply (proj1 Ha (jsKey key)).
  - split_and!; [done..|]. by intros a [=].
Qed.

Lemma keepsAllocated_operandInfoOf bound key :
  keepsAllocated Node bound (operandInfoOf key)
    (λ o, match o with Some info => [index info] | None => [] end).
Proof.
  intros this Ha Hb. unfold operandInfoOf, bind, getThis, ret. simpl.
  split_and!; [done..|].
  intros a [= <-] i Hi.
  destruct (operandInfos this !! jsKey key) as [info|] eqn:Hk;
    [|by apply elem_of_nil in Hi].
  apply list_elem_of_singleton in Hi as ->. by apply (proj1 Ha (jsKey key)).
Qed.

Lemma keepsAllocated_ret_nil {A} bound (a : A) :
  keepsAllocated Node bound (ret a) (λ _, []).
Proof. apply keepsAllocated_ret. by intros i ?%elem_of_nil. Qed.

Lemma keepsAllocated_orTypeError_nil {A} bound (o : option A) :
  keepsAllocated Node bound (orTypeError o) (λ _, []).
Proof. apply keepsAllocated_orTypeError. by intros a i _ ?%elem_of_nil. Qed.

Lemma keepsAllocated_orTypeError_info bound (o : option OperandInfo) :
  (∀ info, o = Some info → index info ∈ bound) →
  keepsAllocated Node bound (orTypeError o) (λ info, [index info]).
Proof.
  intros Hin. apply keepsAllocated_orTypeError.
  intros info i Ho ->%list_elem_of_singleton. by apply Hin.
Qed.

Create HintDb alloc.

(** Membership of an index in the indices known to be handed out. *)
Ltac mem :=
  lazymatch goal with
  | |- _ ∈ _ :: _ => first [left | right; mem]
  | |- _ ∈ _ ++ _ => apply elem_of_app; first [left; mem | right; mem]
  | |- _ ∈ _ => assumption
  end.

Ltac split_mem H :=
  lazymatch type of H with
  | _ ∈ [] => by apply elem_of_nil in H
  | _ ∈ _ :: _ => apply elem_of_cons in H as [->|H]; [mem|split_mem H]
  | _ ∈ _ ++ _ => apply elem_of_app in H as [H|H]; split_mem H
  | _ => mem
  end.

Ltac all_mem :=
  let i := fresh "i" in let Hi := fresh "Hi" in
  intros i Hi; cbn in Hi |- *; split_mem Hi.

Ltac alloc_tac :=
  cbv zeta;
  lazymatch goal with
  | |- keepsAllocated _ _ (bind (operandInfoOf _) orTypeError) _ =>
      apply keepsAllocated_operandInfo
  | |- keepsAllocated _ _ (bind _ _) _ =>
      eapply keepsAllocated_bind; [alloc_tac|intros ?; cbn beta; alloc_tac]
  | |- keepsAllocated _ _ (operandInfoOf _) _ =>
      apply keepsAllocated_operandInfoOf
  | |- keepsAllocated _ _ nextOperandIndex _ =>
      apply keepsAllocated_nextOperandIndex
  | |- keepsAllocated _ _ (lift _) _ => apply keepsAllocated_lift
  | |- keepsAllocated _ _ getThis _ => apply keepsAllocated_getThis
  | |- keepsAllocated _ _ createModel _ => apply keepsAllocated_createModel
  | |- keepsAllocated _ _ setCompiled _ => apply keepsAllocated_setCompiled
  | |- keepsAllocated _ _ (throw _) _ => apply keepsAllocated_throw
  | |- keepsAllocated _ _ (setOperandInfo _ _) _ =>
      apply keepsAllocated_setOperandInfo; cbn; mem
  | |- keepsAllocated _ _ (call _) _ => apply keepsAllocated_call; all_mem
  | |- keepsAllocated _ _ (ret _) ?Q =>
      first [ is_evar Q; apply keepsAllocated_ret_nil
            | apply keepsAllocated_ret; all_mem ]
  | |- keepsAllocated _ _ (orTypeError _) ?Q =>
      first [ is_evar Q;
              first [ apply keepsAllocated_orTypeError_info;
                      intros ? ->; cbn; mem
                    | apply keepsAllocated_orTypeError_nil ]
            | apply keepsAllocated_orTypeError; intros ? ? ->; all_mem ]
  | |- keepsAllocated _ _
         (if _ then bind (addScalarInt32 _) _ else ret _) _ =>
      solve [eauto with alloc nocore]
  | |- keepsAllocated _ _ (if ?b then _ else _) _ => destruct b; alloc_tac
  | |- keepsAllocated _ _ (match ?x with _ => _ end) _ =>
      destruct x; alloc_tac
  | |- _ => solve [eauto with alloc nocore]
  end.

Lemma keepsAllocated_addScalarInt32 bound v :
  keepsAllocated Node bound (addScalarInt32 v) (λ i, [i]).
Proof. unfold addScalarInt32. alloc_tac. Qed.
Lemma keepsAllocated_addScalarFloat32 bound v :
  keepsAllocated Node bound (addScalarFloat32 v) (λ i, [i]).
Proof. unfold addScalarFloat32. alloc_tac. Qed.
#[local] Hint Resolve keepsAllocated_addScalarInt32
  keepsAllocated_addScalarFloat32 : alloc.

Lemma keepsAllocated_addPadding bound pad :
  keepsAllocated Node bound (addPadding pad) (λ i, [i]).
Proof. unfold addPadding. alloc_tac. Qed.
Lemma keepsAllocated_opOf bound c :
  keepsAllocated Node bound (opOf c) (λ _, []).
Proof. unfold opOf. alloc_tac. Qed.
Lemma keepsAllocated_multiplier bound (depthwise : bool) v :
  keepsAllocated Node bound
    (if depthwise then bind (addScalarInt32 v) (λ i, ret [i]) else ret [])
    (λ l, l).
Proof.
  destruct depthwise; [|apply keepsAllocated_ret; by intros i ?%elem_of_nil].
  eapply keepsAllocated_bind; [apply keepsAllocated_addScalarInt32|].
  intros i. apply keepsAllocated_ret. all_mem.
Qed.
#[local] Hint Resolve keepsAllocated_addPadding keepsAllocated_opOf
  keepsAllocated_multiplier : alloc.

Lemma keepsAllocated_compilePlaceholder bound env visited node :
  keepsAllocated Node bound (compilePlaceholder env visited node)
    emittedIndices.
Proof. unfold compilePlaceholder. alloc_tac. Qed.
Lemma keepsAllocated_compileConst bound env visited node :
  keepsAllocated Node bound (compileConst env visited node) emittedIndices.
Proof. unfold compileConst. alloc_tac. Qed.
Lemma keepsAllocated_compileConv bound env ctx visited node :
  keepsAllocated Node bound (compileConv env ctx visited node)
    emittedIndices.
Proof. unfold compileConv. alloc_tac. Qed.
Lemma keepsAllocated_compileAvgPool bound env ctx visited node :
  keepsAllocated Node bound (compileAvgPool env ctx visited node)
    emittedIndices.
Proof. unfold compileAvgPool. alloc_tac. Qed.
Lemma keepsAllocated_compileSqueeze bound visited node :
  keepsAllocated Node bound (compileSqueeze visited node) emittedIndices.
Proof. unfold compileSqueeze. alloc_tac. Qed.
Lemma keepsAllocated_compileSoftmax bound visited node :
  keepsAllocated Node bound (compileSoftmax visited node) emittedIndices.
Proof. unfold compileSoftmax. alloc_tac. Qed.
#[local] Hint Resolve keepsAllocated_compilePlaceholder
  keepsAllocated_compileConst keepsAllocated_compileConv
  keepsAllocated_compileAvgPool keepsAllocated_compileSqueeze
  keepsAllocated_compileSoftmax : alloc.

Lemma keepsAllocated_compileBranch bound env ctx visited node :
  keepsAllocated Node bound (compileBranch env ctx visited node)
    emittedIndices.
Proof. unfold compileBranch. alloc_tac. Qed.
#[local] Hint Resolve keepsAllocated_compileBranch : alloc.

Lemma keepsAllocated_compileNode bound env ctx visited node :
  keepsAllocated Node bound (compileNode env ctx visited node) (λ _, []).
Proof.
  unfold compileNode. eapply keepsAllocated_bind; [alloc_tac|].
  intros [v [[[opType ins] outs]|]]; unfold emittedIndices; cbn; alloc_tac.
Qed.
#[local] Hint Resolve keepsAllocated_compileNode : alloc.

Lemma keepsAllocated_compileNodes bound env ctx nodes : ∀ visited,
  keepsAllocated Node bound (compileNodes env ctx visited nodes) (λ _, []).
Proof.
  induction nodes as [|n nodes IH]; intros visited; simpl; [alloc_tac|].
  eapply keepsAllocated_bind; [alloc_tac|]. intros v. cbn beta.
  intros this Ha Hb. apply IH; [done|].
  intros i Hi. apply Hb. apply elem_of_app. by right.
Qed.
#[local] Hint Resolve keepsAllocated_compileNodes : alloc.

Lemma keepsAllocated_compileWebMLModel inputTensors :
  keepsAllocated Node [] (compileWebMLModel inputTensors) (λ _, []).
Proof. unfold compileWebMLModel. alloc_tac. Qed.

Lemma bind_getThis {A} (k : GraphExecutor Node → M Node A) this :
  bind getThis k this = k this this.
Proof. reflexivity. Qed.

(** [createModel] replaces the model: what it held before plays no role. *)
Lemma compileWebMLModel_fresh_model inputTensors this :
  compiledWebMLModel this = false →
  compileWebMLModel inputTensors this =
  compileWebMLModel inputTensors
    (mkExecutor (graph this) (compiledOrder this) (_weightMap this)
       (weightIds this) (inputNodes this) (outputNodes this)
       false (operandInfos this) [] (operandIndex this)).
Proof.
  intros Hflag. unfold compileWebMLModel. rewrite !bind_getThis.
  cbn [compiledWebMLModel]. rewrite Hflag.
  unfold bind at 1. unfold bind at 14. unfold createModel.
  cbn [graph compiledOrder _weightMap weightIds inputNodes outputNodes
       compiledWebMLModel operandInfos operandIndex model].
  rewrite Hflag. reflexivity.
Qed.

(** X15. The model emitted by a first compilation is well formed.  When
    [compileWebMLModel] returns on an executor that has handed out no
    operand index yet, the indices handed out are as many as the operands
    declared to the model by [addOperand], and every operand index passed
    to [setOperandValue], [addOperation] or [identifyInputsAndOutputs]
    is the index of a declared operand. *)
Theorem compiled_model_well_formed inputTensors this :
  operandIndex this = 0 →
  operandInfos this = ∅ →
  compiledWebMLModel this = false →
  (compileWebMLModel inputTensors this).1 = Ok () →
  let this' := (compileWebMLModel inputTensors this).2 in
  operandIndex this' = declaredOperands (model this') ∧
  ∀ c i, c ∈ model this' → i ∈ referenced c →
         i < declaredOperands (model this').
Proof.
  intros Hindex Hinfos Hflag Hrun. cbv zeta.
  destruct (compileWebMLModel inputTensors this) as [r this'] eqn:Hc.
  simpl in *. subst r.
  pose proof (compileWebMLModel_counts _ _ _ Hflag Hc) as Hcount.
  rewrite Hindex in Hcount. simpl in Hcount. split; [done|].
  rewrite compileWebMLModel_fresh_model in Hc by done.
  pose proof (keepsAllocated_compileWebMLModel inputTensors) as Hsafe.
  match type of Hc with
  | compileWebMLModel _ ?this0 = _ =>
      destruct (Hsafe this0) as ([_ Hcalls] & _ & _)
  end.
  - split.
    + intros key info. simpl. rewrite Hinfos. by rewrite lookup_empty.
    + simpl. by intros c i ?%elem_of_nil.
  - by intros i ?%elem_of_nil.
  - rewrite Hc in Hcalls. simpl in Hcalls. rewrite <- Hcount.
    apply Hcalls.
Qed.

End OperandNumbering.

(* ===================================================================== *)
(** * Part VII. The further properties on the worked instances            *)
(* ===================================================================== *)

Module ConditionalFurther.
Import Conditional.

Lemma execute_rejects_before_running_witness :
  checkInput condExecutor inputsMissingPred
    = Throw (Error "Missing input placeholders: pred") ∧
  execute (NN := demoNN) (TF := demoCore "webgl")
    inputsMissingPred None condExecutor
    = (Throw (Error "Missing input placeholders: pred"), condExecutor) ∧
  (Error "Missing input placeholders: pred"
     = Error ("Missing input placeholders: "
              +:+ joinNames (missingInputs condExecutor inputsMissingPred)) ∧
   missingInputs condExecutor inputsMissingPred ≠ []
   ∨
   Error "Missing input placeholders: pred"
     = Error ("Extra input tensors: "
              +:+ joinNames (extraInputs condExecutor inputsMissingPred)) ∧
   missingInputs condExecutor inputsMissingPred = [] ∧
   extraInputs condExecutor inputsMissingPred ≠ []).
Proof.
  assert (checkInput condExecutor inputsMissingPred
            = Throw (Error "Missing input placeholders: pred")) as Hcheck
    by (vm_compute; reflexivity).
  split; [exact Hcheck|].
  exact (execute_rejects_before_running (NN := demoNN)
           (TF := demoCore "webgl") condExecutor inputsMissingPred None
           (Error "Missing input placeholders: pred") Hcheck).
Defined.

Lemma executeAsync_without_weights_witness :
  weightIds condConstructed = None ∧
  returned (executeAsync 20 condConstructed condInputs
              (Some (Names ["x"])))
    = Some (Ok {["x" := Some xTensor]}) ∧
  disposed (executeAsync 20 condConstructed condInputs
              (Some (Names ["x"]))) = [] ∧
  ∀ results st,
    returned (executeAsync 20 condConstructed condInputs
                (Some (Names ["x"]))) = Some (Ok results) →
    (executeWithControlFlow 20 (graph condConstructed)
       (_weightMap condConstructed) condInputs
       (newExecutionContext (_weightMap condConstructed))).1
      = Some (Ok st) →
    ∀ t, inEnvironment (tensorMap st) t →
         isOutputId results (id t) ∨ isInputId condInputs (id t).
Proof.
  split; [reflexivity|]. split; [vm_compute; reflexivity|].
  exact (executeAsync_without_weights 20 condConstructed condInputs
           (Some (Names ["x"])) eq_refl).
Defined.

Lemma executeAsync_spares_weights_witness :
  set_weightMap condWeights condConstructed = Ok condExecutor ∧
  ∀ t w, t ∈ disposed (executeAsync 20 condExecutor condInputs None) →
         w ∈ (dispose condExecutor).2 → id t ≠ id w.
Proof.
  assert (set_weightMap condWeights condConstructed = Ok condExecutor)
    as Hset by (vm_compute; reflexivity).
  split; [exact Hset|].
  exact (executeAsync_spares_weights 20 condConstructed condExecutor
           condWeights condInputs None Hset).
Defined.

Lemma scheduler_environment_witness :
  (executeWithControlFlow 20 condGraph condWeights condInputs topContext).1
    = Some (Ok condFinal) ∧
  stack condFinal = [] ∧
  (executeWithControlFlow 20 condGraph condWeights condInputs topContext).2
    = events condFinal ∧
  fromRun (condInputs ∪ condWeights) (events condFinal)
          (tensorMap condFinal) ∧
  ∀ key, is_Some ((condInputs ∪ condWeights) !! key) →
         is_Some (tensorMap condFinal !! key).
Proof.
  assert ((executeWithControlFlow 20 condGraph condWeights condInputs
             topContext).1 = Some (Ok condFinal)) as Hrun
    by (vm_compute; reflexivity).
  split; [exact Hrun|].
  exact (scheduler_environment 20 condGraph condWeights condInputs
           topContext condFinal Hrun).
Defined.

Lemma execute_control_flow_runs_nothing_witness :
  newGraphExecutor 0 condGraph = Some condConstructed ∧
  isControlFlowModel condConstructed = true ∧
  findOutputs condExecutor (condInputs ∪ condWeights)
    (newExecutionContext condWeights) None = {["merge" := None]} ∧
  execute (NN := demoNN) (TF := demoCore "webgl") condInputs None
    condExecutor
    = (Ok (findOutputs condExecutor (condInputs ∪ condWeights)
             (newExecutionContext condWeights) None), condExecutor).
Proof.
  assert (newGraphExecutor 0 condGraph = Some condConstructed) as Hnew
    by (vm_compute; reflexivity).
  assert (set_weightMap condWeights condConstructed = Ok condExecutor)
    as Hset by (vm_compute; reflexivity).
  assert (checkInput condExecutor condInputs = Ok ()) as Hcheck
    by (vm_compute; reflexivity).
  split; [exact Hnew|]. split; [reflexivity|].
  split; [vm_compute; reflexivity|].
  exact (execute_control_flow_runs_nothing (NN := demoNN)
           (TF := demoCore "webgl") 0 condGraph condConstructed
           condExecutor condWeights condInputs None
           Hnew eq_refl Hset eq_refl Hcheck).
Defined.

End ConditionalFurther.

Module ClassifierFurther.
Import Classifier.

Lemma scheduler_exception_origin_witness :
  (executeWithControlFlow (HC := failingCollaborators) 20 classifierGraph
     classifierWeights classifierInputs rootContext).1
    = Some (Throw (Error "pooling failed")) ∧
  ∃ n env0 ctx0,
    last (executeWithControlFlow (HC := failingCollaborators) 20
            classifierGraph classifierWeights classifierInputs
            rootContext).2 = Some (Executed n) ∧
    (executeOp (Collaborators := failingCollaborators) n env0 ctx0).1
      = Throw (Error "pooling failed").
Proof.
  assert ((executeWithControlFlow (HC := failingCollaborators) 20
             classifierGraph classifierWeights classifierInputs
             rootContext).1 = Some (Throw (Error "pooling failed")))
    as Hrun by (vm_compute; reflexivity).
  split; [exact Hrun|].
  exact (scheduler_exception_origin (HC := failingCollaborators) 20
           classifierGraph classifierWeights classifierInputs rootContext
           (Error "pooling failed") Hrun).
Defined.

Lemma classifier_wellLinked : wellLinked classifierGraph.
Proof.
  split.
  - apply ClassifierFacts.classifier_consistent.
  - intros n Hn. simpl in Hn.
    repeat (apply elem_of_cons in Hn as [->|Hn]); [..|by apply elem_of_nil in Hn];
      reflexivity.
  - intros a b _ _. destruct a, b; simpl; intros Heq; first [done|discriminate Heq].
  - compute_done.
  - intros p _. destruct p; compute_done.
Qed.

Lemma compile_each_node_once_witness :
  wellLinked classifierGraph ∧
  compile 9 classifierGraph = Some classifierOrder ∧
  NoDup (name <$> classifierOrder) ∧
  ∀ n, n ∈ classifierOrder ↔ reachable classifierGraph n.
Proof.
  assert (compile 9 classifierGraph = Some classifierOrder) as Hrun
    by (vm_compute; reflexivity).
  split; [exact classifier_wellLinked|]. split; [exact Hrun|].
  exact (compile_each_node_once classifierGraph 9 classifierOrder
           classifier_wellLinked eq_refl Hrun).
Defined.

Lemma execute_operator_failure_witness :
  checkInput classifierExecutor classifierInputs = Ok () ∧
  executeNodes (HC := failingCollaborators)
    (classifierInputs ∪ _weightMap classifierExecutor)
    (newExecutionContext (_weightMap classifierExecutor))
    [Bias; Weights; Input; Conv; BiasAdd; Relu6]
    = Ok (envBeforePool, rootContext) ∧
  (executeOp (Collaborators := failingCollaborators) Pool envBeforePool
     rootContext).1 = Throw (Error "pooling failed") ∧
  execute (HC := failingCollaborators) (NN := demoNN)
    (TF := demoCore "webgl") classifierInputs None classifierExecutor
    = (Throw (Error "pooling failed"), classifierExecutor).
Proof.
  assert (checkInput classifierExecutor classifierInputs = Ok ()) as Hcheck
    by (vm_compute; reflexivity).
  assert (executeNodes (HC := failingCollaborators)
            (classifierInputs ∪ _weightMap classifierExecutor)
            (newExecutionContext (_weightMap classifierExecutor))
            [Bias; Weights; Input; Conv; BiasAdd; Relu6]
          = Ok (envBeforePool, rootContext)) as Hpre
    by (vm_compute; reflexivity).
  assert ((executeOp (Collaborators := failingCollaborators) Pool
             envBeforePool rootContext).1
          = Throw (Error "pooling failed")) as Hop by reflexivity.
  split; [exact Hcheck|]. split; [exact Hpre|]. split; [exact Hop|].
  exact (execute_operator_failure (HC := failingCollaborators)
           (NN := demoNN) (TF := demoCore "webgl")
           classifierExecutor classifierInputs None
           [Bias; Weights; Input; Conv; BiasAdd; Relu6] Pool
           [Squeeze; Softmax] envBeforePool rootContext
           (Error "pooling failed") eq_refl Hcheck eq_refl Hpre Hop).
Defined.

Lemma execute_compiles_once_witness :
  (execute (NN := demoNN) (TF := demoCore "cpu") classifierInputs None
     classifierExecutor).1
    = Ok {["softmax" := Some (mkTensor 1000 "float32" [1; 8]%Z [])]} ∧
  let this' :=
    (execute (NN := demoNN) (TF := demoCore "cpu") classifierInputs None
       classifierExecutor).2 in
  compiledWebMLModel this' = true ∧
  ∀ inputs' outs',
    checkInput this' inputs' = Ok () →
    execute (NN := demoNN) (TF := demoCore "cpu") inputs' outs' this'
      = executeWebMLModel (TF := demoCore "cpu") inputs' this'.
Proof.
  assert ((execute (NN := demoNN) (TF := demoCore "cpu") classifierInputs
             None classifierExecutor).1
          = Ok {["softmax" := Some (mkTensor 1000 "float32" [1; 8]%Z [])]})
    as Hrun by (vm_compute; reflexivity).
  assert (getBackend (TfjsCore := demoCore "cpu") ≠ "webgl") as Hbackend
    by discriminate.
  split; [exact Hrun|].
  exact (execute_compiles_once (NN := demoNN) (TF := demoCore "cpu")
           classifierExecutor classifierInputs None
           {["softmax" := Some (mkTensor 1000 "float32" [1; 8]%Z [])]}
           Hbackend Hrun).
Defined.

Lemma compiled_model_well_formed_witness :
  (compileWebMLModel (NN := demoNN) (TF := demoCore "cpu")
     classifierInputs classifierExecutor).1 = Ok () ∧
  let this' :=
    (compileWebMLModel (NN := demoNN) (TF := demoCore "cpu")
       classifierInputs classifierExecutor).2 in
  operandIndex this' = declaredOperands (model this') ∧
  ∀ c i, c ∈ model this' → i ∈ referenced c →
         i < declaredOperands (model this').
Proof.
  assert ((compileWebMLModel (NN := demoNN) (TF := demoCore "cpu")
             classifierInputs classifierExecutor).1 = Ok ()) as Hrun
    by (vm_compute; reflexivity).
  split; [exact Hrun|].
  exact (compiled_model_well_formed (NN := demoNN) (TF := demoCore "cpu")
           classifierInputs classifierExecutor eq_refl eq_refl eq_refl
           Hrun).
Defined.

End ClassifierFurther.
